(** * cpp-future-exercise: promise / future / shared future with continuations

    A shallow embedding of [include/future.hpp], [include/uniquefunction.hpp],
    [include/future_errorcodes.hpp] and [include/utils.hpp] of namespace
    [tclib], and the properties of the specification checked against it.

    The embedding is sequential: one call runs to its end before the next
    one starts.  A mutex and a condition variable then carry no state, and
    [wait] on a cell that is not completed never returns, which the model
    records as the result [Hang blocks_forever].  The part on threads cuts
    the members into steps and lets the steps of calls that overlap
    interleave. *)

From Stdlib Require Import String List Lia Bool Arith.
From stdpp Require Import base list.
Import ListNotations.

Set Implicit Arguments.

(* ------------------------------------------------------------------ *)
(** * Error codes, exceptions and results *)

(** [enum class FutureErrorCode], future_errorcodes.hpp. *)
Inductive FutureErrorCode : Type :=
| broken_promise
| future_already_retrieved
| promise_already_satisfied
| no_state.

(** The enumerators' values. *)
Definition code_value (code : FutureErrorCode) : nat :=
  match code with
  | broken_promise => 0
  | future_already_retrieved => 1
  | promise_already_satisfied => 2
  | no_state => 3
  end.

(** [toString], utils.hpp. *)
Definition toString (code : FutureErrorCode) : string :=
  match code with
  | broken_promise => "broken_promise"
  | future_already_retrieved => "future_already_retrieved"
  | promise_already_satisfied => "promise_already_satisfied"
  | no_state => "no_state"
  end.

(** The exceptions the program throws or carries: [FutureError] (a
    [std::logic_error] built from a code), [std::bad_function_call] from the
    empty dispatch table, [std::bad_optional_access] from
    [std::optional::value], and whatever a caller throws, kept by the name of
    its class and its message. *)
Inductive Exception : Type :=
| FutureError (code : FutureErrorCode)
| bad_function_call
| bad_optional_access
| user_exception (kind what : string).

(** [what()] : [FutureError] passes [toString code] to [std::logic_error]. *)
Definition what (e : Exception) : string :=
  match e with
  | FutureError code => toString code
  | bad_function_call => "bad_function_call"
  | bad_optional_access => "bad optional access"
  | user_exception _ msg => msg
  end.

(** [std::exception_ptr]: null, or a captured exception. *)
Definition exception_ptr : Type := option Exception.

(** Why a call does not come back. *)
Inductive Stuck : Type :=
| blocks_forever        (* waits on a condition nobody will signal *)
| out_of_fuel           (* the interpreter's budget of nested calls ran out *)
| undefined_behaviour.  (* reads an object that is not there *)

(** What a call does: return, throw, or never come back. *)
Inductive Result (A : Type) : Type :=
| Return (a : A)
| Throw (e : Exception)
| Hang (why : Stuck).
Arguments Return {A} a.
Arguments Throw {A} e.
Arguments Hang {A} why.

(* ------------------------------------------------------------------ *)
(** * UniqueFunction (uniquefunction.hpp) *)

Module uniquefunction_details.

Definition s_TinyStorageMaxCapacity : nat := 32.

(** [union Storage]: raw bytes, which the dispatch table in use reads as an
    inline object ([m_tiny]) or as a pointer to one ([m_big]).  The union
    has no discriminant of its own, so the model keeps the object only.
    [unset] stands for bytes holding no live object: never written, or
    left behind by a move. *)
Inductive Storage (C : Type) : Type :=
  | unset
  | holds (c : C).
Arguments unset {C}.
Arguments holds {C} c.

(** What [UniqueFunction] needs of the closure types it erases: the size
    (for [IsSmall]), the call operator (which may change the closure's own
    captures, and the program state [S]), and the destructor (which throws
    nothing, but may fail to come back). *)
Class ClosureOps (C Arg R S : Type) : Type := {
    sizeof : C -> nat;
    call : C -> Arg -> S -> Result R * C * S;
    destructor : C -> S -> Result unit * S
  }.

Section Vtable.
Context {C Arg R S : Type} `{ClosureOps C Arg R S}.

(** [IsSmall<T>]: [sizeof (T) <= sizeof (Storage::m_tiny)]. *)
Definition IsSmall (c : C) : bool := sizeof c <=? s_TinyStorageMaxCapacity.

(** [struct Vtable]: three function pointers. [m_movePtr dst src] gives
    the two storages back. *)
Record Vtable : Type := {
    m_invokePtr : Storage C -> Arg -> S -> Result R * Storage C * S;
    m_movePtr : Storage C -> Storage C -> Storage C * Storage C;
    m_destructPtr : Storage C -> S -> Result unit * Storage C * S
  }.

(** [constexpr Vtable()]: invoking throws, moving and destroying do
    nothing. *)
Definition Vtable_empty : Vtable := {|
    m_invokePtr := fun storage _ s => (Throw bad_function_call, storage, s);
    m_movePtr := fun dst src => (dst, src);
    m_destructPtr := fun storage s => (Return tt, storage, s)
  |}.

(** [Vtable(Wrapper<C>, BigTag)] and [Vtable(Wrapper<C>, SmallTag)]: the
    object is reached through [m_big] or found in [m_tiny]; on the object
    itself the two tables do the same (allocations are not counted).  On a
    storage without an object they read what is not there: invoking and
    destroying say so, moving moves nothing; [UniqueFunction_wf_kept] below
    shows that no member gets there. *)
Definition Vtable_closure (small : bool) : Vtable := {|
    m_invokePtr := fun storage arg s =>
      match storage with
      | holds c => let '(r, c', s') := call c arg s in (r, holds c', s')
      | unset => (Hang undefined_behaviour, storage, s)
      end;
    m_movePtr := fun dst src =>
      match src with
      | holds c => (holds c, unset)
      | unset => (dst, src)
      end;
    m_destructPtr := fun storage s =>
      match storage with
      | holds c => let '(r, s') := destructor c s in (r, unset, s')
      | unset => (Hang undefined_behaviour, storage, s)
      end
  |}.

(** The address of a dispatch table: of [EmptyVtable<R, Arg...>], or of
    [UniqueFunctionVtable<F, R, Arg...>] for a small or a big [F]. *)
Inductive VtablePtr : Type :=
  | EmptyVtable
  | UniqueFunctionVtable (small : bool).

Definition deref (p : VtablePtr) : Vtable :=
  match p with
  | EmptyVtable => Vtable_empty
  | UniqueFunctionVtable small => Vtable_closure small
  end.

Definition VtablePtr_eqb (p q : VtablePtr) : bool :=
  match p, q with
  | EmptyVtable, EmptyVtable => true
  | UniqueFunctionVtable a, UniqueFunctionVtable b => Bool.eqb a b
  | _, _ => false
  end.

End Vtable.
Arguments Vtable : clear implicits.
Arguments VtablePtr : clear implicits.

End uniquefunction_details.
Import uniquefunction_details.

Section UniqueFunction.
Context {C Arg R S : Type} `{ClosureOps C Arg R S}.

(** [class UniqueFunction<R(Arg...)>]. *)
Record UniqueFunction : Type := {
    m_vtablePtr : VtablePtr;
    m_storage : Storage C
  }.

(** [UniqueFunction() noexcept]. *)
Definition UniqueFunction_default : UniqueFunction :=
  {| m_vtablePtr := EmptyVtable; m_storage := unset |}.

(** [UniqueFunction(F&& closure)]: both branches of the [if constexpr]
    build the closure in the storage. *)
Definition UniqueFunction_closure (closure : C) : UniqueFunction :=
  {| m_vtablePtr := UniqueFunctionVtable (IsSmall closure);
     m_storage := if IsSmall closure then holds closure else holds closure |}.

(** [constexpr UniqueFunction(std::nullptr_t)]. *)
Definition UniqueFunction_nullptr : UniqueFunction :=
  {| m_vtablePtr := EmptyVtable; m_storage := unset |}.

(** [operator=(std::nullptr_t)]. *)
Definition UniqueFunction_assign_nullptr (this : UniqueFunction) (s : S)
  : Result unit * UniqueFunction * S :=
  let '(r, storage, s') :=
    m_destructPtr (deref (m_vtablePtr this)) (m_storage this) s in
  (r, {| m_vtablePtr := EmptyVtable; m_storage := storage |}, s').

(** [UniqueFunction(UniqueFunction&& other)]: the new object, and what is
    left of [other]. *)
Definition UniqueFunction_move (other : UniqueFunction)
  : UniqueFunction * UniqueFunction :=
  let vtablePtr := m_vtablePtr other in
  let '(dst, src) := m_movePtr (deref vtablePtr) unset (m_storage other) in
  ({| m_vtablePtr := vtablePtr; m_storage := dst |},
   {| m_vtablePtr := EmptyVtable; m_storage := src |}).

(** [operator=(UniqueFunction&& other)], for [this != &other]. *)
Definition UniqueFunction_move_assign (this other : UniqueFunction) (s : S)
  : Result unit * UniqueFunction * UniqueFunction * S :=
  let '(r, storage, s') :=
    m_destructPtr (deref (m_vtablePtr this)) (m_storage this) s in
  let vtablePtr := m_vtablePtr other in
  let '(dst, src) := m_movePtr (deref vtablePtr) storage (m_storage other) in
  (r, {| m_vtablePtr := vtablePtr; m_storage := dst |},
   {| m_vtablePtr := EmptyVtable; m_storage := src |}, s').

(** [R operator()(Arg... arg) const]; [m_storage] is [mutable]. *)
Definition UniqueFunction_call (this : UniqueFunction) (arg : Arg) (s : S)
  : Result R * UniqueFunction * S :=
  let '(r, storage, s') :=
    m_invokePtr (deref (m_vtablePtr this)) (m_storage this) arg s in
  (r, {| m_vtablePtr := m_vtablePtr this; m_storage := storage |}, s').

(** [explicit operator bool() const noexcept]. *)
Definition UniqueFunction_bool (this : UniqueFunction) : bool :=
  negb (VtablePtr_eqb (m_vtablePtr this) EmptyVtable).

(** [operator==(std::nullptr_t)] and [operator!=(std::nullptr_t)]. *)
Definition UniqueFunction_eq_nullptr (this : UniqueFunction) : bool :=
  negb (UniqueFunction_bool this).
Definition UniqueFunction_ne_nullptr (this : UniqueFunction) : bool :=
  UniqueFunction_bool this.

(** [void swap(UniqueFunction& other)], for [this != &other]: three moves
    through a temporary storage, then the table pointers are exchanged. *)
Definition UniqueFunction_swap (this other : UniqueFunction)
  : UniqueFunction * UniqueFunction :=
  let tmp : Storage C := unset in
  let '(tmp, this_storage) :=
    m_movePtr (deref (m_vtablePtr this)) tmp (m_storage this) in
  let '(this_storage, other_storage) :=
    m_movePtr (deref (m_vtablePtr other)) this_storage (m_storage other) in
  let '(other_storage, tmp) :=
    m_movePtr (deref (m_vtablePtr this)) other_storage tmp in
  ({| m_vtablePtr := m_vtablePtr other; m_storage := this_storage |},
   {| m_vtablePtr := m_vtablePtr this; m_storage := other_storage |}).

(** [~UniqueFunction()]. *)
Definition UniqueFunction_destroy (this : UniqueFunction) (s : S)
  : Result unit * S :=
  let '(r, _, s') :=
    m_destructPtr (deref (m_vtablePtr this)) (m_storage this) s in
  (r, s').

(** An instance is well formed when a table other than the empty one finds
    an object in the storage. *)
Definition UniqueFunction_wf (this : UniqueFunction) : Prop :=
  m_vtablePtr this <> EmptyVtable -> m_storage this <> unset.

(** The closure an instance holds, if any. *)
Definition target (this : UniqueFunction) : option C :=
  match m_vtablePtr this, m_storage this with
  | UniqueFunctionVtable _, holds c => Some c
  | _, _ => None
  end.

(** Calling an instance once per argument of a list, whatever each call
    does, and the same on the closure itself. *)
Fixpoint call_each (this : UniqueFunction) (args : list Arg) (s : S)
  : list (Result R) * UniqueFunction * S :=
  match args with
  | [] => ([], this, s)
  | arg :: rest =>
      let '(r, this', s') := UniqueFunction_call this arg s in
      let '(rs, this'', s'') := call_each this' rest s' in
      (r :: rs, this'', s'')
  end.

Fixpoint closure_each (c : C) (args : list Arg) (s : S)
  : list (Result R) * C * S :=
  match args with
  | [] => ([], c, s)
  | arg :: rest =>
      let '(r, c', s') := call c arg s in
      let '(rs, c'', s'') := closure_each c' rest s' in
      (r :: rs, c'', s'')
  end.

End UniqueFunction.
Arguments UniqueFunction : clear implicits.

Section UniqueFunction_nullptr_operators.
Context {C Arg R S : Type} `{ClosureOps C Arg R S}.

(** The free [operator==(std::nullptr_t, const UniqueFunction&)] and
    [operator!=(std::nullptr_t, const UniqueFunction&)]. *)
Definition nullptr_eq (f : UniqueFunction C) : bool :=
  UniqueFunction_eq_nullptr f.
Definition nullptr_ne (f : UniqueFunction C) : bool :=
  UniqueFunction_ne_nullptr f.

(** What destroying the closure an instance holds does to the program
    state: the closure's destructor, and nothing when there is none. *)
Definition destroys (this : UniqueFunction C) (s : S) : Result unit * S :=
  match target this with
  | Some c => destructor c s
  | None => (Return tt, s)
  end.

End UniqueFunction_nullptr_operators.

(** The closure of [testMove], [testSwap] and [testDestructorCall],
    [[sp]() { return *sp; }]: it holds a copy of a [std::shared_ptr<int>],
    here the [int] pointed to, and takes 16 bytes.  The program state is the
    pointer's use count, which the destructor of the closure lowers by
    one. *)
Definition shared_int_ops : ClosureOps nat unit nat nat := {|
    sizeof := fun _ => 16;
    call := fun sp _ use_count => (Return sp, sp, use_count);
    destructor := fun _ use_count => (Return tt, use_count - 1)
  |}.

(** ** The free store

    The table of a big closure reaches its object through [m_big], a pointer
    to a block that a new-expression made.  The members above keep the
    object and leave the blocks out; here the blocks are counted, member by
    member: how often a new-expression and a delete-expression have run. *)
Record FreeStore : Type := {
    news : nat;
    deletes : nat
  }.

Definition operator_new (m : FreeStore) : FreeStore :=
  {| news := S (news m); deletes := deletes m |}.
Definition operator_delete (m : FreeStore) : FreeStore :=
  {| news := news m; deletes := S (deletes m) |}.

Section FreeStore.
Context {C Arg R S : Type} `{ClosureOps C Arg R S}.

(** What [m_movePtr] and [m_destructPtr] of a table do to the free store.
    Of [Vtable(Wrapper<C>, BigTag)]: [m_movePtr] makes a block with [new]
    for an object move-constructed from the source and deletes nothing,
    [m_destructPtr] runs [delete].  The table of a small closure builds and
    destroys in place, and the empty table does nothing. *)
Definition movePtr_store (p : VtablePtr) (m : FreeStore) : FreeStore :=
  match p with
  | UniqueFunctionVtable false => operator_new m
  | _ => m
  end.

Definition destructPtr_store (p : VtablePtr) (m : FreeStore) : FreeStore :=
  match p with
  | UniqueFunctionVtable false => operator_delete m
  | _ => m
  end.

(** The members, by the calls they make through the tables, in the order
    they make them; the constructor from a closure runs [new] itself when
    the closure is big. *)
Definition UniqueFunction_closure_store (closure : C) (m : FreeStore)
  : FreeStore :=
  if IsSmall closure then m else operator_new m.

Definition UniqueFunction_assign_nullptr_store (this : UniqueFunction C)
  (m : FreeStore) : FreeStore :=
  destructPtr_store (m_vtablePtr this) m.

Definition UniqueFunction_move_store (other : UniqueFunction C)
  (m : FreeStore) : FreeStore :=
  movePtr_store (m_vtablePtr other) m.

Definition UniqueFunction_move_assign_store (this other : UniqueFunction C)
  (m : FreeStore) : FreeStore :=
  movePtr_store (m_vtablePtr other) (destructPtr_store (m_vtablePtr this) m).

Definition UniqueFunction_swap_store (this other : UniqueFunction C)
  (m : FreeStore) : FreeStore :=
  let m := movePtr_store (m_vtablePtr this) m in
  let m := movePtr_store (m_vtablePtr other) m in
  movePtr_store (m_vtablePtr this) m.

Definition UniqueFunction_destroy_store (this : UniqueFunction C)
  (m : FreeStore) : FreeStore :=
  destructPtr_store (m_vtablePtr this) m.

(** The blocks an instance points to: one when it has the table of a big
    closure, none otherwise. *)
Definition owns_block (this : UniqueFunction C) : nat :=
  match m_vtablePtr this with
  | UniqueFunctionVtable false => 1
  | _ => 0
  end.

End FreeStore.

(* ------------------------------------------------------------------ *)
(** * The shared state and its handles (future.hpp) *)

(** [std::shared_ptr<SharedState<T>>]: null, or the index of a cell of the
    heap.  Reference counts are not kept: a cell is never freed. *)
Definition shared_ptr : Type := option nat.

(** [class Promise], [class Future], [class SharedFuture]: each has the one
    member [m_statePtr]. *)
Record Promise : Type := { Promise_statePtr : shared_ptr }.
Record Future : Type := { Future_statePtr : shared_ptr }.
Record SharedFuture : Type := { SharedFuture_statePtr : shared_ptr }.

Section SharedState.
(** The result type of the primary templates. *)
Variable T : Type.

(** A function object given to [Future::then].  It receives a [Future]
    over the cell the continuation was attached to; [callable_body] maps
    what [get()] on that [Future] does to what the call does, so a body
    that ignores its argument is a function object that never calls
    [get()].  [callable_tag] names it in the trace of invocations. *)
Record Callable : Type := {
    callable_tag : nat;
    callable_body : Result T -> Result T
  }.

(** The closures a [UniqueFunction<void()>] of this program holds: one
    supplied by a caller of [SharedState::setContinuation] (named by a tag,
    with its size, and an exception if it throws one), or the lambda of
    [Future::then] with its three captures. *)
Inductive Closure : Type :=
  | UserClosure (tag size : nat) (exc : exception_ptr)
  | ThenClosure (state : shared_ptr) (p : Promise) (f : Callable).

(** [class SharedState<Result>], without the mutex and the condition
    variable.  [SharedState<void>] is the same without [m_result]; a cell
    used through the [void] members below keeps [m_result] empty. *)
Record SharedState : Type := {
    m_done : bool;
    m_retrieved : bool;
    m_result : option T;
    m_then : UniqueFunction Closure;
    m_exception : exception_ptr
  }.

(** [SharedState() = default]. *)
Definition SharedState_default : SharedState := {|
    m_done := false;
    m_retrieved := false;
    m_result := None;
    m_then := UniqueFunction_default;
    m_exception := None
  |}.

Definition set_m_done (s : SharedState) (b : bool) : SharedState :=
  {| m_done := b; m_retrieved := m_retrieved s; m_result := m_result s;
     m_then := m_then s; m_exception := m_exception s |}.
Definition set_m_retrieved (s : SharedState) (b : bool) : SharedState :=
  {| m_done := m_done s; m_retrieved := b; m_result := m_result s;
     m_then := m_then s; m_exception := m_exception s |}.
Definition set_m_result (s : SharedState) (r : option T) : SharedState :=
  {| m_done := m_done s; m_retrieved := m_retrieved s; m_result := r;
     m_then := m_then s; m_exception := m_exception s |}.
Definition set_m_then (s : SharedState) (f : UniqueFunction Closure)
  : SharedState :=
  {| m_done := m_done s; m_retrieved := m_retrieved s;
     m_result := m_result s; m_then := f; m_exception := m_exception s |}.
Definition set_m_exception (s : SharedState) (e : exception_ptr)
  : SharedState :=
  {| m_done := m_done s; m_retrieved := m_retrieved s;
     m_result := m_result s; m_then := m_then s; m_exception := e |}.

(** The program state: the cells, and the tags of the closures and function
    objects invoked so far, oldest first. *)
Record World : Type := {
    heap : list SharedState;
    trace : list nat
  }.

Definition World_empty : World := {| heap := []; trace := [] |}.

(** ** Computations on the world *)

Definition M (A : Type) : Type := World -> Result A * World.

Definition ret {A : Type} (a : A) : M A := fun w => (Return a, w).
Definition throw {A : Type} (e : Exception) : M A := fun w => (Throw e, w).
Definition hang {A : Type} (why : Stuck) : M A := fun w => (Hang why, w).

Definition bind {A B : Type} (m : M A) (k : A -> M B) : M B :=
  fun w =>
    match m w with
    | (Return a, w') => k a w'
    | (Throw e, w') => (Throw e, w')
    | (Hang why, w') => (Hang why, w')
    end.

(** [try { m } catch (...) { handler(std::current_exception()) }]. *)
Definition try_catch {A : Type} (m : M A) (handler : Exception -> M A)
  : M A :=
  fun w =>
    match m w with
    | (Throw e, w') => handler e w'
    | other => other
    end.

(** Dereferencing a pointer to a cell, and storing through it. *)
Definition load (this : nat) : M SharedState :=
  fun w =>
    match heap w !! this with
    | Some s => (Return s, w)
    | None => (Hang undefined_behaviour, w)
    end.

Definition store (this : nat) (s : SharedState) : M unit :=
  fun w => (Return tt, {| heap := <[this := s]> (heap w); trace := trace w |}).

(** [std::make_shared<SharedState<T>>()]. *)
Definition make_shared : M nat :=
  fun w =>
    (Return (length (heap w)),
     {| heap := heap w ++ [SharedState_default]; trace := trace w |}).

(** An invocation leaves its tag in the trace. *)
Definition record (tag : nat) : M unit :=
  fun w => (Return tt, {| heap := heap w; trace := trace w ++ [tag] |}).

End SharedState.
Arguments UserClosure {T} tag size exc.
Arguments ThenClosure {T} state p f.
Arguments World_empty {T}.
Arguments SharedState_default {T}.

Declare Scope world_scope.
Delimit Scope world_scope with world.
Notation "'let*' x ':=' m 'in' k" := (bind m (fun x => k))
  (at level 10, x name, m at level 100, k at level 200) : world_scope.
Notation "'run' m 'in' k" := (bind m (fun _ => k))
  (at level 10, m at level 100, k at level 200) : world_scope.
Open Scope world_scope.

Section Operations.
Variable T : Type.

Local Abbreviation Closure := (Closure T).
Local Abbreviation SharedState := (SharedState T).
Local Abbreviation World := (World T).
Local Abbreviation M := (M T).

(** The members below call and destroy closures through [UniqueFunction];
    what a closure does when called or destroyed is given by [ops], which
    [closure_ops] further down ties to these very members. *)
Variable ops : ClosureOps Closure unit unit World.
Local Existing Instance ops.

(** The end of a scope that owns the callable [f]: [if (invoke) f();]
    followed by [f]'s destructor, which also runs when the call throws. *)
Definition call_and_destroy (invoke : bool) (f : UniqueFunction Closure)
  : M unit :=
  fun w =>
    let '(r, f', w') :=
      if invoke then UniqueFunction_call f tt w else (Return tt, f, w) in
    match r with
    | Hang why => (Hang why, w')
    | _ =>
        match UniqueFunction_destroy f' w' with
        | (Return _, w'') => (r, w'')
        | other => other
        end
    end.

(** ** SharedState<Result> *)

(** [checkState]. *)
Definition checkState (this : nat) : M unit :=
  let* s := load this in
  if m_done s then throw (FutureError promise_already_satisfied)
  else ret tt.

(** [setStateDoneAndNotify]: [notify_all] wakes nobody here. *)
Definition setStateDoneAndNotify (this : nat) : M unit :=
  let then_ : UniqueFunction Closure := UniqueFunction_default in
  let* s := load this in
  let '(then_, then_of_s) := UniqueFunction_swap then_ (m_then s) in
  run store this (set_m_then (set_m_done s true) then_of_s) in
  call_and_destroy (UniqueFunction_bool then_) then_.

(** [setValue]. *)
Definition setValue (this : nat) (result : T) : M unit :=
  run checkState this in
  let* s := load this in
  run store this (set_m_result s (Some result)) in
  setStateDoneAndNotify this.

(** [setException]. *)
Definition setException (this : nat) (exc : exception_ptr) : M unit :=
  run checkState this in
  let* s := load this in
  run store this (set_m_exception s exc) in
  setStateDoneAndNotify this.

(** [setContinuation]: the parameter is a [UniqueFunction] of its own,
    swapped with [m_then] or called, and destroyed on the way out. *)
Definition setContinuation (this : nat) (continuation : UniqueFunction Closure)
  : M unit :=
  let* s := load this in
  let done := m_done s in
  let '(then_of_s, continuation) :=
    if negb done then UniqueFunction_swap (m_then s) continuation
    else (m_then s, continuation) in
  run store this (set_m_then s then_of_s) in
  call_and_destroy (done && UniqueFunction_bool continuation) continuation.

(** [resetContinuation]. *)
Definition resetContinuation (this : nat) : M unit :=
  let continuation : UniqueFunction Closure := UniqueFunction_default in
  let* s := load this in
  let '(then_of_s, continuation) :=
    UniqueFunction_swap (m_then s) continuation in
  run store this (set_m_then s then_of_s) in
  call_and_destroy false continuation.

(** [setAndThrowIfRetrieved]: [test_and_set] sets the flag and gives its
    value from before. *)
Definition setAndThrowIfRetrieved (this : nat) : M unit :=
  let* s := load this in
  run store this (set_m_retrieved s true) in
  if m_retrieved s then throw (FutureError future_already_retrieved)
  else ret tt.

(** [wait]: the predicate of [m_cv.wait] is [m_done]. *)
Definition wait (this : nat) : M unit :=
  let* s := load this in
  if m_done s then ret tt else hang blocks_forever.

(** [getValue]. *)
Definition getValue (this : nat) : M T :=
  run wait this in
  let* s := load this in
  match m_exception s with
  | Some e => throw e
  | None =>
      match m_result s with
      | Some v => ret v
      | None => throw bad_optional_access
      end
  end.

(** ** SharedState<void>: the members that differ *)

Definition setValue_void (this : nat) : M unit :=
  run checkState this in
  setStateDoneAndNotify this.

Definition getValue_void (this : nat) : M unit :=
  run wait this in
  let* s := load this in
  match m_exception s with
  | Some e => throw e
  | None => ret tt
  end.

(** ** Promise *)

(** [Promise()]. *)
Definition Promise_new : M Promise :=
  let* statePtr := @make_shared T in
  ret {| Promise_statePtr := Some statePtr |}.

(** [~Promise()]. *)
Definition Promise_destroy (this : Promise) : M unit :=
  match Promise_statePtr this with
  | Some statePtr => resetContinuation statePtr
  | None => ret tt
  end.

(** [Promise::setValue]. *)
Definition Promise_setValue (this : Promise) (value : T) : M unit :=
  match Promise_statePtr this with
  | None => throw (FutureError no_state)
  | Some statePtr => setValue statePtr value
  end.

(** [Promise<void>::setValue]. *)
Definition Promise_setValue_void (this : Promise) : M unit :=
  match Promise_statePtr this with
  | None => throw (FutureError no_state)
  | Some statePtr => setValue_void statePtr
  end.

(** [Promise::getFuture]. *)
Definition Promise_getFuture (this : Promise) : M Future :=
  match Promise_statePtr this with
  | None => throw (FutureError no_state)
  | Some statePtr =>
      run setAndThrowIfRetrieved statePtr in
      ret {| Future_statePtr := Promise_statePtr this |}
  end.

(** [Promise::setException]. *)
Definition Promise_setException (this : Promise) (exc : exception_ptr)
  : M unit :=
  match Promise_statePtr this with
  | None => throw (FutureError no_state)
  | Some statePtr => setException statePtr exc
  end.

(** [Promise(Promise&&) = default]: the new handle, and the one moved
    from. *)
Definition Promise_move (other : Promise) : Promise * Promise :=
  (other, {| Promise_statePtr := None |}).

End Operations.

Section Handles.
Variable T : Type.

Local Abbreviation Closure := (Closure T).
Local Abbreviation Callable := (Callable T).
Local Abbreviation World := (World T).
Local Abbreviation M := (M T).

(** ** Future: a member gives its result, the handle as the call leaves it,
    and the world. *)

(** [Future::get]: the pointer is moved out before [getValue] runs. *)
Definition Future_get (this : Future) (w : World) : Result T * Future * World :=
  match Future_statePtr this with
  | None => (Throw (FutureError no_state), this, w)
  | Some statePtr =>
      let '(r, w') := getValue statePtr w in
      (r, {| Future_statePtr := None |}, w')
  end.

(** [Future<void>::get]. *)
Definition Future_get_void (this : Future) (w : World)
  : Result unit * Future * World :=
  match Future_statePtr this with
  | None => (Throw (FutureError no_state), this, w)
  | Some statePtr =>
      let '(r, w') := getValue_void statePtr w in
      (r, {| Future_statePtr := None |}, w')
  end.

(** [Future::wait]. *)
Definition Future_wait (this : Future) (w : World)
  : Result unit * Future * World :=
  match Future_statePtr this with
  | None => (Throw (FutureError no_state), this, w)
  | Some statePtr => let '(r, w') := wait statePtr w in (r, this, w')
  end.

(** [Future::valid]. *)
Definition Future_valid (this : Future) : bool :=
  match Future_statePtr this with
  | None => false
  | Some _ => true
  end.

(** [Future::share]: the new [SharedFuture], and the handle moved from. *)
Definition Future_share (this : Future) : SharedFuture * Future :=
  ({| SharedFuture_statePtr := Future_statePtr this |},
   {| Future_statePtr := None |}).

(** [Future()]. *)
Definition Future_default : Future := {| Future_statePtr := None |}.

(** ** SharedFuture *)

(** [SharedFuture()], and [SharedFuture(Future<T>&& other)]. *)
Definition SharedFuture_default : SharedFuture :=
  {| SharedFuture_statePtr := None |}.

Definition SharedFuture_of_Future (other : Future) : SharedFuture * Future :=
  Future_share other.

(** [SharedFuture::get]. *)
Definition SharedFuture_get (this : SharedFuture) : M T :=
  match SharedFuture_statePtr this with
  | None => throw (FutureError no_state)
  | Some statePtr => getValue statePtr
  end.

(** [SharedFuture<void>::get]. *)
Definition SharedFuture_get_void (this : SharedFuture) : M unit :=
  match SharedFuture_statePtr this with
  | None => throw (FutureError no_state)
  | Some statePtr => getValue_void statePtr
  end.

(** [SharedFuture::wait]. *)
Definition SharedFuture_wait (this : SharedFuture) : M unit :=
  match SharedFuture_statePtr this with
  | None => throw (FutureError no_state)
  | Some statePtr => wait statePtr
  end.

(** [SharedFuture::valid]. *)
Definition SharedFuture_valid (this : SharedFuture) : bool :=
  match SharedFuture_statePtr this with
  | None => false
  | Some _ => true
  end.

(** ** Closures *)

(** Calling a function object [f] on a [Future]: the call is recorded, and
    the body decides from what [get()] on the [Future] does. *)
Definition Callable_call (f : Callable) (future : Future) : M T :=
  fun w =>
    let '(got, _, _) := Future_get future w in
    (callable_body f got,
     {| heap := heap w; trace := trace w ++ [callable_tag f] |}).

(** The size of a closure object: a caller's closure says its own; the
    lambda of [then] holds a [shared_ptr] and a [Promise] of 16 bytes each
    and a function object of 8 (LP64). *)
Definition closure_size (c : Closure) : nat :=
  match c with
  | UserClosure _ size _ => size
  | ThenClosure _ _ _ => 16 + 16 + 8
  end.

Section Closure.
(** The closures one level further down the chain. *)
Variable ops : ClosureOps Closure unit unit World.
Local Existing Instance ops.

(** The body of the lambda of [Future::then], which is [mutable]: [state] is
    moved into the [Future] the function object receives, so the closure keeps
    a null pointer afterwards. *)
Definition ThenClosure_call (state : shared_ptr) (p : Promise) (f : Callable)
  (w : World) : Result unit * Closure * World :=
  let futureContinuation := {| Future_statePtr := state |} in
  let state : shared_ptr := None in
  let '(r, w') :=
    try_catch
      (let* value := Callable_call f futureContinuation in
       Promise_setValue ops p value)
      (fun e => Promise_setException ops p (Some e)) w in
  (r, ThenClosure state p f, w').

(** [operator()] of a closure. *)
Definition Closure_call (c : Closure) (w : World)
  : Result unit * Closure * World :=
  match c with
  | UserClosure tag _ exc =>
      let '(r, w') :=
        (run record tag in
         match exc with
         | Some e => throw e
         | None => ret tt
         end) w in
      (r, c, w')
  | ThenClosure state p f => ThenClosure_call state p f w
  end.

(** The destructor of a closure: of the lambda of [then], the captures in
    reverse order, of which only the [Promise] does something. *)
Definition Closure_destroy (c : Closure) : M unit :=
  match c with
  | UserClosure _ _ _ => ret tt
  | ThenClosure _ p _ => Promise_destroy ops p
  end.

End Closure.

(** A chain of continuations is followed [fuel] closures deep: calling or
    destroying a closure takes one unit, and the closures it reaches get the
    rest. *)
Fixpoint closure_call (fuel : nat) (c : Closure) (w : World)
  : Result unit * Closure * World :=
  match fuel with
  | 0 => (Hang out_of_fuel, c, w)
  | S fuel' =>
      Closure_call
        {| sizeof := closure_size;
           call := fun c' _ w' => closure_call fuel' c' w';
           destructor := fun c' w' => closure_destroy fuel' c' w' |} c w
  end
with closure_destroy (fuel : nat) (c : Closure) (w : World)
  : Result unit * World :=
  match fuel with
  | 0 => (Hang out_of_fuel, w)
  | S fuel' =>
      Closure_destroy
        {| sizeof := closure_size;
           call := fun c' _ w' => closure_call fuel' c' w';
           destructor := fun c' w' => closure_destroy fuel' c' w' |} c w
  end.

(** What [UniqueFunction<void()>] is given for its closures. *)
Definition closure_ops (fuel : nat) : ClosureOps Closure unit unit World :=
  {| sizeof := closure_size;
     call := fun c _ w => closure_call fuel c w;
     destructor := fun c w => closure_destroy fuel c w |}.

(** [Future::then]. *)
Definition Future_then (fuel : nat) (this : Future) (f : Callable) (w : World)
  : Result Future * Future * World :=
  let ops := closure_ops fuel in
  match Future_statePtr this with
  | None => (Throw (FutureError no_state), this, w)
  | Some statePtr =>
      match Promise_new w with
      | (Return promise, w1) =>
          match Promise_getFuture promise w1 with
          | (Return future, w2) =>
              let '(p, promise) := Promise_move promise in
              let continuation : UniqueFunction Closure :=
                UniqueFunction_closure
                  (ThenClosure (Future_statePtr this) p f) in
              let this := {| Future_statePtr := None |} in
              let '(argument, continuation) :=
                UniqueFunction_move continuation in
              let '(r, w3) :=
                (run setContinuation ops statePtr argument in
                 run UniqueFunction_destroy continuation in
                 Promise_destroy ops promise) w2 in
              (match r with
               | Return _ => Return future
               | Throw e => Throw e
               | Hang why => Hang why
               end, this, w3)
          | (Throw e, w2) =>
              let '(_, w3) := Promise_destroy ops promise w2 in
              (Throw e, this, w3)
          | (Hang why, w2) => (Hang why, this, w2)
          end
      | (Throw e, w1) => (Throw e, this, w1)
      | (Hang why, w1) => (Hang why, this, w1)
      end
  end.

End Handles.
Arguments closure_ops {T} fuel.
Arguments closure_call {T} fuel c w.
Arguments closure_destroy {T} fuel c w.
Arguments Promise_new {T}.

(* ------------------------------------------------------------------ *)
(** * Programs: sequences of calls *)

Section Programs.
Variable T : Type.

Local Abbreviation Closure := (Closure T).
Local Abbreviation Callable := (Callable T).
Local Abbreviation SharedState := (SharedState T).
Local Abbreviation World := (World T).

(** What a caller passes where a [UniqueFunction<void()>] is expected:
    nothing ([nullptr], [{}]), or a closure. *)
Definition UniqueFunction_of (ops : ClosureOps Closure unit unit World)
  (c : option Closure) : UniqueFunction Closure :=
  match c with
  | None => UniqueFunction_default
  | Some closure => UniqueFunction_closure closure
  end.

(** One call of a program.  The calls on a [Promise] or [SharedFuture] that
    holds a cell are calls on the cell; [Promise()] is [make_shared];
    [~Promise()] is [resetContinuation]. *)
Inductive Op : Type :=
| op_make_shared
| op_setValue (this : nat) (result : T)
| op_setValue_void (this : nat)
| op_setException (this : nat) (exc : exception_ptr)
| op_setContinuation (this : nat) (continuation : option Closure)
| op_resetContinuation (this : nat)
| op_setAndThrowIfRetrieved (this : nat)
| op_getValue (this : nat)
| op_getValue_void (this : nat)
| op_wait (this : nat)
| op_then (this : Future) (f : Callable).

(** The exception a call throws, if it throws. *)
Definition thrown {A : Type} (r : Result A) : option Exception :=
  match r with
  | Throw e => Some e
  | _ => None
  end.

(** A call, with [fuel] for the closures it sets off: what it throws, and
    the world it leaves. *)
Definition call_op (fuel : nat) (o : Op) (w : World)
  : option Exception * World :=
  let ops := closure_ops fuel in
  match o with
  | op_make_shared => let '(r, w') := @make_shared T w in (thrown r, w')
  | op_setValue this result =>
      let '(r, w') := setValue ops this result w in (thrown r, w')
  | op_setValue_void this =>
      let '(r, w') := setValue_void ops this w in (thrown r, w')
  | op_setException this exc =>
      let '(r, w') := setException ops this exc w in (thrown r, w')
  | op_setContinuation this continuation =>
      let '(r, w') :=
        setContinuation ops this (UniqueFunction_of ops continuation) w in
      (thrown r, w')
  | op_resetContinuation this =>
      let '(r, w') := resetContinuation ops this w in (thrown r, w')
  | op_setAndThrowIfRetrieved this =>
      let '(r, w') := setAndThrowIfRetrieved this w in (thrown r, w')
  | op_getValue this => let '(r, w') := getValue this w in (thrown r, w')
  | op_getValue_void this =>
      let '(r, w') := getValue_void this w in (thrown r, w')
  | op_wait this => let '(r, w') := wait this w in (thrown r, w')
  | op_then this f =>
      let '(r, _, w') := Future_then fuel this f w in (thrown r, w')
  end.

Definition exec (fuel : nat) (o : Op) (w : World) : World :=
  snd (call_op fuel o w).

(** A program is a list of calls, each with its fuel; whatever a call throws
    is caught by the caller, who goes on. *)
Fixpoint exec_all (program : list (nat * Op)) (w : World) : World :=
  match program with
  | [] => w
  | (fuel, o) :: rest => exec_all rest (exec fuel o w)
  end.

(** The worlds a program can be in. *)
Definition reachable (w : World) : Prop :=
  exists program, w = exec_all program World_empty.

(** ** What the properties speak of *)

(** The tag a closure leaves in the trace when called. *)
Definition closure_tag (c : Closure) : nat :=
  match c with
  | UserClosure tag _ _ => tag
  | ThenClosure _ _ f => callable_tag f
  end.

(** How often [tag] was invoked. *)
Definition invocations (tag : nat) (w : World) : nat :=
  count_occ Nat.eq_dec (trace w) tag.

(** Whether a callable holds a closure with this tag, and whether the
    continuation a cell stores does. *)
Definition holds_tag (tag : nat) (f : UniqueFunction Closure) : bool :=
  match m_storage f with
  | holds c => closure_tag c =? tag
  | unset => false
  end.

Definition stores_tag (tag : nat) (s : SharedState) : bool :=
  holds_tag tag (m_then s).

(** How many cells store a continuation with this tag. *)
Definition pending_with_tag (tag : nat) (w : World) : nat :=
  length (filter (fun s => stores_tag tag s = true) (heap w)).

(** Whether a call attaches a continuation with this tag, and whether it
    completes the cell [this]. *)
Definition attaches (tag : nat) (o : Op) : bool :=
  match o with
  | op_setContinuation _ (Some c) => closure_tag c =? tag
  | op_then _ f => callable_tag f =? tag
  | _ => false
  end.

Definition completes (this : nat) (o : Op) : bool :=
  match o with
  | op_setValue cell _ => cell =? this
  | op_setValue_void cell => cell =? this
  | op_setException cell _ => cell =? this
  | _ => false
  end.

(** Whether a call takes the continuation that the cell [this] stores out
    of it, for nothing, or for a continuation that has not this tag. *)
Definition displaces (this tag : nat) (o : Op) : bool :=
  match o with
  | op_setContinuation cell None => cell =? this
  | op_setContinuation cell (Some c) =>
      (cell =? this) && negb (closure_tag c =? tag)
  | op_resetContinuation cell => cell =? this
  | _ => false
  end.

(** A program that attaches no continuation with this tag. *)
Definition never_attaches (tag : nat) (program : list (nat * Op)) : bool :=
  forallb (fun step => negb (attaches tag (snd step))) program.

(** A cell that is not completed holds no outcome yet. *)
Definition cell_consistent (s : SharedState) : Prop :=
  m_done s = false -> m_result s = None /\ m_exception s = None.

Definition consistent (w : World) : Prop :=
  forall this s, heap w !! this = Some s -> cell_consistent s.

(** What a completed cell keeps through every later call: that it is
    completed, and its outcome; a retrieved cell stays retrieved. *)
Definition cell_keeps (s s' : SharedState) : Prop :=
  (m_done s = true ->
   m_done s' = true /\ m_result s' = m_result s
   /\ m_exception s' = m_exception s)
  /\ (m_retrieved s = true -> m_retrieved s' = true).

(** [w'] is a later world of [w]: every cell is still there and keeps what
    [cell_keeps] says, and the trace has only grown. *)
Definition later (w w' : World) : Prop :=
  (forall this s, heap w !! this = Some s ->
     exists s', heap w' !! this = Some s' /\ cell_keeps s s')
  /\ (exists t, trace w' = trace w ++ t).

(** Does this exception come from the library's [broken_promise] code? *)
Definition is_broken_promise (e : Exception) : bool :=
  match e with
  | FutureError broken_promise => true
  | _ => false
  end.

Definition throws_broken_promise {A : Type} (r : Result A) : bool :=
  match r with
  | Throw e => is_broken_promise e
  | _ => false
  end.

(** No exception of the library's [broken_promise] code comes from the
    caller: a closure does not throw one, a function object does not turn
    something else into one, and no cell holds one. *)
Definition clean_exception_ptr (exc : exception_ptr) : Prop :=
  match exc with
  | Some e => is_broken_promise e = false
  | None => True
  end.

Definition clean_callable (f : Callable) : Prop :=
  forall got : Result T,
    throws_broken_promise got = false ->
    throws_broken_promise (callable_body f got) = false.

Definition clean_closure (c : Closure) : Prop :=
  match c with
  | UserClosure _ _ exc => clean_exception_ptr exc
  | ThenClosure _ _ f => clean_callable f
  end.

Definition clean_callable_object (f : UniqueFunction Closure) : Prop :=
  match m_storage f with
  | holds c => clean_closure c
  | unset => True
  end.

Definition clean_cell (s : SharedState) : Prop :=
  clean_exception_ptr (m_exception s) /\ clean_callable_object (m_then s).

Definition clean_world (w : World) : Prop :=
  forall this s, heap w !! this = Some s -> clean_cell s.

Definition clean_op (o : Op) : Prop :=
  match o with
  | op_setException _ exc => clean_exception_ptr exc
  | op_setContinuation _ (Some c) => clean_closure c
  | op_then _ f => clean_callable f
  | _ => True
  end.

(** What the destruction of closures does to the world: nothing is invoked,
    no outcome or flag changes, and a stored continuation stays or goes. *)
Definition cell_discards (s s' : SharedState) : Prop :=
  m_done s' = m_done s /\ m_retrieved s' = m_retrieved s
  /\ m_result s' = m_result s /\ m_exception s' = m_exception s
  /\ (m_then s' = m_then s \/ UniqueFunction_bool (m_then s') = false).

Definition discards (w w' : World) : Prop :=
  trace w' = trace w
  /\ length (heap w') = length (heap w)
  /\ forall this s, heap w !! this = Some s ->
       exists s', heap w' !! this = Some s' /\ cell_discards s s'.

(** ** The scenario of the chaining test

    [testFutureThenThen]: a new [Promise], its [Future], [then(g)] on it,
    [then(h)] on the result, [setValue(v)] on the promise, and [get()] on
    the last [Future]; what that [get()] does, and the world at the end. *)

(** A handle's member as a computation that gives the result together with
    the handle. *)
Definition with_handle {A Handle : Type}
  (member : World -> Result A * Handle * World) : M T (A * Handle) :=
  fun w =>
    let '(r, handle, w') := member w in
    (match r with
     | Return a => Return (a, handle)
     | Throw e => Throw e
     | Hang why => Hang why
     end, w').

Definition then_then (fuel : nat) (g h : Callable) (v : T) : M T T :=
  let* promise := Promise_new in
  let* future := Promise_getFuture promise in
  let* future_g := with_handle (Future_then fuel future g) in
  let* future_h := with_handle (Future_then fuel (fst future_g) h) in
  run Promise_setValue (closure_ops fuel) promise v in
  let* got := with_handle (Future_get (fst future_h)) in
  ret (fst got).

(** The function object that calls [get()] on the [Future] it receives and
    hands the value to [F], as [f] of the tests does with [future.get()*2];
    what [get()] throws passes through it. *)
Definition of_function (tag : nat) (F : T -> Result T) : Callable :=
  {| callable_tag := tag;
     callable_body := fun got =>
       match got with
       | Return value => F value
       | Throw e => Throw e
       | Hang why => Hang why
       end |}.

(** A result that is a return or a throw. *)
Definition comes_back {A : Type} (r : Result A) : Prop :=
  match r with
  | Hang _ => False
  | _ => True
  end.

End Programs.

Arguments op_make_shared {T}.
Arguments op_setValue {T} this result.
Arguments op_setValue_void {T} this.
Arguments op_setException {T} this exc.
Arguments op_setContinuation {T} this continuation.
Arguments op_resetContinuation {T} this.
Arguments op_setAndThrowIfRetrieved {T} this.
Arguments op_getValue {T} this.
Arguments op_getValue_void {T} this.
Arguments op_wait {T} this.
Arguments op_then {T} this f.

(** ** The states of a cell *)

Section Settled.
Variable T : Type.

(** What holds of every cell of a world a program can reach, besides
    [cell_consistent]: it never holds a value and an exception at once; when
    it is completed it stores no continuation; and its [m_then] is well
    formed. *)
Definition cell_settled (s : SharedState T) : Prop :=
  cell_consistent s
  /\ (m_result s = None \/ m_exception s = None)
  /\ (m_done s = true -> UniqueFunction_bool (m_then s) = false)
  /\ UniqueFunction_wf (m_then s).

Definition settled (w : World T) : Prop :=
  forall this s, heap w !! this = Some s -> cell_settled s.

End Settled.

(** ** Chains of any length *)

Section Chains.
Variable T : Type.

Local Abbreviation Closure := (Closure T).
Local Abbreviation Callable := (Callable T).
Local Abbreviation SharedState := (SharedState T).

(** [future.then(f1).then(f2)...], one [then] for each function object of
    the list: the [Future] of the last [then]. *)
Fixpoint then_all (fuel : nat) (fs : list Callable) (future : Future)
  : M T Future :=
  match fs with
  | [] => ret future
  | f :: rest =>
      let* next := with_handle (Future_then fuel future f) in
      then_all fuel rest (fst next)
  end.

(** Setting a promise to an outcome: [setValue] with a value, or
    [setException] with a captured exception. *)
Definition Promise_set (fuel : nat) (promise : Promise) (got : Result T)
  : M T unit :=
  match got with
  | Return value => Promise_setValue (closure_ops fuel) promise value
  | Throw e => Promise_setException (closure_ops fuel) promise (Some e)
  | Hang why => hang why
  end.

(** The scenario of [testFutureThenThen] with any number of [then]s, and
    with the promise set to a value or to an exception: what [get()] on the
    last [Future] does. *)
Definition chain_of_thens (fuel : nat) (fs : list Callable) (got : Result T)
  : M T T :=
  let* promise := Promise_new in
  let* future := Promise_getFuture promise in
  let* last := then_all fuel fs future in
  run Promise_set fuel promise got in
  let* got := with_handle (Future_get last) in
  ret (fst got).

(** What the function objects make of an outcome, each called on a [Future]
    that holds the outcome of the one before; and that each of them comes
    back. *)
Definition outcome_of (fs : list Callable) (got : Result T) : Result T :=
  fold_left (fun got f => callable_body f got) fs got.

Fixpoint all_come_back (fs : list Callable) (got : Result T) : Prop :=
  match fs with
  | [] => comes_back got
  | f :: rest => comes_back got /\ all_come_back rest (callable_body f got)
  end.

(** Completing a cell with an outcome, as the lambda of [then] does with the
    outcome of its function object. *)
Definition complete (fuel : nat) (this : nat) (got : Result T) : M T unit :=
  match got with
  | Return value => setValue (closure_ops fuel) this value
  | Throw e => setException (closure_ops fuel) this (Some e)
  | Hang why => hang why
  end.

(** The cells of a chain before the promise is set: each one retrieved, and
    storing the lambda that completes the next; and after: each one completed
    with its outcome. *)
Definition chain_cell (m : UniqueFunction Closure) : SharedState :=
  {| m_done := false; m_retrieved := true; m_result := None;
     m_then := m; m_exception := None |}.

Definition chain_link (this : nat) (f : Callable) : UniqueFunction Closure :=
  {| m_vtablePtr := UniqueFunctionVtable false;
     m_storage :=
       holds (ThenClosure (Some this)
                {| Promise_statePtr := Some (this + 1) |} f) |}.

Fixpoint chain_cells (this : nat) (fs : list Callable) : list SharedState :=
  match fs with
  | [] => [chain_cell UniqueFunction_default]
  | f :: rest => chain_cell (chain_link this f) :: chain_cells (S this) rest
  end.

Definition done_cell (got : Result T) : SharedState :=
  {| m_done := true; m_retrieved := true;
     m_result := match got with Return value => Some value | _ => None end;
     m_then := UniqueFunction_default;
     m_exception := match got with Throw e => Some e | _ => None end |}.

Fixpoint done_cells (got : Result T) (fs : list Callable)
  : list SharedState :=
  match fs with
  | [] => [done_cell got]
  | f :: rest => done_cell got :: done_cells (callable_body f got) rest
  end.

End Chains.

(* ------------------------------------------------------------------ *)
(** * Threads

    The members above run one at a time.  Here a member call is cut into the
    steps that other threads can come between, and the steps of different
    threads interleave in any order.

    What the code locks decides where it is cut.  [wait] and
    [resetContinuation] build a lock object,
    [std::unique_lock<std::mutex> lock(m_mutex);].  [setContinuation] and
    [setStateDoneAndNotify] write
    [auto _(std::unique_lock<std::mutex>(m_mutex));] and
    [auto _(std::lock_guard<std::mutex>(m_mutex));], which declare a function
    named [_] with a parameter named [m_mutex] and build no object: nothing
    is locked in them, and each of their statements is a step of its own.
    So are the read of [m_done] in [checkState] and the write of the
    outcome.  A statement is one step: what two [swap]s of the same
    [m_then] do when their moves interleave is not followed.

    In [wait] the lock is held from the [std::unique_lock] on.  The
    predicate of [m_cv.wait] is read under it, and a thread that read it as
    false lets go of the lock and sleeps in one step, until a [notify_all]
    wakes it; the code that sets [m_done] and notifies does not take the
    lock, so both can happen between the read and the sleep.  A thread that
    sleeps goes on only when it is notified: the standard allows it to wake
    up without, and promises nothing of the kind.

    The call of a continuation is one step.  In the pools below it runs
    when [m_done] of the cell it reads is set, so that its [get()] does not
    wait, and the cell it completes is one no other thread of the pool can
    reach. *)

Section Threads.
Variable T : Type.

Local Abbreviation Closure := (Closure T).
Local Abbreviation Callable := (Callable T).
Local Abbreviation SharedState := (SharedState T).
Local Abbreviation World := (World T).
Local Abbreviation M := (M T).

(** What a member gives back: nothing, a value, or a [Future]. *)
Inductive Outcome : Type :=
| no_value
| a_value (v : T)
| a_future (future : Future).

(** A thread in the middle of a call: where it is, with its locals, and
    what it goes on with ([k]) when the member it is in returns. *)
Inductive Thread : Type :=
| Finished (r : Result Outcome)
    (* setValue, setException *)
| at_checkState (this : nat) (k : Thread)
| at_m_result (this : nat) (result : T) (k : Thread)
| at_m_exception (this : nat) (exc : exception_ptr) (k : Thread)
    (* setStateDoneAndNotify: m_done = true; then.swap(m_then);
       m_cv.notify_all(); *)
| at_m_done (this : nat) (k : Thread)
| at_then_swap (this : nat) (k : Thread)
| at_notify_all (this : nat) (then_ : UniqueFunction Closure) (k : Thread)
    (* setContinuation: done = m_done; if (!done) m_then.swap(continuation); *)
| at_done_read (this : nat) (continuation : UniqueFunction Closure)
    (k : Thread)
| at_continuation_swap (this : nat) (done : bool)
    (continuation : UniqueFunction Closure) (k : Thread)
    (* if (f) f(); and the destructor of f at the end of its scope *)
| at_call (invoke : bool) (f : UniqueFunction Closure) (k : Thread)
    (* wait: the lock, the predicate, m_cv.wait, the end of the lock *)
| at_lock (this : nat) (k : Thread)
| at_predicate (this : nat) (k : Thread)
| at_sleep (this : nat) (k : Thread)
| asleep (this : nat) (k : Thread)
| at_unlock (this : nat) (k : Thread)
    (* getValue: the reads after wait() *)
| at_read (this : nat)
    (* then: before the locals are made, and at the end of their scope *)
| at_then (statePtr : nat) (f : Callable)
| at_then_end (continuation : UniqueFunction Closure) (promise : Promise)
    (future : Future).

Variable ops : ClosureOps Closure unit unit World.
Local Existing Instance ops.

(** Whether a thread holds [m_mutex] of the cell [this]: in [wait], from
    the lock to the sleep or to the return. *)
Definition holds_mutex (this : nat) (t : Thread) : bool :=
  match t with
  | at_predicate this' _ => this' =? this
  | at_sleep this' _ => this' =? this
  | at_unlock this' _ => this' =? this
  | _ => false
  end.

(** Whether a thread of the pool can take its next step: a finished thread
    has none, a sleeping one waits to be notified, and a lock is taken only
    when no thread holds it. *)
Definition enabled (pool : list Thread) (t : Thread) : bool :=
  match t with
  | Finished _ => false
  | asleep _ _ => false
  | at_lock this _ => negb (existsb (holds_mutex this) pool)
  | _ => true
  end.

(** A step that has run: the thread goes on, unless an exception left the
    call. *)
Definition goes_on {A : Type} (ran : Result A * World) (k : A -> Thread)
  : World * Thread :=
  match ran with
  | (Return a, w') => (w', k a)
  | (Throw e, w') => (w', Finished (Throw e))
  | (Hang why, w') => (w', Finished (Hang why))
  end.

(** The next step of a thread. *)
Definition step (t : Thread) (w : World) : World * Thread :=
  match t with
  | Finished _ => (w, t)
  | at_checkState this k => goes_on (checkState this w) (fun _ => k)
  | at_m_result this result k =>
      goes_on
        ((let* s := load this in store this (set_m_result s (Some result))) w)
        (fun _ => k)
  | at_m_exception this exc k =>
      goes_on
        ((let* s := load this in store this (set_m_exception s exc)) w)
        (fun _ => k)
  | at_m_done this k =>
      goes_on
        ((let* s := load this in store this (set_m_done s true)) w)
        (fun _ => at_then_swap this k)
  | at_then_swap this k =>
      goes_on
        ((let* s := load this in
          let swapped :=
            UniqueFunction_swap UniqueFunction_default (m_then s) in
          run store this (set_m_then s (snd swapped)) in
          ret (fst swapped)) w)
        (fun then_ => at_notify_all this then_ k)
  | at_notify_all this then_ k =>
      (w, at_call (UniqueFunction_bool then_) then_ k)
  | at_done_read this continuation k =>
      goes_on
        ((let* s := load this in ret (m_done s)) w)
        (fun done => at_continuation_swap this done continuation k)
  | at_continuation_swap this done continuation k =>
      goes_on
        ((if negb done then
            let* s := load this in
            let swapped := UniqueFunction_swap (m_then s) continuation in
            run store this (set_m_then s (fst swapped)) in
            ret (snd swapped)
          else ret continuation) w)
        (fun continuation' =>
           at_call (done && UniqueFunction_bool continuation')
             continuation' k)
  | at_call invoke f k =>
      goes_on (call_and_destroy ops invoke f w) (fun _ => k)
  | at_lock this k => (w, at_predicate this k)
  | at_predicate this k =>
      goes_on
        ((let* s := load this in ret (m_done s)) w)
        (fun done => if done then at_unlock this k else at_sleep this k)
  | at_sleep this k => (w, asleep this k)
  | asleep _ _ => (w, t)
  | at_unlock this k => (w, k)
  | at_read this =>
      goes_on
        ((let* s := load this in
          match m_exception s with
          | Some e => throw e
          | None =>
              match m_result s with
              | Some v => ret v
              | None => throw bad_optional_access
              end
          end) w)
        (fun v => Finished (Return (a_value v)))
  | at_then statePtr f =>
      goes_on
        ((let* promise := Promise_new in
          let* future := Promise_getFuture promise in
          ret (promise, future)) w)
        (fun made =>
           let moved := Promise_move (fst made) in
           let continuation : UniqueFunction Closure :=
             UniqueFunction_closure
               (ThenClosure (Some statePtr) (fst moved) f) in
           let argument := UniqueFunction_move continuation in
           at_done_read statePtr (fst argument)
             (at_then_end (snd argument) (snd moved) (snd made)))
  | at_then_end continuation promise future =>
      goes_on
        ((run UniqueFunction_destroy continuation in
          Promise_destroy ops promise) w)
        (fun _ => Finished (Return (a_future future)))
  end.

(** [notify_all] wakes the threads that sleep on the cell: each has to take
    the lock again, and reads the predicate again. *)
Definition wake (this : nat) (t : Thread) : Thread :=
  match t with
  | asleep this' k => if this' =? this then at_lock this' k else t
  | _ => t
  end.

(** What the step of [t] does to the other threads of the pool. *)
Definition notifies (t : Thread) (pool : list Thread) : list Thread :=
  match t with
  | at_notify_all this _ _ => map (wake this) pool
  | _ => pool
  end.

(** The members, from their first step. *)
Definition setStateDoneAndNotify_thread (this : nat) (k : Thread) : Thread :=
  at_m_done this k.

Definition setValue_thread (this : nat) (result : T) (k : Thread) : Thread :=
  at_checkState this
    (at_m_result this result (setStateDoneAndNotify_thread this k)).

Definition setException_thread (this : nat) (exc : exception_ptr)
  (k : Thread) : Thread :=
  at_checkState this
    (at_m_exception this exc (setStateDoneAndNotify_thread this k)).

Definition wait_thread (this : nat) (k : Thread) : Thread :=
  at_lock this k.

Definition getValue_thread (this : nat) : Thread :=
  wait_thread this (at_read this).

Definition Promise_setValue_thread (this : Promise) (value : T) : Thread :=
  match Promise_statePtr this with
  | None => Finished (Throw (FutureError no_state))
  | Some statePtr =>
      setValue_thread statePtr value (Finished (Return no_value))
  end.

Definition Promise_setException_thread (this : Promise) (exc : exception_ptr)
  : Thread :=
  match Promise_statePtr this with
  | None => Finished (Throw (FutureError no_state))
  | Some statePtr =>
      setException_thread statePtr exc (Finished (Return no_value))
  end.


Definition Future_get_thread (this : Future) : Thread :=
  match Future_statePtr this with
  | None => Finished (Throw (FutureError no_state))
  | Some statePtr => getValue_thread statePtr
  end.

Definition SharedFuture_get_thread (this : SharedFuture) : Thread :=
  match SharedFuture_statePtr this with
  | None => Finished (Throw (FutureError no_state))
  | Some statePtr => getValue_thread statePtr
  end.

Definition Future_then_thread (this : Future) (f : Callable) : Thread :=
  match Future_statePtr this with
  | None => Finished (Throw (FutureError no_state))
  | Some statePtr => at_then statePtr f
  end.

(** ** Schedules *)

(** The thread at position [i] takes a step, when it can. *)
Definition step_at (i : nat) (w : World) (pool : list Thread)
  : option (World * list Thread) :=
  match pool !! i with
  | Some t =>
      if enabled pool t then
        Some (fst (step t w), <[i := snd (step t w)]> (notifies t pool))
      else None
  | None => None
  end.

(** The threads take their steps in the order of [schedule]. *)
Fixpoint follow (schedule : list nat) (w : World) (pool : list Thread)
  : option (World * list Thread) :=
  match schedule with
  | [] => Some (w, pool)
  | i :: rest =>
      match step_at i w pool with
      | Some c => follow rest (fst c) (snd c)
      | None => None
      end
  end.

(** The states a pool of threads gets to, whatever the schedule. *)
Inductive reaches : World * list Thread -> World * list Thread -> Prop :=
| reaches_here (c : World * list Thread) : reaches c c
| reaches_step (i : nat) (w w' : World) (pool pool' : list Thread)
    (c : World * list Thread) :
    step_at i w pool = Some (w', pool') ->
    reaches (w', pool') c ->
    reaches (w, pool) c.

(** No thread can take a step: each one is finished, or sleeps. *)
Definition halted (c : World * list Thread) : Prop :=
  forall i, step_at i (fst c) (snd c) = None.

(** The world in which the races below start: a new promise, whose [Future]
    was taken. *)
Definition promised : World :=
  snd ((let* promise := Promise_new in Promise_getFuture promise)
         World_empty).


(** A completed cell that still stores a continuation: nothing is left to
    call it. *)
Definition left_behind (this : nat) (w : World) : bool :=
  match heap w !! this with
  | Some s => m_done s && UniqueFunction_bool (m_then s)
  | None => false
  end.

(** A thread run alone, for [n] steps at most; it blocks for ever at a step
    it cannot take. *)
Fixpoint alone (n : nat) (t : Thread) (w : World) : Result Outcome * World :=
  match t, n with
  | Finished r, _ => (r, w)
  | _, 0 => (Hang out_of_fuel, w)
  | _, S n' =>
      if enabled [t] t then alone n' (snd (step t w)) (fst (step t w))
      else (Hang blocks_forever, w)
  end.

(** The states one step away, one for each thread that can take a step. *)
Definition successors (w : World) (pool : list Thread)
  : list (World * list Thread) :=
  omap (fun i => step_at i w pool) (seq 0 (length pool)).

(** [P] holds wherever a schedule of at most [n] steps comes to a halt, and
    no schedule is longer. *)
Fixpoint all_halted (n : nat) (w : World) (pool : list Thread)
  (P : World -> list Thread -> Prop) : Prop :=
  match successors w pool with
  | [] => P w pool
  | next =>
      match n with
      | 0 => False
      | S n' =>
          fold_right
            (fun c rest => all_halted n' (fst c) (snd c) P /\ rest)
            True next
      end
  end.

End Threads.
Arguments no_value {T}.
Arguments a_value {T} v.
Arguments a_future {T} future.
Arguments Finished {T} r.

(* ================================================================== *)
(** * Properties of UniqueFunction *)

Unset Implicit Arguments.

Section UniqueFunction_facts.
Context {C Arg R S : Type} `{ClosureOps C Arg R S}.

Lemma target_closure (c : C) : target (UniqueFunction_closure c) = Some c.
Proof. unfold target, UniqueFunction_closure; simpl. by destruct (IsSmall c). Qed.

Lemma target_holds (this : UniqueFunction C) (c : C) :
  target this = Some c ->
  exists small,
    this = {| m_vtablePtr := UniqueFunctionVtable small; m_storage := holds c |}.
Proof.
  destruct this as [[|small] [|c0]]; simpl; unfold target; simpl; try done.
  intros [= ->]. by exists small.
Qed.

Lemma target_bool (this : UniqueFunction C) (c : C) :
  target this = Some c -> UniqueFunction_bool this = true.
Proof. intros (small & ->)%target_holds. done. Qed.

Lemma bool_false_empty (this : UniqueFunction C) :
  UniqueFunction_bool this = false -> m_vtablePtr this = EmptyVtable.
Proof. destruct this as [[|small] st]; simpl; [done|]. discriminate. Qed.

Lemma bool_false_target (this : UniqueFunction C) :
  UniqueFunction_bool this = false -> target this = None.
Proof. intros E%bool_false_empty. unfold target. by rewrite E. Qed.

(** One call of an instance that holds [c] is one call of [c]. *)
Lemma call_target (this : UniqueFunction C) (c : C) (arg : Arg) (s : S) :
  target this = Some c ->
  exists this',
    UniqueFunction_call this arg s
    = (fst (fst (call c arg s)), this', snd (call c arg s))
    /\ target this' = Some (snd (fst (call c arg s)))
    /\ m_vtablePtr this' = m_vtablePtr this.
Proof.
  intros (small & ->)%target_holds.
  unfold UniqueFunction_call; simpl.
  destruct (call c arg s) as [[r c'] s']; simpl.
  eexists; split; [reflexivity|]. done.
Qed.

Lemma call_each_target (args : list Arg) :
  forall (this : UniqueFunction C) (c : C) (s : S),
    target this = Some c ->
    exists this',
      call_each this args s
      = (fst (fst (closure_each c args s)), this', snd (closure_each c args s))
      /\ target this' = Some (snd (fst (closure_each c args s))).
Proof.
  induction args as [|arg rest IH]; intros this c s Ht; simpl.
  - by exists this.
  - destruct (call_target this c arg s Ht) as (this1 & -> & Ht1 & _).
    destruct (call c arg s) as [[r c1] s1]; simpl in *.
    destruct (IH this1 c1 s1 Ht1) as (this2 & -> & Ht2).
    destruct (closure_each c1 rest s1) as [[rs c2] s2]; simpl in *.
    by exists this2.
Qed.

(** Moving hands the closure over and leaves the empty table behind. *)
Lemma move_target (other : UniqueFunction C) (c : C) :
  target other = Some c ->
  target (fst (UniqueFunction_move other)) = Some c
  /\ m_vtablePtr (snd (UniqueFunction_move other)) = EmptyVtable.
Proof. intros (small & ->)%target_holds. done. Qed.

Lemma move_empties (other : UniqueFunction C) :
  UniqueFunction_bool (snd (UniqueFunction_move other)) = false.
Proof.
  unfold UniqueFunction_move.
  by destruct (m_movePtr _ _ _).
Qed.

Lemma call_empty (this : UniqueFunction C) (arg : Arg) (s : S) :
  UniqueFunction_bool this = false ->
  UniqueFunction_call this arg s = (Throw bad_function_call, this, s).
Proof.
  intros E%bool_false_empty. destruct this as [vt st]; simpl in *; subst.
  done.
Qed.

(** Every member keeps its instances well formed. *)
Lemma UniqueFunction_wf_kept (this other : UniqueFunction C) (c : C)
  (arg : Arg) (s : S) :
  UniqueFunction_wf (UniqueFunction_default (C:=C))
  /\ UniqueFunction_wf (UniqueFunction_closure c)
  /\ (UniqueFunction_wf this -> UniqueFunction_wf other ->
      UniqueFunction_wf (fst (UniqueFunction_move other))
      /\ UniqueFunction_wf (snd (UniqueFunction_move other))
      /\ UniqueFunction_wf (fst (UniqueFunction_swap this other))
      /\ UniqueFunction_wf (snd (UniqueFunction_swap this other))
      /\ UniqueFunction_wf (snd (fst (UniqueFunction_call this arg s)))
      /\ UniqueFunction_wf (snd (fst (UniqueFunction_assign_nullptr this s)))
      /\ UniqueFunction_wf
           (snd (fst (fst (UniqueFunction_move_assign this other s))))
      /\ UniqueFunction_wf
           (snd (fst (UniqueFunction_move_assign this other s)))).
Proof.
  split; [by intros Hne|]. split.
  { unfold UniqueFunction_wf, UniqueFunction_closure; simpl.
    by destruct (IsSmall c). }
  unfold UniqueFunction_wf. intros Hthis Hother.
  destruct this as [[|st] [|ct]], other as [[|so] [|co]]; simpl in *;
    unfold UniqueFunction_call, UniqueFunction_assign_nullptr,
      UniqueFunction_move_assign; simpl;
    repeat match goal with
           | |- context [call ?c ?a ?s] => destruct (call c a s) as [[? ?] ?]
           | |- context [destructor ?c ?s] => destruct (destructor c s)
           end; simpl;
    repeat split; try done; try (by exfalso; auto).
Qed.

(** C9.  An instance built from a closure forwards every call to the closure
    and gives its result back, call after call, and so does the instance the
    closure was moved into.  An empty instance, whether default-constructed,
    built from [nullptr], or left behind by a move construction or a move
    assignment, throws [std::bad_function_call] when called and changes
    nothing. *)
Theorem UniqueFunction_call_forwards_or_throws :
  (forall (c : C) (args : list Arg) (s : S),
     exists this',
       call_each (UniqueFunction_closure c) args s
       = (fst (fst (closure_each c args s)), this',
          snd (closure_each c args s))
       /\ target this' = Some (snd (fst (closure_each c args s))))
  /\ (forall (c : C) (arg : Arg) (s : S),
        exists this',
          UniqueFunction_call
            (fst (UniqueFunction_move (UniqueFunction_closure c))) arg s
          = (fst (fst (call c arg s)), this', snd (call c arg s)))
  /\ (forall (arg : Arg) (s : S),
        UniqueFunction_call (UniqueFunction_default (C:=C)) arg s
        = (Throw bad_function_call, UniqueFunction_default, s)
        /\ UniqueFunction_call (UniqueFunction_nullptr (C:=C)) arg s
           = (Throw bad_function_call, UniqueFunction_nullptr, s))
  /\ (forall (other : UniqueFunction C) (arg : Arg) (s : S),
        UniqueFunction_call (snd (UniqueFunction_move other)) arg s
        = (Throw bad_function_call, snd (UniqueFunction_move other), s))
  /\ (forall (this other : UniqueFunction C) (arg : Arg) (s0 s : S),
        UniqueFunction_call
          (snd (fst (UniqueFunction_move_assign this other s0))) arg s
        = (Throw bad_function_call,
           snd (fst (UniqueFunction_move_assign this other s0)), s)).
Proof.
  repeat split.
  - intros c args s. apply call_each_target, target_closure.
  - intros c arg s.
    destruct (move_target _ c (target_closure c)) as [Ht _].
    destruct (call_target _ c arg s Ht) as (this' & E & _). by exists this'.
  - intros other arg s. apply call_empty, move_empties.
  - intros this other arg s0 s. apply call_empty.
    unfold UniqueFunction_move_assign.
    destruct (m_destructPtr _ _ _) as [[r st] s1].
    by destruct (m_movePtr _ _ _).
Qed.

End UniqueFunction_facts.

(* ================================================================== *)
(** * Properties of the shared state *)

Section Later.
Variable T : Type.

Local Abbreviation Closure := (Closure T).
Local Abbreviation SharedState := (SharedState T).
Local Abbreviation World := (World T).
Local Abbreviation M := (M T).

Lemma cell_keeps_refl (s : SharedState) : cell_keeps s s.
Proof. by split. Qed.

Lemma cell_keeps_trans (s1 s2 s3 : SharedState) :
  cell_keeps s1 s2 -> cell_keeps s2 s3 -> cell_keeps s1 s3.
Proof.
  intros [D1 R1] [D2 R2]; split.
  - intros Hd. destruct (D1 Hd) as (Hd2 & Hr & He).
    destruct (D2 Hd2) as (Hd3 & Hr' & He'). split; [done|]. split; congruence.
  - auto.
Qed.

Lemma later_refl (w : World) : later w w.
Proof.
  split.
  - intros this s Hs. exists s. split; [done | apply cell_keeps_refl].
  - exists []. by rewrite app_nil_r.
Qed.

Lemma later_trans (w1 w2 w3 : World) : later w1 w2 -> later w2 w3 -> later w1 w3.
Proof.
  intros [C1 [t1 E1]] [C2 [t2 E2]]; split.
  - intros this s Hs. destruct (C1 this s Hs) as (s2 & Hs2 & K1).
    destruct (C2 this s2 Hs2) as (s3 & Hs3 & K2).
    exists s3. split; [done | by eapply cell_keeps_trans].
  - exists (t1 ++ t2). by rewrite E2, E1, app_assoc.
Qed.

Lemma later_store (w : World) (this : nat) (s s' : SharedState) :
  heap w !! this = Some s -> cell_keeps s s' ->
  later w (snd (store this s' w)).
Proof.
  intros Hs K; split; simpl.
  - intros i si Hi. destruct (decide (this = i)) as [->|Hne].
    + exists s'. rewrite list_lookup_insert_eq by by eapply lookup_lt_Some.
      split; [done | congruence].
    + exists si. rewrite list_lookup_insert_ne by done.
      split; [done | apply cell_keeps_refl].
  - exists []. by rewrite app_nil_r.
Qed.

Lemma later_record (w : World) (tag : nat) : later w (snd (record tag w)).
Proof.
  split; simpl.
  - intros this s Hs. exists s. split; [done | apply cell_keeps_refl].
  - by exists [tag].
Qed.

Lemma later_make_shared (w : World) : later w (snd (@make_shared T w)).
Proof.
  split; simpl.
  - intros this s Hs. exists s. split; [|apply cell_keeps_refl].
    rewrite lookup_app_l; [done | by eapply lookup_lt_Some].
  - exists []. by rewrite app_nil_r.
Qed.

(** What [later] gives for one cell. *)
Lemma later_done (w w' : World) (this : nat) (s : SharedState) :
  later w w' -> heap w !! this = Some s -> m_done s = true ->
  exists s', heap w' !! this = Some s' /\ m_done s' = true
             /\ m_result s' = m_result s /\ m_exception s' = m_exception s.
Proof.
  intros [Hc _] Hs Hd. destruct (Hc this s Hs) as (s' & Hs' & [K _]).
  exists s'. split; [done | by apply K].
Qed.

Lemma later_length (w w' : World) :
  later w w' -> length (heap w) <= length (heap w').
Proof.
  intros [Hc _].
  destruct (decide (length (heap w) = 0)) as [E|E]; [lia|].
  destruct (lookup_lt_is_Some_2 (heap w) (length (heap w) - 1)) as [s Hs];
    [lia|].
  destruct (Hc _ _ Hs) as (s' & Hs' & _). apply lookup_lt_Some in Hs'. lia.
Qed.

Lemma later_bind {A B : Type} (m : M A) (k : A -> M B) :
  (forall w, later w (snd (m w))) ->
  (forall a w, later w (snd (k a w))) ->
  forall w, later w (snd (bind m k w)).
Proof.
  intros Hm Hk w. unfold bind. specialize (Hm w).
  destruct (m w) as [[a|e|why] w1]; simpl in *; try done.
  eapply later_trans; [done | apply Hk].
Qed.

Section Later_ops.
Variable ops : ClosureOps Closure unit unit World.
Hypothesis call_later : forall c w, later w (snd (call c tt w)).
Hypothesis destructor_later : forall c w, later w (snd (destructor c w)).

Lemma later_UniqueFunction_call (f : UniqueFunction Closure) (w : World) :
  later w (snd (UniqueFunction_call f tt w)).
Proof.
  destruct f as [[|small] [|c]]; unfold UniqueFunction_call; simpl;
    try apply later_refl.
  specialize (call_later c w). by destruct (call c tt w) as [[r c'] w'].
Qed.

Lemma later_UniqueFunction_destroy (f : UniqueFunction Closure) (w : World) :
  later w (snd (UniqueFunction_destroy f w)).
Proof.
  destruct f as [[|small] [|c]]; unfold UniqueFunction_destroy; simpl;
    try apply later_refl.
  specialize (destructor_later c w). by destruct (destructor c w) as [r w'].
Qed.

Lemma later_call_and_destroy (b : bool) (f : UniqueFunction Closure) (w : World) :
  later w (snd (call_and_destroy ops b f w)).
Proof.
  unfold call_and_destroy.
  assert (L1 : later w (snd (if b then UniqueFunction_call f tt w
                              else (Return tt, f, w)))).
  { destruct b; [apply later_UniqueFunction_call | apply later_refl]. }
  destruct (if b then _ else _) as [[r f'] w1]; simpl in L1.
  pose proof (later_UniqueFunction_destroy f' w1) as L2.
  destruct (UniqueFunction_destroy f' w1) as [r2 w2]; simpl in L2.
  destruct r as [[]|e|why]; simpl; try done;
    destruct r2 as [[]|e2|why2]; simpl; by eapply later_trans.
Qed.

Lemma later_setStateDoneAndNotify (this : nat) (w : World) :
  later w (snd (setStateDoneAndNotify ops this w)).
Proof.
  unfold setStateDoneAndNotify, bind, load.
  destruct (heap w !! this) as [s|] eqn:Hs; [|apply later_refl].
  destruct (UniqueFunction_swap _ _) as [then_ then_of_s].
  unfold store. eapply later_trans; [|apply later_call_and_destroy].
  apply (later_store w this s _ Hs). by split.
Qed.

Lemma later_setValue (this : nat) (result : T) (w : World) :
  later w (snd (setValue ops this result w)).
Proof.
  unfold setValue, checkState, bind, load.
  destruct (heap w !! this) as [s|] eqn:Hs; [|apply later_refl].
  destruct (m_done s) eqn:Hd; simpl; [apply later_refl|].
  rewrite Hs. unfold store.
  eapply later_trans; [|apply later_setStateDoneAndNotify].
  apply (later_store w this s _ Hs). split; simpl; [congruence | done].
Qed.

Lemma later_setValue_void (this : nat) (w : World) :
  later w (snd (setValue_void ops this w)).
Proof.
  unfold setValue_void, checkState, bind, load.
  destruct (heap w !! this) as [s|] eqn:Hs; [|apply later_refl].
  destruct (m_done s) eqn:Hd; simpl; [apply later_refl|].
  apply later_setStateDoneAndNotify.
Qed.

Lemma later_setException (this : nat) (exc : exception_ptr) (w : World) :
  later w (snd (setException ops this exc w)).
Proof.
  unfold setException, checkState, bind, load.
  destruct (heap w !! this) as [s|] eqn:Hs; [|apply later_refl].
  destruct (m_done s) eqn:Hd; simpl; [apply later_refl|].
  rewrite Hs. unfold store.
  eapply later_trans; [|apply later_setStateDoneAndNotify].
  apply (later_store w this s _ Hs). split; simpl; [congruence | done].
Qed.

Lemma later_setContinuation (this : nat) (f : UniqueFunction Closure) (w : World) :
  later w (snd (setContinuation ops this f w)).
Proof.
  unfold setContinuation, bind, load.
  destruct (heap w !! this) as [s|] eqn:Hs; [|apply later_refl].
  destruct (if negb (m_done s) then _ else _) as [then_of_s continuation].
  unfold store. eapply later_trans; [|apply later_call_and_destroy].
  apply (later_store w this s _ Hs). by split.
Qed.

Lemma later_resetContinuation (this : nat) (w : World) :
  later w (snd (resetContinuation ops this w)).
Proof.
  unfold resetContinuation, bind, load.
  destruct (heap w !! this) as [s|] eqn:Hs; [|apply later_refl].
  destruct (UniqueFunction_swap _ _) as [then_of_s continuation].
  unfold store. eapply later_trans; [|apply later_call_and_destroy].
  apply (later_store w this s _ Hs). by split.
Qed.

Lemma later_setAndThrowIfRetrieved (this : nat) (w : World) :
  later w (snd (setAndThrowIfRetrieved this w)).
Proof.
  unfold setAndThrowIfRetrieved, bind, load.
  destruct (heap w !! this) as [s|] eqn:Hs; [|apply later_refl].
  unfold store.
  assert (L : later w (snd (store this (set_m_retrieved s true) w))).
  { apply (later_store w this s _ Hs). by split. }
  by destruct (m_retrieved s).
Qed.

Lemma getValue_world (this : nat) (w : World) : snd (getValue this w) = w.
Proof.
  unfold getValue, wait, bind, load.
  destruct (heap w !! this) as [s|]; [|done].
  destruct (m_done s); simpl; [|done].
  destruct (heap w !! this) as [s'|]; [|done].
  destruct (m_exception s'); [done|]. by destruct (m_result s').
Qed.

Lemma getValue_void_world (this : nat) (w : World) :
  snd (getValue_void this w) = w.
Proof.
  unfold getValue_void, wait, bind, load.
  destruct (heap w !! this) as [s|]; [|done].
  destruct (m_done s); simpl; [|done].
  destruct (heap w !! this) as [s'|]; [|done].
  by destruct (m_exception s').
Qed.

Lemma wait_world (this : nat) (w : World) : snd (wait this w) = w.
Proof.
  unfold wait, bind, load.
  destruct (heap w !! this) as [s|]; [|done]. by destruct (m_done s).
Qed.

Lemma later_Promise_setValue (p : Promise) (value : T) (w : World) :
  later w (snd (Promise_setValue ops p value w)).
Proof.
  destruct p as [[statePtr|]]; simpl; [apply later_setValue | apply later_refl].
Qed.

Lemma later_Promise_setException (p : Promise) (exc : exception_ptr) (w : World) :
  later w (snd (Promise_setException ops p exc w)).
Proof.
  destruct p as [[statePtr|]]; simpl;
    [apply later_setException | apply later_refl].
Qed.

Lemma later_Promise_destroy (p : Promise) (w : World) :
  later w (snd (Promise_destroy ops p w)).
Proof.
  destruct p as [[statePtr|]]; simpl;
    [apply later_resetContinuation | apply later_refl].
Qed.

Lemma later_Callable_call (f : Callable T) (future : Future) (w : World) :
  later w (snd (Callable_call f future w)).
Proof.
  unfold Callable_call. destruct (Future_get future w) as [[got fut'] w'].
  apply (later_record w (callable_tag f)).
Qed.

Lemma later_Closure_call (c : Closure) (w : World) :
  later w (snd (Closure_call ops c w)).
Proof.
  destruct c as [tag size exc|state p f]; simpl.
  - unfold bind. simpl. destruct exc; apply (later_record w tag).
  - unfold ThenClosure_call, try_catch, bind.
    pose proof (later_Callable_call f {| Future_statePtr := state |} w) as L1.
    destruct (Callable_call _ _ _) as [r1 w1]; simpl in L1.
    destruct r1 as [value|e|why]; simpl.
    + pose proof (later_Promise_setValue p value w1) as L2.
      destruct (Promise_setValue _ _ _ _) as [r2 w2]; simpl in L2.
      destruct r2 as [[]|e|why]; simpl; try by eapply later_trans.
      eapply later_trans; [by eapply later_trans|].
      pose proof (later_Promise_setException p (Some e) w2) as L3.
      by destruct (Promise_setException _ _ _ _).
    + eapply later_trans; [done|].
      pose proof (later_Promise_setException p (Some e) w1) as L3.
      by destruct (Promise_setException _ _ _ _).
    + done.
Qed.

Lemma later_Closure_destroy (c : Closure) (w : World) :
  later w (snd (Closure_destroy ops c w)).
Proof.
  destruct c as [tag size exc|state p f]; simpl;
    [apply later_refl | apply later_Promise_destroy].
Qed.

End Later_ops.

(** Whatever the fuel, calling and destroying closures leads to a later
    world. *)
Lemma later_closure_ops (fuel : nat) :
  (forall (c : Closure) (w : World),
     later w (snd (@call _ _ _ _ (closure_ops fuel) c tt w)))
  /\ (forall (c : Closure) (w : World),
        later w (snd (@destructor _ _ _ _ (closure_ops fuel) c w))).
Proof.
  induction fuel as [|fuel [IHc IHd]]; split; intros c w; simpl;
    try apply later_refl.
  - by apply (later_Closure_call (closure_ops fuel)).
  - by apply (later_Closure_destroy (closure_ops fuel)).
Qed.

Lemma later_Promise_new (w : World) : later w (snd (@Promise_new T w)).
Proof. apply later_make_shared. Qed.

Lemma later_Promise_getFuture (p : Promise) (w : World) :
  later w (snd (Promise_getFuture p w)).
Proof.
  destruct p as [[statePtr|]]; unfold Promise_getFuture; simpl;
    [|apply later_refl].
  unfold bind. pose proof (later_setAndThrowIfRetrieved statePtr w) as L.
  destruct (setAndThrowIfRetrieved statePtr w) as [r w']. by destruct r as [[]| |].
Qed.

Lemma later_Future_then (fuel : nat) (this : Future) (f : Callable T) (w : World) :
  later w (snd (Future_then fuel this f w)).
Proof.
  destruct (later_closure_ops fuel) as [Hc Hd].
  unfold Future_then.
  destruct (Future_statePtr this) as [statePtr|]; [|apply later_refl].
  pose proof (later_Promise_new w) as L1.
  destruct (Promise_new w) as [r1 w1]; simpl in L1.
  destruct r1 as [promise|e|why]; simpl; try done.
  pose proof (later_Promise_getFuture promise w1) as L2.
  destruct (Promise_getFuture promise w1) as [r2 w2]; simpl in L2.
  assert (L12 : later w w2) by by eapply later_trans.
  destruct r2 as [future|e|why]; simpl; try done.
  - match goal with
    | |- context [bind ?m ?k w2] =>
        assert (L3 : later w2 (snd (bind m k w2)));
        [|destruct (bind m k w2) as [r3 w3]; simpl in *; by eapply later_trans]
    end.
    apply later_bind; [intros w'; by apply later_setContinuation|].
    intros _. apply later_bind.
    + intros w'. by apply later_UniqueFunction_destroy.
    + intros _ w'. by apply later_Promise_destroy.
  - pose proof (later_Promise_destroy (closure_ops fuel) Hc Hd promise w2)
      as L3.
    destruct (Promise_destroy _ _ _) as [r3 w3]; simpl in *.
    by eapply later_trans.
Qed.

(** [exec], call by call. *)
Lemma exec_eq (fuel : nat) (o : Op T) (w : World) :
  exec fuel o w
  = match o with
    | op_make_shared => snd (@make_shared T w)
    | op_setValue this result => snd (setValue (closure_ops fuel) this result w)
    | op_setValue_void this => snd (setValue_void (closure_ops fuel) this w)
    | op_setException this exc =>
        snd (setException (closure_ops fuel) this exc w)
    | op_setContinuation this continuation =>
        snd (setContinuation (closure_ops fuel) this
               (UniqueFunction_of (closure_ops fuel) continuation) w)
    | op_resetContinuation this =>
        snd (resetContinuation (closure_ops fuel) this w)
    | op_setAndThrowIfRetrieved this => snd (setAndThrowIfRetrieved this w)
    | op_getValue this => snd (getValue this w)
    | op_getValue_void this => snd (getValue_void this w)
    | op_wait this => snd (wait this w)
    | op_then this f => snd (Future_then fuel this f w)
    end.
Proof.
  unfold exec, call_op. destruct o; try done.
  - by destruct (setValue _ _ _ _).
  - by destruct (setValue_void _ _ _).
  - by destruct (setException _ _ _ _).
  - by destruct (setContinuation _ _ _ _).
  - by destruct (resetContinuation _ _ _).
  - by destruct (setAndThrowIfRetrieved _ _).
  - by destruct (getValue _ _).
  - by destruct (getValue_void _ _).
  - by destruct (wait _ _).
  - by destruct (Future_then _ _ _ _) as [[r fut] w'].
Qed.

Lemma later_exec (fuel : nat) (o : Op T) (w : World) : later w (exec fuel o w).
Proof.
  destruct (later_closure_ops fuel) as [Hc Hd].
  rewrite exec_eq. destruct o; simpl.
  - apply later_make_shared.
  - by apply later_setValue.
  - by apply later_setValue_void.
  - by apply later_setException.
  - by apply later_setContinuation.
  - by apply later_resetContinuation.
  - apply later_setAndThrowIfRetrieved.
  - rewrite getValue_world. apply later_refl.
  - rewrite getValue_void_world. apply later_refl.
  - rewrite wait_world. apply later_refl.
  - apply later_Future_then.
Qed.

Lemma later_exec_all (program : list (nat * Op T)) :
  forall w : World, later w (exec_all program w).
Proof.
  induction program as [|[fuel o] rest IH]; intros w; simpl.
  - apply later_refl.
  - eapply later_trans; [apply later_exec | apply IH].
Qed.

End Later.

(** ** A cell that is not completed holds no outcome *)

Section Consistent.
Variable T : Type.

Local Abbreviation Closure := (Closure T).
Local Abbreviation SharedState := (SharedState T).
Local Abbreviation World := (World T).

Lemma consistent_empty : consistent (@World_empty T).
Proof. intros this s Hs. done. Qed.

(** Storing a consistent cell repairs the world at that cell. *)
Lemma consistent_store (w : World) (this : nat) (s' : SharedState) :
  (forall i s, i <> this -> heap w !! i = Some s -> cell_consistent s) ->
  cell_consistent s' ->
  consistent (snd (store this s' w)).
Proof.
  intros Hw Hs' i si; simpl. rewrite list_lookup_insert.
  case_decide as Hi; [by intros [= <-]|].
  destruct (decide (i = this)) as [->|Hne].
  - intros Hsi. exfalso. apply Hi. split; [done | by eapply lookup_lt_Some].
  - by apply Hw.
Qed.

Lemma consistent_record (w : World) (tag : nat) :
  consistent w -> consistent (snd (record tag w)).
Proof. done. Qed.

Lemma consistent_make_shared (w : World) :
  consistent w -> consistent (snd (@make_shared T w)).
Proof.
  intros Hw i s; simpl. intros [[_ Hs]|[_ <-]]%lookup_snoc_Some.
  - by eapply Hw.
  - by intros _.
Qed.

Lemma consistent_bind {A B : Type} (m : M T A) (k : A -> M T B) :
  (forall w, consistent w -> consistent (snd (m w))) ->
  (forall a w, consistent w -> consistent (snd (k a w))) ->
  forall w, consistent w -> consistent (snd (bind m k w)).
Proof.
  intros Hm Hk w Hw. unfold bind. specialize (Hm w Hw).
  destruct (m w) as [[a|e|why] w1]; simpl in *; try done.
  by apply Hk.
Qed.

Section Consistent_ops.
Variable ops : ClosureOps Closure unit unit World.
Hypothesis call_consistent :
  forall c w, consistent w -> consistent (snd (call c tt w)).
Hypothesis destructor_consistent :
  forall c w, consistent w -> consistent (snd (destructor c w)).

Lemma consistent_UniqueFunction_call (f : UniqueFunction Closure) (w : World) :
  consistent w -> consistent (snd (UniqueFunction_call f tt w)).
Proof.
  intros Hw. destruct f as [[|small] [|c]]; unfold UniqueFunction_call; simpl;
    try done.
  specialize (call_consistent c w Hw). by destruct (call c tt w) as [[r c'] w'].
Qed.

Lemma consistent_UniqueFunction_destroy (f : UniqueFunction Closure) (w : World) :
  consistent w -> consistent (snd (UniqueFunction_destroy f w)).
Proof.
  intros Hw.
  destruct f as [[|small] [|c]]; unfold UniqueFunction_destroy; simpl;
    try done.
  specialize (destructor_consistent c w Hw).
  by destruct (destructor c w) as [r w'].
Qed.

Lemma consistent_call_and_destroy (b : bool) (f : UniqueFunction Closure)
  (w : World) :
  consistent w -> consistent (snd (call_and_destroy ops b f w)).
Proof.
  intros Hw. unfold call_and_destroy.
  assert (L1 : consistent (snd (if b then UniqueFunction_call f tt w
                                 else (Return tt, f, w)))).
  { destruct b; [by apply consistent_UniqueFunction_call | done]. }
  destruct (if b then _ else _) as [[r f'] w1]; simpl in L1.
  pose proof (consistent_UniqueFunction_destroy f' w1 L1) as L2.
  destruct (UniqueFunction_destroy f' w1) as [r2 w2]; simpl in L2.
  destruct r as [[]|e|why]; simpl; try done;
    by destruct r2 as [[]|e2|why2].
Qed.

(** Completing a cell makes it consistent, whatever it held. *)
Lemma consistent_setStateDoneAndNotify (this : nat) (w : World) :
  (forall i s, i <> this -> heap w !! i = Some s -> cell_consistent s) ->
  consistent (snd (setStateDoneAndNotify ops this w)).
Proof.
  intros Hw. unfold setStateDoneAndNotify, bind, load.
  destruct (heap w !! this) as [s|] eqn:Hs.
  - destruct (UniqueFunction_swap _ _) as [then_ then_of_s].
    unfold store. apply consistent_call_and_destroy.
    apply (consistent_store w this _ Hw). by intros [=].
  - simpl. intros i si Hi. apply (Hw i si); [|done]. congruence.
Qed.

Lemma consistent_setValue (this : nat) (result : T) (w : World) :
  consistent w -> consistent (snd (setValue ops this result w)).
Proof.
  intros Hw. unfold setValue, checkState, bind, load.
  destruct (heap w !! this) as [s|] eqn:Hs; [|done].
  destruct (m_done s) eqn:Hd; simpl; [done|].
  rewrite Hs. unfold store. apply consistent_setStateDoneAndNotify.
  intros i si Hne; simpl. rewrite list_lookup_insert_ne by done. apply Hw.
Qed.

Lemma consistent_setValue_void (this : nat) (w : World) :
  consistent w -> consistent (snd (setValue_void ops this w)).
Proof.
  intros Hw. unfold setValue_void, checkState, bind, load.
  destruct (heap w !! this) as [s|] eqn:Hs; [|done].
  destruct (m_done s) eqn:Hd; simpl; [done|].
  apply consistent_setStateDoneAndNotify. intros i si _. apply Hw.
Qed.

Lemma consistent_setException (this : nat) (exc : exception_ptr) (w : World) :
  consistent w -> consistent (snd (setException ops this exc w)).
Proof.
  intros Hw. unfold setException, checkState, bind, load.
  destruct (heap w !! this) as [s|] eqn:Hs; [|done].
  destruct (m_done s) eqn:Hd; simpl; [done|].
  rewrite Hs. unfold store. apply consistent_setStateDoneAndNotify.
  intros i si Hne; simpl. rewrite list_lookup_insert_ne by done. apply Hw.
Qed.

Lemma consistent_setContinuation (this : nat) (f : UniqueFunction Closure)
  (w : World) :
  consistent w -> consistent (snd (setContinuation ops this f w)).
Proof.
  intros Hw. unfold setContinuation, bind, load.
  destruct (heap w !! this) as [s|] eqn:Hs; [|done].
  destruct (if negb (m_done s) then _ else _) as [then_of_s continuation].
  unfold store. apply consistent_call_and_destroy.
  apply consistent_store; [intros i si _; apply Hw|]. apply (Hw this s Hs).
Qed.

Lemma consistent_resetContinuation (this : nat) (w : World) :
  consistent w -> consistent (snd (resetContinuation ops this w)).
Proof.
  intros Hw. unfold resetContinuation, bind, load.
  destruct (heap w !! this) as [s|] eqn:Hs; [|done].
  destruct (UniqueFunction_swap _ _) as [then_of_s continuation].
  unfold store. apply consistent_call_and_destroy.
  apply consistent_store; [intros i si _; apply Hw|]. apply (Hw this s Hs).
Qed.

Lemma consistent_setAndThrowIfRetrieved (this : nat) (w : World) :
  consistent w -> consistent (snd (setAndThrowIfRetrieved this w)).
Proof.
  intros Hw. unfold setAndThrowIfRetrieved, bind, load.
  destruct (heap w !! this) as [s|] eqn:Hs; [|done].
  unfold store.
  assert (L : consistent (snd (store this (set_m_retrieved s true) w))).
  { apply consistent_store; [intros i si _; apply Hw|]. apply (Hw this s Hs). }
  by destruct (m_retrieved s).
Qed.

Lemma consistent_Promise_destroy (p : Promise) (w : World) :
  consistent w -> consistent (snd (Promise_destroy ops p w)).
Proof.
  destruct p as [[statePtr|]]; unfold Promise_destroy; simpl; [|done].
  apply consistent_resetContinuation.
Qed.

Lemma consistent_Promise_setValue (p : Promise) (value : T) (w : World) :
  consistent w -> consistent (snd (Promise_setValue ops p value w)).
Proof.
  destruct p as [[statePtr|]]; unfold Promise_setValue; simpl; [|done].
  apply consistent_setValue.
Qed.

Lemma consistent_Promise_setException (p : Promise) (exc : exception_ptr)
  (w : World) :
  consistent w -> consistent (snd (Promise_setException ops p exc w)).
Proof.
  destruct p as [[statePtr|]]; unfold Promise_setException; simpl; [|done].
  apply consistent_setException.
Qed.

Lemma consistent_Closure_call (c : Closure) (w : World) :
  consistent w -> consistent (snd (Closure_call ops c w)).
Proof.
  intros Hw. destruct c as [tag size exc|state p f]; simpl.
  - unfold bind. simpl. by destruct exc.
  - unfold ThenClosure_call, try_catch, bind, Callable_call.
    destruct (Future_get _ w) as [[got fut'] w0].
    set (w1 := {| heap := heap w; trace := trace w ++ [callable_tag f] |}).
    assert (H1 : consistent w1) by done.
    destruct (callable_body f got) as [value|e|why]; simpl.
    + pose proof (consistent_Promise_setValue p value w1 H1) as L2.
      destruct (Promise_setValue _ _ _ _) as [r2 w2]; simpl in L2.
      destruct r2 as [[]|e|why]; simpl; try done.
      pose proof (consistent_Promise_setException p (Some e) w2 L2) as L3.
      by destruct (Promise_setException _ _ _ _).
    + pose proof (consistent_Promise_setException p (Some e) w1 H1) as L3.
      by destruct (Promise_setException _ _ _ _).
    + done.
Qed.

Lemma consistent_Closure_destroy (c : Closure) (w : World) :
  consistent w -> consistent (snd (Closure_destroy ops c w)).
Proof.
  destruct c as [tag size exc|state p f]; simpl; [done|].
  apply consistent_Promise_destroy.
Qed.

End Consistent_ops.

Lemma consistent_closure_ops (fuel : nat) :
  (forall (c : Closure) (w : World),
     consistent w -> consistent (snd (@call _ _ _ _ (closure_ops fuel) c tt w)))
  /\ (forall (c : Closure) (w : World),
        consistent w ->
        consistent (snd (@destructor _ _ _ _ (closure_ops fuel) c w))).
Proof.
  induction fuel as [|fuel [IHc IHd]]; split; intros c w Hw; simpl; try done.
  - by apply (consistent_Closure_call (closure_ops fuel)).
  - by apply (consistent_Closure_destroy (closure_ops fuel)).
Qed.

Lemma consistent_Future_then (fuel : nat) (this : Future) (f : Callable T)
  (w : World) :
  consistent w -> consistent (snd (Future_then fuel this f w)).
Proof.
  intros Hw. destruct (consistent_closure_ops fuel) as [Hc Hd].
  unfold Future_then.
  destruct (Future_statePtr this) as [statePtr|]; [|done].
  pose proof (consistent_make_shared w Hw) as L1.
  unfold Promise_new, bind at 1, ret.
  destruct (make_shared w) as [r1 w1]; simpl in L1.
  destruct r1 as [cell|e|why]; simpl; try done.
  unfold Promise_getFuture; simpl. unfold bind at 1.
  pose proof (consistent_setAndThrowIfRetrieved cell w1 L1) as L2.
  destruct (setAndThrowIfRetrieved cell w1) as [r2 w2]; simpl in L2.
  destruct r2 as [[]|e|why]; simpl; try done.
  - match goal with
    | |- context [bind ?m ?k w2] =>
        assert (L3 : consistent (snd (bind m k w2)));
        [|by destruct (bind m k w2) as [r3 w3]]
    end.
    apply consistent_bind; [|intros _; apply consistent_bind|done].
    + intros w'. by apply consistent_setContinuation.
    + intros w'. by apply consistent_UniqueFunction_destroy.
    + intros _ w'. by apply consistent_Promise_destroy.
  - pose proof (consistent_resetContinuation (closure_ops fuel) Hc Hd
                  cell w2 L2) as L3.
    unfold Promise_destroy; simpl.
    by destruct (resetContinuation _ _ _) as [r3 w3].
Qed.

Lemma consistent_exec (fuel : nat) (o : Op T) (w : World) :
  consistent w -> consistent (exec fuel o w).
Proof.
  intros Hw. destruct (consistent_closure_ops fuel) as [Hc Hd].
  rewrite exec_eq. destruct o; simpl.
  - by apply consistent_make_shared.
  - by apply consistent_setValue.
  - by apply consistent_setValue_void.
  - by apply consistent_setException.
  - by apply consistent_setContinuation.
  - by apply consistent_resetContinuation.
  - by apply consistent_setAndThrowIfRetrieved.
  - by rewrite getValue_world.
  - by rewrite getValue_void_world.
  - by rewrite wait_world.
  - by apply consistent_Future_then.
Qed.

Lemma consistent_exec_all (program : list (nat * Op T)) :
  forall w : World, consistent w -> consistent (exec_all program w).
Proof.
  induction program as [|[fuel o] rest IH]; intros w Hw; simpl; [done|].
  by apply IH, consistent_exec.
Qed.

Lemma reachable_consistent (w : World) : reachable w -> consistent w.
Proof. intros [program ->]. apply consistent_exec_all, consistent_empty. Qed.

End Consistent.

(* ================================================================== *)
(** * The properties of the specification *)

Section Completion.
Variable T : Type.

Local Abbreviation Closure := (Closure T).
Local Abbreviation SharedState := (SharedState T).
Local Abbreviation World := (World T).

(** What a completed cell answers. *)
Lemma completed_checkState (w : World) (this : nat) (s : SharedState) :
  heap w !! this = Some s -> m_done s = true ->
  checkState this w = (Throw (FutureError promise_already_satisfied), w).
Proof. intros Hs Hd. unfold checkState, bind, load. by rewrite Hs, Hd. Qed.

Lemma completed_setValue (ops : ClosureOps Closure unit unit World)
  (w : World) (this : nat) (s : SharedState) (y : T) :
  heap w !! this = Some s -> m_done s = true ->
  setValue ops this y w = (Throw (FutureError promise_already_satisfied), w).
Proof.
  intros Hs Hd. unfold setValue, bind at 1.
  by rewrite (completed_checkState w this s).
Qed.

Lemma completed_setValue_void (ops : ClosureOps Closure unit unit World)
  (w : World) (this : nat) (s : SharedState) :
  heap w !! this = Some s -> m_done s = true ->
  setValue_void ops this w
  = (Throw (FutureError promise_already_satisfied), w).
Proof.
  intros Hs Hd. unfold setValue_void, bind at 1.
  by rewrite (completed_checkState w this s).
Qed.

Lemma completed_setException (ops : ClosureOps Closure unit unit World)
  (w : World) (this : nat) (s : SharedState) (exc : exception_ptr) :
  heap w !! this = Some s -> m_done s = true ->
  setException ops this exc w
  = (Throw (FutureError promise_already_satisfied), w).
Proof.
  intros Hs Hd. unfold setException, bind at 1.
  by rewrite (completed_checkState w this s).
Qed.

Lemma completed_getValue (w : World) (this : nat) (s : SharedState) :
  heap w !! this = Some s -> m_done s = true ->
  getValue this w
  = (match m_exception s with
     | Some e => Throw e
     | None => match m_result s with
               | Some v => Return v
               | None => Throw bad_optional_access
               end
     end, w).
Proof.
  intros Hs Hd. unfold getValue, wait, bind, load. rewrite Hs, Hd; simpl.
  rewrite Hs. destruct (m_exception s); [done|]. by destruct (m_result s).
Qed.

Lemma completed_getValue_void (w : World) (this : nat) (s : SharedState) :
  heap w !! this = Some s -> m_done s = true ->
  getValue_void this w
  = (match m_exception s with
     | Some e => Throw e
     | None => Return tt
     end, w).
Proof.
  intros Hs Hd. unfold getValue_void, wait, bind, load. rewrite Hs, Hd; simpl.
  rewrite Hs. by destruct (m_exception s).
Qed.

Lemma pending_getValue (w : World) (this : nat) (s : SharedState) :
  heap w !! this = Some s -> m_done s = false ->
  getValue this w = (Hang blocks_forever, w).
Proof. intros Hs Hd. unfold getValue, wait, bind, load. by rewrite Hs, Hd. Qed.

(** The cell right after [setStateDoneAndNotify] got past its block, seen from
    the world the call ends in. *)
Lemma setStateDoneAndNotify_cell (fuel : nat) (w w1 : World) (this : nat)
  (s : SharedState) (r : Result unit) :
  heap w !! this = Some s ->
  setStateDoneAndNotify (closure_ops fuel) this w = (r, w1) ->
  exists s1, heap w1 !! this = Some s1 /\ m_done s1 = true
             /\ m_result s1 = m_result s /\ m_exception s1 = m_exception s.
Proof.
  intros Hs. unfold setStateDoneAndNotify, bind, load. rewrite Hs.
  destruct (UniqueFunction_swap _ _) as [then_ then_of_s]. unfold store.
  intros Hrun.
  destruct (later_closure_ops T fuel) as [Hc Hd].
  pose proof (later_call_and_destroy T (closure_ops fuel) Hc Hd
                (UniqueFunction_bool then_) then_
                {| heap := <[this:=set_m_then (set_m_done s true) then_of_s]>
                             (heap w);
                   trace := trace w |}) as L.
  rewrite Hrun in L; simpl in L.
  destruct (later_done T _ w1 this
              (set_m_then (set_m_done s true) then_of_s) L)
    as (s1 & Hs1 & Hd1 & Hr1 & He1); [|done|by exists s1].
  simpl. apply list_lookup_insert_eq. by eapply lookup_lt_Some.
Qed.

(** A completing call that returns, or throws anything but
    [promise_already_satisfied], leaves the cell completed with the outcome it
    was given. *)
Lemma setValue_cell (fuel : nat) (w w1 : World) (this : nat) (x : T) :
  consistent w ->
  setValue (closure_ops fuel) this x w = (Return tt, w1) ->
  exists s1, heap w1 !! this = Some s1 /\ m_done s1 = true
             /\ m_result s1 = Some x /\ m_exception s1 = None.
Proof.
  intros Hw. unfold setValue, checkState, bind at 1 2, load.
  destruct (heap w !! this) as [s|] eqn:Hs; [|done].
  destruct (m_done s) eqn:Hd; simpl; [done|].
  unfold bind, load. rewrite Hs. unfold store. intros Hrun.
  apply (setStateDoneAndNotify_cell fuel _ w1 this (set_m_result s (Some x)))
    in Hrun as (s1 & Hs1 & Hd1 & Hr1 & He1).
  - exists s1. repeat split; try done. rewrite He1; simpl.
    by destruct (Hw this s Hs Hd).
  - simpl. apply list_lookup_insert_eq. by eapply lookup_lt_Some.
Qed.

Lemma setValue_void_cell (fuel : nat) (w w1 : World) (this : nat) :
  consistent w ->
  setValue_void (closure_ops fuel) this w = (Return tt, w1) ->
  exists s1, heap w1 !! this = Some s1 /\ m_done s1 = true
             /\ m_exception s1 = None.
Proof.
  intros Hw. unfold setValue_void, checkState, bind at 1 2, load.
  destruct (heap w !! this) as [s|] eqn:Hs; [|done].
  destruct (m_done s) eqn:Hd; simpl; [done|].
  intros Hrun.
  apply (setStateDoneAndNotify_cell fuel _ w1 this s)
    in Hrun as (s1 & Hs1 & Hd1 & Hr1 & He1); [|done].
  exists s1. repeat split; try done. rewrite He1.
  by destruct (Hw this s Hs Hd).
Qed.

Lemma setException_cell (fuel : nat) (w w1 : World) (this : nat)
  (exc : exception_ptr) :
  setException (closure_ops fuel) this exc w = (Return tt, w1) ->
  exists s1, heap w1 !! this = Some s1 /\ m_done s1 = true
             /\ m_exception s1 = exc.
Proof.
  unfold setException, checkState, bind at 1 2, load.
  destruct (heap w !! this) as [s|] eqn:Hs; [|done].
  destruct (m_done s) eqn:Hd; simpl; [done|].
  unfold bind, load. rewrite Hs. unfold store. intros Hrun.
  apply (setStateDoneAndNotify_cell fuel _ w1 this (set_m_exception s exc))
    in Hrun as (s1 & Hs1 & Hd1 & Hr1 & He1).
  - exists s1. by repeat split.
  - simpl. apply list_lookup_insert_eq. by eapply lookup_lt_Some.
Qed.

(** C1.  In any world a program can reach, for the primary template and for
    the [void] specialization alike: once [setValue] has returned on a cell,
    then after any further calls of the program every [setValue] and every
    [setException] on that cell throws [promise_already_satisfied] and
    changes nothing, and [getValue] still returns the value set first. *)
Theorem setValue_once (program1 program2 : list (nat * Op T)) (fuel : nat)
  (this : nat) (w1 : World) :
  (forall x : T,
     setValue (closure_ops fuel) this x (exec_all program1 World_empty)
     = (Return tt, w1) ->
     (forall fuel' y,
        setValue (closure_ops fuel') this y (exec_all program2 w1)
        = (Throw (FutureError promise_already_satisfied),
           exec_all program2 w1))
     /\ (forall fuel' exc,
           setException (closure_ops fuel') this exc (exec_all program2 w1)
           = (Throw (FutureError promise_already_satisfied),
              exec_all program2 w1))
     /\ getValue this (exec_all program2 w1)
        = (Return x, exec_all program2 w1))
  /\ (setValue_void (closure_ops fuel) this (exec_all program1 World_empty)
      = (Return tt, w1) ->
      (forall fuel',
         setValue_void (closure_ops fuel') this (exec_all program2 w1)
         = (Throw (FutureError promise_already_satisfied),
            exec_all program2 w1))
      /\ (forall fuel' exc,
            setException (closure_ops fuel') this exc (exec_all program2 w1)
            = (Throw (FutureError promise_already_satisfied),
               exec_all program2 w1))
      /\ getValue_void this (exec_all program2 w1)
         = (Return tt, exec_all program2 w1)).
Proof.
  assert (Hw : consistent (exec_all program1 (@World_empty T)))
    by apply consistent_exec_all, consistent_empty.
  split.
  - intros x Hrun.
    destruct (setValue_cell fuel _ _ this x Hw Hrun)
      as (s1 & Hs1 & Hd1 & Hr1 & He1).
    destruct (later_done T _ _ this s1 (later_exec_all T program2 w1) Hs1 Hd1)
      as (s2 & Hs2 & Hd2 & Hr2 & He2).
    split; [|split].
    + intros fuel' y. by eapply completed_setValue.
    + intros fuel' exc. by eapply completed_setException.
    + rewrite (completed_getValue _ this s2 Hs2 Hd2).
      by rewrite He2, He1, Hr2, Hr1.
  - intros Hrun.
    destruct (setValue_void_cell fuel _ _ this Hw Hrun)
      as (s1 & Hs1 & Hd1 & He1).
    destruct (later_done T _ _ this s1 (later_exec_all T program2 w1) Hs1 Hd1)
      as (s2 & Hs2 & Hd2 & Hr2 & He2).
    split; [|split].
    + intros fuel'. by eapply completed_setValue_void.
    + intros fuel' exc. by eapply completed_setException.
    + rewrite (completed_getValue_void _ this s2 Hs2 Hd2).
      by rewrite He2, He1.
Qed.

End Completion.

(** ** Counting invocations *)

Section Counting.
Variable T : Type.
Variable tag : nat.

Local Abbreviation Closure := (Closure T).
Local Abbreviation SharedState := (SharedState T).
Local Abbreviation World := (World T).
Local Abbreviation M := (M T).

(** The invocations of [tag] so far, plus the continuations with that tag
    still stored: no call makes this grow, but for attaching such a
    continuation. *)
Local Abbreviation occurrences w :=
  (invocations tag w + pending_with_tag tag w).

Lemma pending_store (w : World) (this : nat) (s s' : SharedState) :
  heap w !! this = Some s ->
  pending_with_tag tag (snd (store this s' w)) + Nat.b2n (stores_tag tag s)
  = pending_with_tag tag w + Nat.b2n (stores_tag tag s').
Proof.
  intros Hs. unfold pending_with_tag, store; simpl.
  rewrite insert_take_drop by by eapply lookup_lt_Some.
  rewrite <- (take_drop_middle (heap w) this s Hs) at 3.
  rewrite !filter_app, !filter_cons, !length_app.
  destruct (stores_tag tag s), (stores_tag tag s'); simpl;
    repeat case_decide; simpl; try done; lia.
Qed.

Lemma pending_store_same (w : World) (this : nat) (s s' : SharedState) :
  heap w !! this = Some s -> m_then s' = m_then s ->
  pending_with_tag tag (snd (store this s' w)) = pending_with_tag tag w.
Proof.
  intros Hs E. pose proof (pending_store w this s s' Hs) as P.
  unfold stores_tag in P. rewrite E in P. lia.
Qed.

Lemma pending_make_shared (w : World) :
  pending_with_tag tag (snd (@make_shared T w)) = pending_with_tag tag w.
Proof.
  unfold pending_with_tag, make_shared; simpl.
  rewrite filter_app, length_app. simpl. lia.
Qed.

Lemma invocations_record (w : World) (tag' : nat) :
  invocations tag (snd (record tag' w))
  = invocations tag w + Nat.b2n (tag' =? tag).
Proof.
  unfold invocations, record; simpl. rewrite count_occ_app; simpl.
  destruct (Nat.eq_dec tag' tag) as [->|Hne].
  - by rewrite Nat.eqb_refl.
  - by apply Nat.eqb_neq in Hne as ->.
Qed.

Lemma invocations_later (w w' : World) :
  later w w' -> invocations tag w <= invocations tag w'.
Proof.
  intros [_ [t E]]. unfold invocations. rewrite E, count_occ_app. lia.
Qed.

(** A swap moves closures about; it makes none. *)
Lemma swap_holds_tag {Arg R S : Type} (ops : ClosureOps Closure Arg R S)
  (a b : UniqueFunction Closure) :
  Nat.b2n (holds_tag tag (fst (UniqueFunction_swap a b)))
  + Nat.b2n (holds_tag tag (snd (UniqueFunction_swap a b)))
  <= Nat.b2n (holds_tag tag a) + Nat.b2n (holds_tag tag b).
Proof.
  destruct a as [[|sa] [|ca]], b as [[|sb] [|cb]];
    unfold UniqueFunction_swap, holds_tag; simpl;
    repeat match goal with
           | |- context [closure_tag ?c =? tag] =>
               destruct (closure_tag c =? tag)
           end; simpl; lia.
Qed.

Section Counting_ops.
Variable ops : ClosureOps Closure unit unit World.
Hypothesis call_count :
  forall c w,
    occurrences (snd (call c tt w))
    <= occurrences w + Nat.b2n (closure_tag c =? tag).
Hypothesis destructor_count :
  forall c w, occurrences (snd (destructor c w)) <= occurrences w.

Lemma count_UniqueFunction_call (f : UniqueFunction Closure) (w : World) :
  occurrences (snd (UniqueFunction_call f tt w))
  <= occurrences w + Nat.b2n (holds_tag tag f).
Proof.
  destruct f as [[|small] [|c]]; unfold UniqueFunction_call, holds_tag; simpl;
    try lia.
  specialize (call_count c w). destruct (call c tt w) as [[r c'] w']. done.
Qed.

Lemma count_UniqueFunction_destroy (f : UniqueFunction Closure) (w : World) :
  occurrences (snd (UniqueFunction_destroy f w)) <= occurrences w.
Proof.
  destruct f as [[|small] [|c]]; unfold UniqueFunction_destroy; simpl;
    try lia.
  specialize (destructor_count c w). by destruct (destructor c w) as [r w'].
Qed.

Lemma count_call_and_destroy (b : bool) (f : UniqueFunction Closure)
  (w : World) :
  occurrences (snd (call_and_destroy ops b f w))
  <= occurrences w + Nat.b2n (holds_tag tag f).
Proof.
  unfold call_and_destroy.
  assert (L1 : occurrences (snd (if b then UniqueFunction_call f tt w
                                  else (Return tt, f, w)))
               <= occurrences w + Nat.b2n (holds_tag tag f)).
  { destruct b; [apply count_UniqueFunction_call | simpl; lia]. }
  destruct (if b then _ else _) as [[r f'] w1]; simpl in L1.
  pose proof (count_UniqueFunction_destroy f' w1) as L2.
  destruct (UniqueFunction_destroy f' w1) as [r2 w2]; simpl in L2.
  destruct r as [[]|e|why]; simpl; try done;
    destruct r2 as [[]|e2|why2]; simpl; lia.
Qed.

Lemma count_destroy_only (f : UniqueFunction Closure) (w : World) :
  occurrences (snd (call_and_destroy ops false f w)) <= occurrences w.
Proof.
  unfold call_and_destroy.
  pose proof (count_UniqueFunction_destroy f w) as L.
  destruct (UniqueFunction_destroy f w) as [r w']; simpl in L.
  by destruct r as [[]|e|why].
Qed.

Lemma count_setStateDoneAndNotify (this : nat) (w : World) :
  occurrences (snd (setStateDoneAndNotify ops this w)) <= occurrences w.
Proof.
  unfold setStateDoneAndNotify, bind, load.
  destruct (heap w !! this) as [s|] eqn:Hs; [|done].
  pose proof (swap_holds_tag ops UniqueFunction_default (m_then s)) as Hswap.
  destruct (UniqueFunction_swap _ _) as [then_ then_of_s]. simpl in Hswap.
  unfold store.
  pose proof (count_call_and_destroy (UniqueFunction_bool then_) then_
    (snd (store this (set_m_then (set_m_done s true) then_of_s) w))) as L.
  pose proof (pending_store w this s
                (set_m_then (set_m_done s true) then_of_s) Hs) as P.
  unfold store in L, P; simpl in L, P. unfold stores_tag in P; simpl in P.
  unfold invocations in *; simpl in *.
  change (holds_tag tag UniqueFunction_default) with false in Hswap.
  simpl in Hswap. lia.
Qed.

Lemma count_setValue (this : nat) (result : T) (w : World) :
  occurrences (snd (setValue ops this result w)) <= occurrences w.
Proof.
  unfold setValue, checkState, bind, load.
  destruct (heap w !! this) as [s|] eqn:Hs; [|done].
  destruct (m_done s) eqn:Hd; simpl; [done|].
  rewrite Hs. unfold store.
  etransitivity; [apply count_setStateDoneAndNotify|].
  pose proof (pending_store_same w this s (set_m_result s (Some result))
                Hs eq_refl) as P.
  unfold store in P; simpl in P. unfold invocations; simpl. lia.
Qed.

Lemma count_setValue_void (this : nat) (w : World) :
  occurrences (snd (setValue_void ops this w)) <= occurrences w.
Proof.
  unfold setValue_void, checkState, bind, load.
  destruct (heap w !! this) as [s|] eqn:Hs; [|done].
  destruct (m_done s) eqn:Hd; simpl; [done|].
  apply count_setStateDoneAndNotify.
Qed.

Lemma count_setException (this : nat) (exc : exception_ptr) (w : World) :
  occurrences (snd (setException ops this exc w)) <= occurrences w.
Proof.
  unfold setException, checkState, bind, load.
  destruct (heap w !! this) as [s|] eqn:Hs; [|done].
  destruct (m_done s) eqn:Hd; simpl; [done|].
  rewrite Hs. unfold store.
  etransitivity; [apply count_setStateDoneAndNotify|].
  pose proof (pending_store_same w this s (set_m_exception s exc)
                Hs eq_refl) as P.
  unfold store in P; simpl in P. unfold invocations; simpl. lia.
Qed.

Lemma count_setContinuation (this : nat) (f : UniqueFunction Closure)
  (w : World) :
  occurrences (snd (setContinuation ops this f w))
  <= occurrences w + Nat.b2n (holds_tag tag f).
Proof.
  unfold setContinuation, bind, load.
  destruct (heap w !! this) as [s|] eqn:Hs; [|simpl; lia].
  pose proof (swap_holds_tag ops (m_then s) f) as Hswap.
  assert (Hpair :
    Nat.b2n (holds_tag tag
               (fst (if negb (m_done s) then UniqueFunction_swap (m_then s) f
                     else (m_then s, f))))
    + Nat.b2n (holds_tag tag
                 (snd (if negb (m_done s) then UniqueFunction_swap (m_then s) f
                       else (m_then s, f))))
    <= Nat.b2n (holds_tag tag (m_then s)) + Nat.b2n (holds_tag tag f)).
  { destruct (negb (m_done s)); [done | simpl; lia]. }
  destruct (if negb (m_done s) then _ else _) as [then_of_s continuation].
  simpl in Hpair. unfold store.
  pose proof (count_call_and_destroy
                (m_done s && UniqueFunction_bool continuation) continuation
                (snd (store this (set_m_then s then_of_s) w))) as L.
  pose proof (pending_store w this s (set_m_then s then_of_s) Hs) as P.
  unfold store in L, P; simpl in L, P. unfold stores_tag in P; simpl in P.
  unfold invocations in *; simpl in *. lia.
Qed.

Lemma count_resetContinuation (this : nat) (w : World) :
  occurrences (snd (resetContinuation ops this w)) <= occurrences w.
Proof.
  unfold resetContinuation, bind, load.
  destruct (heap w !! this) as [s|] eqn:Hs; [|done].
  pose proof (swap_holds_tag ops (m_then s) UniqueFunction_default)
    as Hswap.
  destruct (UniqueFunction_swap _ _) as [then_of_s continuation].
  simpl in Hswap. unfold store.
  pose proof (count_call_and_destroy false continuation
                (snd (store this (set_m_then s then_of_s) w))) as L.
  pose proof (pending_store w this s (set_m_then s then_of_s) Hs) as P.
  unfold store in L, P; simpl in L, P. unfold stores_tag in P; simpl in P.
  unfold invocations in *; simpl in *.
  change (holds_tag tag UniqueFunction_default) with false in Hswap.
  simpl in Hswap. lia.
Qed.

Lemma count_setAndThrowIfRetrieved (this : nat) (w : World) :
  occurrences (snd (setAndThrowIfRetrieved this w)) <= occurrences w.
Proof.
  unfold setAndThrowIfRetrieved, bind, load.
  destruct (heap w !! this) as [s|] eqn:Hs; [|done].
  pose proof (pending_store_same w this s (set_m_retrieved s true)
                Hs eq_refl) as P.
  unfold store in *; simpl in *.
  destruct (m_retrieved s); unfold invocations; simpl; lia.
Qed.

Lemma count_Promise_setValue (p : Promise) (value : T) (w : World) :
  occurrences (snd (Promise_setValue ops p value w)) <= occurrences w.
Proof.
  destruct p as [[statePtr|]]; unfold Promise_setValue; simpl; [|done].
  apply count_setValue.
Qed.

Lemma count_Promise_setException (p : Promise) (exc : exception_ptr)
  (w : World) :
  occurrences (snd (Promise_setException ops p exc w)) <= occurrences w.
Proof.
  destruct p as [[statePtr|]]; unfold Promise_setException; simpl; [|done].
  apply count_setException.
Qed.

Lemma count_Promise_destroy (p : Promise) (w : World) :
  occurrences (snd (Promise_destroy ops p w)) <= occurrences w.
Proof.
  destruct p as [[statePtr|]]; unfold Promise_destroy; simpl; [|done].
  apply count_resetContinuation.
Qed.

Lemma count_Closure_call (c : Closure) (w : World) :
  occurrences (snd (Closure_call ops c w))
  <= occurrences w + Nat.b2n (closure_tag c =? tag).
Proof.
  destruct c as [tag' size exc|state p f]; simpl.
  - unfold bind. simpl.
    pose proof (invocations_record w tag') as R.
    destruct exc; simpl in *; unfold pending_with_tag in *; simpl; lia.
  - unfold ThenClosure_call, try_catch, bind, Callable_call.
    destruct (Future_get _ w) as [[got fut'] w0].
    pose proof (invocations_record w (callable_tag f)) as R.
    set (w1 := {| heap := heap w; trace := trace w ++ [callable_tag f] |}) in *.
    assert (H1 : occurrences w1
                 <= occurrences w + Nat.b2n (callable_tag f =? tag)).
    { unfold w1, pending_with_tag in *. simpl in *. lia. }
    destruct (callable_body f got) as [value|e|why]; simpl; [| |done].
    + pose proof (count_Promise_setValue p value w1) as L2.
      destruct (Promise_setValue _ _ _ _) as [r2 w2]; simpl in L2.
      destruct r2 as [[]|e|why]; simpl; try lia.
      pose proof (count_Promise_setException p (Some e) w2) as L3.
      destruct (Promise_setException _ _ _ _); simpl in *. lia.
    + pose proof (count_Promise_setException p (Some e) w1) as L3.
      destruct (Promise_setException _ _ _ _); simpl in *. lia.
Qed.

Lemma count_Closure_destroy (c : Closure) (w : World) :
  occurrences (snd (Closure_destroy ops c w)) <= occurrences w.
Proof.
  destruct c as [tag' size exc|state p f]; simpl; [done|].
  apply count_Promise_destroy.
Qed.

End Counting_ops.

Lemma count_closure_ops (fuel : nat) :
  (forall (c : Closure) (w : World),
     occurrences (snd (@call _ _ _ _ (closure_ops fuel) c tt w))
     <= occurrences w + Nat.b2n (closure_tag c =? tag))
  /\ (forall (c : Closure) (w : World),
        occurrences (snd (@destructor _ _ _ _ (closure_ops fuel) c w))
        <= occurrences w).
Proof.
  induction fuel as [|fuel [IHc IHd]]; split; intros c w; simpl; try lia.
  - by apply (count_Closure_call (closure_ops fuel)).
  - by apply (count_Closure_destroy (closure_ops fuel)).
Qed.

Lemma count_bind {A B : Type} (m : M A) (k : A -> M B) (n1 n2 : nat) :
  (forall w, occurrences (snd (m w)) <= occurrences w + n1) ->
  (forall a w, occurrences (snd (k a w)) <= occurrences w + n2) ->
  forall w, occurrences (snd (bind m k w)) <= occurrences w + (n1 + n2).
Proof.
  intros Hm Hk w. unfold bind. specialize (Hm w).
  destruct (m w) as [[a|e|why] w1]; simpl in *; try lia.
  specialize (Hk a w1). lia.
Qed.

Lemma count_Promise_new (w : World) :
  occurrences (snd (@Promise_new T w)) <= occurrences w.
Proof.
  pose proof (pending_make_shared w) as P. unfold Promise_new, bind, ret.
  unfold make_shared in *. simpl in *. unfold invocations. simpl. lia.
Qed.

Lemma count_Promise_getFuture (p : Promise) (w : World) :
  occurrences (snd (Promise_getFuture p w)) <= occurrences w.
Proof.
  destruct p as [[statePtr|]]; unfold Promise_getFuture; simpl; [|done].
  unfold bind. pose proof (count_setAndThrowIfRetrieved statePtr w) as L.
  destruct (setAndThrowIfRetrieved statePtr w) as [r w'].
  by destruct r as [[]| |].
Qed.

Lemma count_Future_then (fuel : nat) (this : Future) (f : Callable T)
  (w : World) :
  occurrences (snd (Future_then fuel this f w))
  <= occurrences w + Nat.b2n (callable_tag f =? tag).
Proof.
  destruct (count_closure_ops fuel) as [Hc Hd].
  unfold Future_then.
  destruct (Future_statePtr this) as [statePtr|]; [|simpl; lia].
  pose proof (count_Promise_new w) as L1.
  destruct (Promise_new w) as [r1 w1]; simpl in L1.
  destruct r1 as [promise|e|why]; simpl; try lia.
  pose proof (count_Promise_getFuture promise w1) as L2.
  destruct (Promise_getFuture promise w1) as [r2 w2]; simpl in L2.
  destruct r2 as [future|e|why]; simpl; try lia.
  - match goal with
    | |- context [bind ?m ?k w2] =>
        assert (L3 : occurrences (snd (bind m k w2))
                     <= occurrences w2
                        + (Nat.b2n (callable_tag f =? tag) + (0 + 0)));
        [|destruct (bind m k w2) as [r3 w3]; simpl in *; lia]
    end.
    apply count_bind.
    + intros w'.
      etransitivity; [by apply (count_setContinuation (closure_ops fuel))|].
      unfold holds_tag; simpl. lia.
    + intros _. apply count_bind.
      * intros w'. rewrite Nat.add_0_r.
        by apply (count_UniqueFunction_destroy (closure_ops fuel)).
      * intros _ w'. rewrite Nat.add_0_r.
        by apply (count_Promise_destroy (closure_ops fuel)).
  - pose proof (count_Promise_destroy (closure_ops fuel) Hc Hd promise w2)
      as L3.
    destruct (Promise_destroy _ _ _) as [r3 w3]; simpl in *. lia.
Qed.

Lemma count_exec (fuel : nat) (o : Op T) (w : World) :
  occurrences (exec fuel o w)
  <= occurrences w + Nat.b2n (attaches tag o).
Proof.
  destruct (count_closure_ops fuel) as [Hc Hd].
  rewrite exec_eq. destruct o; simpl; rewrite ?Nat.add_0_r.
  - pose proof (pending_make_shared w). unfold invocations. simpl in *.
    lia.
  - by apply count_setValue.
  - by apply count_setValue_void.
  - by apply count_setException.
  - etransitivity; [by apply count_setContinuation|].
    destruct continuation as [c|]; simpl.
    + unfold holds_tag, UniqueFunction_of, UniqueFunction_closure; simpl.
      destruct (IsSmall c); simpl; lia.
    + lia.
  - by apply count_resetContinuation.
  - apply count_setAndThrowIfRetrieved.
  - by rewrite getValue_world.
  - by rewrite getValue_void_world.
  - by rewrite wait_world.
  - apply count_Future_then.
Qed.

Lemma count_exec_all (program : list (nat * Op T)) :
  forall w : World,
    never_attaches tag program = true ->
    occurrences (exec_all program w) <= occurrences w.
Proof.
  induction program as [|[fuel o] rest IH]; intros w Hnever; simpl; [done|].
  simpl in Hnever. apply andb_prop in Hnever as [Ho Hrest].
  etransitivity; [by apply IH|].
  pose proof (count_exec fuel o w) as L.
  apply negb_true_iff in Ho. rewrite Ho in L. simpl in L. lia.
Qed.

(** A continuation with a tag that is stored once and was never invoked is
    invoked at most once, whatever follows. *)
Lemma invoked_at_most_once (program : list (nat * Op T)) (w : World) :
  never_attaches tag program = true ->
  invocations tag w + pending_with_tag tag w <= 1 ->
  invocations tag (exec_all program w) <= 1.
Proof.
  intros Hnever Hw. pose proof (count_exec_all program w Hnever). lia.
Qed.

End Counting.

(** ** Destroying closures *)

Section Discards.
Variable T : Type.

Local Abbreviation Closure := (Closure T).
Local Abbreviation SharedState := (SharedState T).
Local Abbreviation World := (World T).

Lemma cell_discards_refl (s : SharedState) : cell_discards s s.
Proof. repeat split. by left. Qed.

Lemma cell_discards_trans (s1 s2 s3 : SharedState) :
  cell_discards s1 s2 -> cell_discards s2 s3 -> cell_discards s1 s3.
Proof.
  intros (D1 & R1 & V1 & E1 & T1) (D2 & R2 & V2 & E2 & T2).
  repeat split; try congruence.
  destruct T2 as [T2|T2]; [|by right].
  destruct T1 as [T1|T1]; [left; congruence | right; by rewrite T2].
Qed.

Lemma discards_refl (w : World) : discards w w.
Proof.
  repeat split. intros this s Hs. exists s. split; [done|].
  apply cell_discards_refl.
Qed.

Lemma discards_trans (w1 w2 w3 : World) :
  discards w1 w2 -> discards w2 w3 -> discards w1 w3.
Proof.
  intros (T1 & L1 & C1) (T2 & L2 & C2). repeat split; try congruence.
  intros this s Hs. destruct (C1 this s Hs) as (s2 & Hs2 & K1).
  destruct (C2 this s2 Hs2) as (s3 & Hs3 & K2).
  exists s3. split; [done | by eapply cell_discards_trans].
Qed.

Lemma discards_store (w : World) (this : nat) (s s' : SharedState) :
  heap w !! this = Some s -> cell_discards s s' ->
  discards w (snd (store this s' w)).
Proof.
  intros Hs K. unfold store; simpl. repeat split; simpl.
  - apply length_insert.
  - intros i si Hi. destruct (decide (this = i)) as [->|Hne].
    + exists s'. rewrite list_lookup_insert_eq by by eapply lookup_lt_Some.
      split; [done | congruence].
    + exists si. rewrite list_lookup_insert_ne by done.
      split; [done | apply cell_discards_refl].
Qed.

Section Discards_ops.
Variable ops : ClosureOps Closure unit unit World.
Hypothesis destructor_discards :
  forall c w, discards w (snd (destructor c w)).

Lemma discards_UniqueFunction_destroy (f : UniqueFunction Closure)
  (w : World) :
  discards w (snd (UniqueFunction_destroy f w)).
Proof.
  destruct f as [[|small] [|c]]; unfold UniqueFunction_destroy; simpl;
    try apply discards_refl.
  specialize (destructor_discards c w).
  by destruct (destructor c w) as [r w'].
Qed.

Lemma discards_destroy_only (f : UniqueFunction Closure) (w : World) :
  discards w (snd (call_and_destroy ops false f w)).
Proof.
  unfold call_and_destroy.
  pose proof (discards_UniqueFunction_destroy f w) as L.
  destruct (UniqueFunction_destroy f w) as [r w']; simpl in L.
  by destruct r as [[]|e|why].
Qed.

Lemma discards_resetContinuation (this : nat) (w : World) :
  discards w (snd (resetContinuation ops this w)).
Proof.
  unfold resetContinuation, bind, load.
  destruct (heap w !! this) as [s|] eqn:Hs; [|apply discards_refl].
  assert (Hempty : UniqueFunction_bool
                     (fst (UniqueFunction_swap (m_then s)
                             (UniqueFunction_default (C:=Closure)))) = false).
  { unfold UniqueFunction_swap.
    destruct (m_movePtr _ _ _) as [tmp st1].
    destruct (m_movePtr _ _ _) as [st2 st3].
    by destruct (m_movePtr _ _ _). }
  destruct (UniqueFunction_swap _ _) as [then_of_s continuation].
  simpl in Hempty. unfold store.
  eapply discards_trans; [|apply discards_destroy_only].
  apply (discards_store w this s _ Hs). repeat split. by right.
Qed.

Lemma discards_Promise_destroy (p : Promise) (w : World) :
  discards w (snd (Promise_destroy ops p w)).
Proof.
  destruct p as [[statePtr|]]; unfold Promise_destroy; simpl;
    [apply discards_resetContinuation | apply discards_refl].
Qed.

Lemma discards_Closure_destroy (c : Closure) (w : World) :
  discards w (snd (Closure_destroy ops c w)).
Proof.
  destruct c as [tag size exc|state p f]; simpl;
    [apply discards_refl | apply discards_Promise_destroy].
Qed.

End Discards_ops.

(** Whatever the fuel, destroying a closure invokes nothing and changes no
    cell but for discarding stored continuations. *)
Lemma discards_closure_destroy (fuel : nat) (c : Closure) (w : World) :
  discards w (snd (closure_destroy fuel c w)).
Proof.
  revert c w. induction fuel as [|fuel IH]; intros c w; simpl;
    [apply discards_refl|].
  by apply (discards_Closure_destroy (closure_ops fuel)).
Qed.

Lemma discards_ops_destructor (fuel : nat) :
  forall (c : Closure) (w : World),
    discards w (snd (@destructor _ _ _ _ (closure_ops fuel) c w)).
Proof. intros c w. apply discards_closure_destroy. Qed.

End Discards.

(** ** A continuation runs once *)

Section Continuation.
Variable T : Type.

Local Abbreviation Closure := (Closure T).
Local Abbreviation SharedState := (SharedState T).
Local Abbreviation World := (World T).

(** With fuel for it, a call of a closure leaves the closure's tag in the
    trace, before anything it sets off. *)
Lemma closure_call_records (fuel : nat) (c : Closure) (w : World) :
  exists t,
    trace (snd (closure_call (S fuel) c w)) = trace w ++ closure_tag c :: t.
Proof.
  destruct (later_closure_ops T fuel) as [Hc Hd].
  simpl. destruct c as [tag size exc|state p f]; simpl.
  - unfold bind; simpl. exists []. by destruct exc.
  - unfold ThenClosure_call, try_catch, bind, Callable_call.
    destruct (Future_get _ w) as [[got fut'] w0].
    set (w1 := {| heap := heap w; trace := trace w ++ [callable_tag f] |}).
    assert (Hext : forall w2, later w1 w2 ->
              exists t, trace w2 = trace w ++ callable_tag f :: t).
    { intros w2 [_ [t E]]. exists t. rewrite E. simpl.
      by rewrite <- app_assoc. }
    destruct (callable_body f got) as [value|e|why]; simpl.
    + pose proof (later_Promise_setValue T (closure_ops fuel) Hc Hd
                    p value w1) as L2.
      change {| sizeof := closure_size (T:=T);
                call := fun c' _ w' => closure_call fuel c' w';
                destructor := fun c' w' => closure_destroy fuel c' w' |}
        with (closure_ops (T:=T) fuel).
      destruct (Promise_setValue _ _ _ _) as [r2 w2]; simpl in L2.
      destruct r2 as [[]|e|why]; simpl; try by apply Hext.
      pose proof (later_Promise_setException T (closure_ops fuel) Hc Hd
                    p (Some e) w2) as L3.
      destruct (Promise_setException _ _ _ _) as [r3 w3]; simpl in *.
      apply Hext. by eapply later_trans.
    + pose proof (later_Promise_setException T (closure_ops fuel) Hc Hd
                    p (Some e) w1) as L3.
      change {| sizeof := closure_size (T:=T);
                call := fun c' _ w' => closure_call fuel c' w';
                destructor := fun c' w' => closure_destroy fuel c' w' |}
        with (closure_ops (T:=T) fuel).
      destruct (Promise_setException _ _ _ _) as [r3 w3]; simpl in *.
      by apply Hext.
    + apply (Hext w1), later_refl.
Qed.

Lemma invocations_recorded (tag : nat) (w w' : World) (t : list nat) :
  trace w' = trace w ++ tag :: t ->
  1 + invocations tag w <= invocations tag w'.
Proof.
  intros E. unfold invocations. rewrite E, count_occ_app; simpl.
  destruct (Nat.eq_dec tag tag); [lia | done].
Qed.

(** Calling and destroying a callable that holds [c]. *)
Lemma call_and_destroy_records (fuel : nat) (f : UniqueFunction Closure)
  (c : Closure) (w : World) :
  target f = Some c ->
  exists t,
    trace (snd (call_and_destroy (closure_ops (S fuel)) true f w))
    = trace w ++ closure_tag c :: t.
Proof.
  intros (small & ->)%target_holds.
  destruct (later_closure_ops T (S fuel)) as [Hc Hd].
  unfold call_and_destroy, UniqueFunction_call.
  cbn [m_vtablePtr m_storage deref Vtable_closure m_invokePtr closure_ops call].
  destruct (closure_call_records fuel c w) as [t E].
  destruct (closure_call (S fuel) c w) as [[r c'] w1]. simpl in E.
  pose proof (later_UniqueFunction_destroy T (closure_ops (S fuel)) Hd
                {| m_vtablePtr := UniqueFunctionVtable small;
                   m_storage := holds c' |} w1) as L.
  destruct (UniqueFunction_destroy _ w1) as [r2 w2]; simpl in L.
  destruct L as [_ [t2 E2]].
  destruct r as [[]|e|why]; simpl.
  - exists (t ++ t2).
    destruct r2; simpl; rewrite E2, E, <- app_assoc; done.
  - exists (t ++ t2).
    destruct r2; simpl; rewrite E2, E, <- app_assoc; done.
  - by exists t.
Qed.

(** Completing a cell that stores [c]. *)
Lemma setStateDoneAndNotify_records (fuel : nat) (this : nat)
  (s : SharedState) (c : Closure) (w : World) :
  heap w !! this = Some s -> target (m_then s) = Some c ->
  exists t,
    trace (snd (setStateDoneAndNotify (closure_ops (S fuel)) this w))
    = trace w ++ closure_tag c :: t.
Proof.
  intros Hs Ht. unfold setStateDoneAndNotify, bind, load. rewrite Hs.
  destruct (target_holds (m_then s) c Ht) as (small & E).
  rewrite E. unfold UniqueFunction_swap, store. simpl.
  destruct (call_and_destroy_records fuel
              {| m_vtablePtr := UniqueFunctionVtable small;
                 m_storage := holds c |} c
              {| heap := <[this := set_m_then (set_m_done s true)
                                     {| m_vtablePtr := EmptyVtable;
                                        m_storage := unset |}]> (heap w);
                 trace := trace w |} eq_refl) as [t Et].
  by exists t.
Qed.

Lemma completion_records (fuel : nat) (this : nat) (s : SharedState)
  (c : Closure) (o : Op T) (w : World) :
  heap w !! this = Some s -> m_done s = false ->
  target (m_then s) = Some c -> completes this o = true ->
  exists t, trace (exec (S fuel) o w) = trace w ++ closure_tag c :: t.
Proof.
  intros Hs Hd Ht Ho. rewrite exec_eq.
  destruct o; simpl in Ho; try done; apply Nat.eqb_eq in Ho as ->.
  - unfold setValue, checkState, bind at 1 2, load. rewrite Hs, Hd.
    unfold ret, bind at 1, load. rewrite Hs. unfold bind, store.
    destruct (setStateDoneAndNotify_records fuel this (set_m_result s (Some result)) c
                {| heap := <[this := set_m_result s (Some result)]> (heap w); trace := trace w |})
      as [t Et]; [|done|by exists t].
    simpl. apply list_lookup_insert_eq. by eapply lookup_lt_Some.
  - unfold setValue_void, checkState, bind at 1 2, load. rewrite Hs, Hd.
    by apply (setStateDoneAndNotify_records fuel this s c).
  - unfold setException, checkState, bind at 1 2, load. rewrite Hs, Hd.
    unfold ret, bind at 1, load. rewrite Hs. unfold bind, store.
    destruct (setStateDoneAndNotify_records fuel this (set_m_exception s exc) c
                {| heap := <[this := set_m_exception s exc]> (heap w); trace := trace w |})
      as [t Et]; [|done|by exists t].
    simpl. apply list_lookup_insert_eq. by eapply lookup_lt_Some.
Qed.

Lemma completes_not_attaches (tag this : nat) (o : Op T) :
  completes this o = true -> attaches tag o = false.
Proof. by destruct o. Qed.

(** Attaching to a cell that is not completed and stores none. *)
Lemma attach_pending (fuel : nat) (this : nat) (s : SharedState)
  (c : Closure) (w : World) :
  heap w !! this = Some s -> m_done s = false ->
  UniqueFunction_bool (m_then s) = false ->
  setContinuation (closure_ops fuel) this
    (@UniqueFunction_closure _ _ _ _ (closure_ops fuel) c) w
  = (Return tt,
     {| heap := <[this := set_m_then s
                            {| m_vtablePtr :=
                                 UniqueFunctionVtable
                                   (closure_size c <=? s_TinyStorageMaxCapacity);
                               m_storage := holds c |}]> (heap w);
        trace := trace w |}).
Proof.
  intros Hs Hd He. apply bool_false_empty in He.
  unfold setContinuation, bind, load. rewrite Hs, Hd. simpl.
  destruct (m_then s) as [vt st]; simpl in He; subst vt.
  unfold UniqueFunction_swap, UniqueFunction_closure, store, call_and_destroy,
    UniqueFunction_destroy, IsSmall; simpl.
  by destruct (closure_size c <=? s_TinyStorageMaxCapacity).
Qed.

(** Attaching to a completed cell. *)
Lemma attach_completed_records (fuel : nat) (this : nat) (s : SharedState)
  (c : Closure) (w : World) :
  heap w !! this = Some s -> m_done s = true ->
  exists t,
    trace (exec (S fuel) (op_setContinuation this (Some c)) w)
    = trace w ++ closure_tag c :: t.
Proof.
  intros Hs Hd. rewrite exec_eq.
  unfold setContinuation, bind, load. rewrite Hs, Hd. simpl.
  rewrite (target_bool _ c (target_closure c)).
  unfold store.
  destruct (call_and_destroy_records fuel
              (@UniqueFunction_closure _ _ _ _ (closure_ops (S fuel)) c) c
              {| heap := <[this := set_m_then s (m_then s)]> (heap w);
                 trace := trace w |} (target_closure c)) as [t E].
  by exists t.
Qed.

(** Replacing or clearing the continuation a cell stores takes it out of
    the count for good. *)
Lemma displaced_count (fuel : nat) (this : nat) (s : SharedState)
  (c : Closure) (o : Op T) (w : World) :
  heap w !! this = Some s -> m_done s = false ->
  target (m_then s) = Some c -> displaces this (closure_tag c) o = true ->
  invocations (closure_tag c) (exec fuel o w)
  + pending_with_tag (closure_tag c) (exec fuel o w) + 1
  <= invocations (closure_tag c) w + pending_with_tag (closure_tag c) w.
Proof.
  intros Hs Hd Ht Ho. destruct (count_closure_ops T (closure_tag c) fuel)
    as [Hc Hdtor].
  destruct (target_holds (m_then s) c Ht) as (small & E).
  assert (Hstored : forall (then_of_s : UniqueFunction Closure),
    holds_tag (closure_tag c) then_of_s = false ->
    invocations (closure_tag c)
      (snd (call_and_destroy (closure_ops fuel) false
              {| m_vtablePtr := UniqueFunctionVtable small;
                 m_storage := holds c |}
              {| heap := <[this := set_m_then s then_of_s]> (heap w);
                 trace := trace w |}))
    + pending_with_tag (closure_tag c)
        (snd (call_and_destroy (closure_ops fuel) false
                {| m_vtablePtr := UniqueFunctionVtable small;
                   m_storage := holds c |}
                {| heap := <[this := set_m_then s then_of_s]> (heap w);
                   trace := trace w |})) + 1
    <= invocations (closure_tag c) w + pending_with_tag (closure_tag c) w).
  { intros then_of_s Hnone.
    pose proof (count_destroy_only T (closure_tag c) (closure_ops fuel)
                  Hdtor
                  {| m_vtablePtr := UniqueFunctionVtable small;
                     m_storage := holds c |}
                  {| heap := <[this := set_m_then s then_of_s]> (heap w);
                     trace := trace w |}) as L.
    pose proof (pending_store T (closure_tag c) w this s
                  (set_m_then s then_of_s) Hs) as P.
    unfold store in P; simpl in P. unfold stores_tag in P; simpl in P.
    rewrite Hnone, E in P. unfold holds_tag in P; simpl in P.
    rewrite Nat.eqb_refl in P. simpl in P.
    unfold invocations in *; simpl in *. lia. }
  rewrite exec_eq.
  destruct o as [| | | |cell continuation|cell| | | | |]; simpl in Ho;
    try done.
  - destruct continuation as [c'|].
    + apply andb_prop in Ho as [->%Nat.eqb_eq Hne%negb_true_iff].
      unfold setContinuation, bind, load. rewrite Hs, Hd, E.
      unfold UniqueFunction_of, UniqueFunction_closure, UniqueFunction_swap,
        store; simpl.
      destruct (IsSmall c'); simpl;
        apply Hstored; unfold holds_tag; simpl; done.
    + apply Nat.eqb_eq in Ho as ->.
      unfold setContinuation, bind, load. rewrite Hs, Hd, E.
      unfold UniqueFunction_of, UniqueFunction_default, UniqueFunction_swap,
        store; simpl.
      by apply Hstored.
  - apply Nat.eqb_eq in Ho as ->.
    unfold resetContinuation, bind, load. rewrite Hs, E.
    unfold UniqueFunction_default, UniqueFunction_swap, store; simpl.
    by apply Hstored.
Qed.

(** X21.  A continuation and calls that do not overlap.  For a
    continuation [c] whose tag was never invoked: attached to a cell that is not completed and stores none, [c] is
    stored and not invoked; the continuation a cell stores when a [setValue]
    or a [setException] completes it is invoked exactly once, by that call;
    attached to a completed cell, [c] is invoked exactly once, by
    [setContinuation] itself; and in both cases the count stays one through
    whatever the program does next, short of attaching such a continuation
    again.  A stored continuation that [setContinuation] replaces or that
    [resetContinuation] clears before the cell completes is never invoked,
    neither by that call nor later. *)
Theorem continuation_runs_once (w : World) (this : nat) (s : SharedState)
  (c : Closure) (fuel : nat) :
  heap w !! this = Some s ->
  invocations (closure_tag c) w = 0 ->
  (m_done s = false -> UniqueFunction_bool (m_then s) = false ->
   trace (exec fuel (op_setContinuation this (Some c)) w) = trace w
   /\ (exists s1,
         heap (exec fuel (op_setContinuation this (Some c)) w) !! this
         = Some s1
         /\ m_done s1 = false /\ target (m_then s1) = Some c)
   /\ (pending_with_tag (closure_tag c) w = 0 ->
       pending_with_tag (closure_tag c)
         (exec fuel (op_setContinuation this (Some c)) w) = 1))
  /\ (m_done s = false -> target (m_then s) = Some c ->
      pending_with_tag (closure_tag c) w = 1 ->
      forall (o : Op T) (program : list (nat * Op T)),
        completes this o = true ->
        never_attaches (closure_tag c) program = true ->
        invocations (closure_tag c) (exec (S fuel) o w) = 1
        /\ invocations (closure_tag c)
             (exec_all program (exec (S fuel) o w)) = 1)
  /\ (m_done s = true -> pending_with_tag (closure_tag c) w = 0 ->
      forall program : list (nat * Op T),
        never_attaches (closure_tag c) program = true ->
        invocations (closure_tag c)
          (exec (S fuel) (op_setContinuation this (Some c)) w) = 1
        /\ invocations (closure_tag c)
             (exec_all program
                (exec (S fuel) (op_setContinuation this (Some c)) w)) = 1)
  /\ (m_done s = false -> target (m_then s) = Some c ->
      pending_with_tag (closure_tag c) w = 1 ->
      forall (o : Op T) (program : list (nat * Op T)),
        displaces this (closure_tag c) o = true ->
        never_attaches (closure_tag c) program = true ->
        invocations (closure_tag c) (exec fuel o w) = 0
        /\ invocations (closure_tag c) (exec_all program (exec fuel o w)) = 0).
Proof.
  intros Hs Hinv.
  assert (Hafter : forall (w' : World) (t : list nat)
                     (program : list (nat * Op T)),
    trace w' = trace w ++ closure_tag c :: t ->
    invocations (closure_tag c) w' + pending_with_tag (closure_tag c) w' <= 1 ->
    never_attaches (closure_tag c) program = true ->
    invocations (closure_tag c) w' = 1
    /\ invocations (closure_tag c) (exec_all program w') = 1).
  { intros w' t program Et Hle Hnever.
    pose proof (invocations_recorded (closure_tag c) w w' t Et) as Hge.
    pose proof (count_exec_all T (closure_tag c) program w' Hnever) as Hall.
    pose proof (invocations_later T (closure_tag c) w' _
                  (later_exec_all T program w')) as Hmono.
    lia. }
  split; [|split; [|split]].
  - intros Hd He. rewrite exec_eq. simpl.
    rewrite (attach_pending fuel this s c w Hs Hd He). simpl.
    assert (Hlook : <[this := set_m_then s
                       {| m_vtablePtr :=
                            UniqueFunctionVtable
                              (closure_size c <=? s_TinyStorageMaxCapacity);
                          m_storage := holds c |}]> (heap w) !! this
                    = Some (set_m_then s
                       {| m_vtablePtr :=
                            UniqueFunctionVtable
                              (closure_size c <=? s_TinyStorageMaxCapacity);
                          m_storage := holds c |})).
    { apply list_lookup_insert_eq. by eapply lookup_lt_Some. }
    split; [done|]. split.
    + eexists. split; [exact Hlook|]. by split.
    + intros Hp.
      pose proof (pending_store T (closure_tag c) w this s
                    (set_m_then s
                       {| m_vtablePtr :=
                            UniqueFunctionVtable
                              (closure_size c <=? s_TinyStorageMaxCapacity);
                          m_storage := holds c |}) Hs) as P.
      unfold store in P; simpl in P.
      unfold stores_tag at 2, holds_tag in P; simpl in P.
      rewrite Nat.eqb_refl in P; simpl in P.
      assert (Hnot : stores_tag (closure_tag c) s = false).
      { destruct (stores_tag (closure_tag c) s) eqn:Est; [|done].
        exfalso. unfold pending_with_tag in Hp.
        apply length_zero_iff_nil in Hp.
        assert (Hin : s ∈ filter (fun s0 => stores_tag (closure_tag c) s0 = true)
                            (heap w)).
        { apply list_elem_of_filter. split; [done|].
          by eapply list_elem_of_lookup_2. }
        rewrite Hp in Hin. by apply not_elem_of_nil in Hin. }
      rewrite Hnot in P. unfold pending_with_tag in *. simpl in *. lia.
  - intros Hd Ht Hp o program Ho Hnever.
    destruct (completion_records fuel this s c o w Hs Hd Ht Ho) as [t Et].
    apply (Hafter _ t program Et); [|done].
    pose proof (count_exec T (closure_tag c) (S fuel) o w) as Hle.
    rewrite (completes_not_attaches (closure_tag c) this o Ho) in Hle.
    simpl in Hle. lia.
  - intros Hd Hp program Hnever.
    destruct (attach_completed_records fuel this s c w Hs Hd) as [t Et].
    apply (Hafter _ t program Et); [|done].
    pose proof (count_exec T (closure_tag c) (S fuel)
                  (op_setContinuation this (Some c)) w) as Hle.
    simpl in Hle. rewrite Nat.eqb_refl in Hle. simpl in Hle. lia.
  - intros Hd Ht Hp o program Ho Hnever.
    pose proof (displaced_count fuel this s c o w Hs Hd Ht Ho) as Hle.
    pose proof (count_exec_all T (closure_tag c) program (exec fuel o w)
                  Hnever) as Hall.
    lia.
Qed.

End Continuation.

(** ** No [broken_promise] *)

Section Clean.
Variable T : Type.

Local Abbreviation Closure := (Closure T).
Local Abbreviation SharedState := (SharedState T).
Local Abbreviation World := (World T).
Local Abbreviation M := (M T).

(** A call is fine when it throws no [broken_promise] and leaves a clean
    world. *)
Local Abbreviation fine r :=
  (throws_broken_promise (fst r) = false /\ clean_world (snd r)).

Lemma clean_world_empty : clean_world (@World_empty T).
Proof. intros this s Hs. done. Qed.

Lemma clean_store (w : World) (this : nat) (s' : SharedState) :
  clean_world w -> clean_cell s' -> clean_world (snd (store this s' w)).
Proof.
  intros Hw Hs' i si; simpl. rewrite list_lookup_insert.
  case_decide; [by intros [= <-] | apply Hw].
Qed.

Lemma clean_make_shared (w : World) :
  clean_world w -> clean_world (snd (@make_shared T w)).
Proof.
  intros Hw i s; simpl. intros [[_ Hs]|[_ <-]]%lookup_snoc_Some.
  - by eapply Hw.
  - by split.
Qed.

Lemma clean_swap {Arg R S : Type} (ops : ClosureOps Closure Arg R S)
  (a b : UniqueFunction Closure) :
  clean_callable_object a -> clean_callable_object b ->
  clean_callable_object (fst (UniqueFunction_swap a b))
  /\ clean_callable_object (snd (UniqueFunction_swap a b)).
Proof.
  destruct a as [[|sa] [|ca]], b as [[|sb] [|cb]];
    unfold UniqueFunction_swap, clean_callable_object; simpl; done.
Qed.

Lemma bind_fine {A B : Type} (m : M A) (k : A -> M B) (w : World) :
  fine (m w) ->
  (forall a w', m w = (Return a, w') -> clean_world w' -> fine (k a w')) ->
  fine (bind m k w).
Proof.
  intros [Hr Hw] Hk. unfold bind.
  destruct (m w) as [[a|e|why] w1]; simpl in *; try done.
  by apply Hk.
Qed.

Section Clean_ops.
Variable ops : ClosureOps Closure unit unit World.
Hypothesis call_clean :
  forall c w,
    clean_world w -> clean_closure c ->
    throws_broken_promise (fst (fst (call c tt w))) = false
    /\ clean_world (snd (call c tt w)).
Hypothesis destructor_clean :
  forall c w, clean_world w -> fine (destructor c w).

Lemma clean_UniqueFunction_call (f : UniqueFunction Closure) (w : World) :
  clean_world w -> clean_callable_object f ->
  throws_broken_promise (fst (fst (UniqueFunction_call f tt w))) = false
  /\ clean_world (snd (UniqueFunction_call f tt w)).
Proof.
  intros Hw Hf.
  destruct f as [[|small] [|c]]; unfold UniqueFunction_call; simpl; try done.
  specialize (call_clean c w Hw Hf).
  by destruct (call c tt w) as [[r c'] w'].
Qed.

Lemma clean_UniqueFunction_destroy (f : UniqueFunction Closure) (w : World) :
  clean_world w -> fine (UniqueFunction_destroy f w).
Proof.
  intros Hw.
  destruct f as [[|small] [|c]]; unfold UniqueFunction_destroy; simpl;
    try done.
  specialize (destructor_clean c w Hw).
  by destruct (destructor c w) as [r w'].
Qed.

Lemma clean_call_and_destroy (b : bool) (f : UniqueFunction Closure)
  (w : World) :
  clean_world w -> clean_callable_object f ->
  fine (call_and_destroy ops b f w).
Proof.
  intros Hw Hf. unfold call_and_destroy.
  assert (L1 : throws_broken_promise
                 (fst (fst (if b then UniqueFunction_call f tt w
                            else (Return tt, f, w)))) = false
               /\ clean_world (snd (if b then UniqueFunction_call f tt w
                                   else (Return tt, f, w)))).
  { destruct b; [by apply clean_UniqueFunction_call | done]. }
  destruct (if b then _ else _) as [[r f'] w1]; simpl in L1.
  destruct L1 as [Hr1 Hw1].
  pose proof (clean_UniqueFunction_destroy f' w1 Hw1) as [Hr2 Hw2].
  destruct (UniqueFunction_destroy f' w1) as [r2 w2]; simpl in *.
  destruct r as [[]|e|why]; simpl; try done;
    by destruct r2 as [[]|e2|why2].
Qed.

Lemma clean_setStateDoneAndNotify (this : nat) (w : World) :
  clean_world w -> fine (setStateDoneAndNotify ops this w).
Proof.
  intros Hw. unfold setStateDoneAndNotify, bind, load.
  destruct (heap w !! this) as [s|] eqn:Hs; [|done].
  destruct (Hw this s Hs) as [He Hthen].
  destruct (clean_swap ops UniqueFunction_default (m_then s) I Hthen)
    as [H1 H2].
  destruct (UniqueFunction_swap _ _) as [then_ then_of_s]. simpl in H1, H2.
  unfold store. apply clean_call_and_destroy; [|done].
  by apply clean_store.
Qed.

Lemma clean_setValue (this : nat) (result : T) (w : World) :
  clean_world w -> fine (setValue ops this result w).
Proof.
  intros Hw. unfold setValue, checkState, bind, load.
  destruct (heap w !! this) as [s|] eqn:Hs; [|done].
  destruct (m_done s) eqn:Hd; simpl; [done|].
  rewrite Hs. unfold store. apply clean_setStateDoneAndNotify.
  apply clean_store; [done|]. apply (Hw this s Hs).
Qed.

Lemma clean_setValue_void (this : nat) (w : World) :
  clean_world w -> fine (setValue_void ops this w).
Proof.
  intros Hw. unfold setValue_void, checkState, bind, load.
  destruct (heap w !! this) as [s|] eqn:Hs; [|done].
  destruct (m_done s) eqn:Hd; simpl; [done|].
  by apply clean_setStateDoneAndNotify.
Qed.

Lemma clean_setException (this : nat) (exc : exception_ptr) (w : World) :
  clean_world w -> clean_exception_ptr exc ->
  fine (setException ops this exc w).
Proof.
  intros Hw Hexc. unfold setException, checkState, bind, load.
  destruct (heap w !! this) as [s|] eqn:Hs; [|done].
  destruct (m_done s) eqn:Hd; simpl; [done|].
  rewrite Hs. unfold store. apply clean_setStateDoneAndNotify.
  apply clean_store; [done|]. destruct (Hw this s Hs). by split.
Qed.

Lemma clean_setContinuation (this : nat) (f : UniqueFunction Closure)
  (w : World) :
  clean_world w -> clean_callable_object f ->
  fine (setContinuation ops this f w).
Proof.
  intros Hw Hf. unfold setContinuation, bind, load.
  destruct (heap w !! this) as [s|] eqn:Hs; [|done].
  destruct (Hw this s Hs) as [He Hthen].
  assert (Hpair :
    clean_callable_object
      (fst (if negb (m_done s) then UniqueFunction_swap (m_then s) f
            else (m_then s, f)))
    /\ clean_callable_object
         (snd (if negb (m_done s) then UniqueFunction_swap (m_then s) f
               else (m_then s, f)))).
  { destruct (negb (m_done s)); [by apply clean_swap | done]. }
  destruct (if negb (m_done s) then _ else _) as [then_of_s continuation].
  destruct Hpair as [H1 H2]. simpl in H1, H2.
  unfold store. apply clean_call_and_destroy; [|done].
  by apply clean_store.
Qed.

Lemma clean_resetContinuation (this : nat) (w : World) :
  clean_world w -> fine (resetContinuation ops this w).
Proof.
  intros Hw. unfold resetContinuation, bind, load.
  destruct (heap w !! this) as [s|] eqn:Hs; [|done].
  destruct (Hw this s Hs) as [He Hthen].
  destruct (clean_swap ops (m_then s) UniqueFunction_default Hthen I)
    as [H1 H2].
  destruct (UniqueFunction_swap _ _) as [then_of_s continuation].
  simpl in H1, H2.
  unfold store. apply clean_call_and_destroy; [|done].
  by apply clean_store.
Qed.

Lemma clean_setAndThrowIfRetrieved (this : nat) (w : World) :
  clean_world w -> fine (setAndThrowIfRetrieved this w).
Proof.
  intros Hw. unfold setAndThrowIfRetrieved, bind, load.
  destruct (heap w !! this) as [s|] eqn:Hs; [|done].
  unfold store.
  assert (L : clean_world (snd (store this (set_m_retrieved s true) w))).
  { apply clean_store; [done|]. apply (Hw this s Hs). }
  by destruct (m_retrieved s).
Qed.

Lemma clean_wait (this : nat) (w : World) :
  clean_world w -> fine (wait this w).
Proof.
  intros Hw. unfold wait, bind, load.
  destruct (heap w !! this) as [s|]; [|done]. by destruct (m_done s).
Qed.

Lemma clean_getValue (this : nat) (w : World) :
  clean_world w -> fine (getValue this w).
Proof.
  intros Hw. unfold getValue, wait, bind, load.
  destruct (heap w !! this) as [s|] eqn:Hs; [|done].
  destruct (m_done s); simpl; [|done]. rewrite Hs.
  destruct (Hw this s Hs) as [He _].
  destruct (m_exception s); [done|]. by destruct (m_result s).
Qed.

Lemma clean_getValue_void (this : nat) (w : World) :
  clean_world w -> fine (getValue_void this w).
Proof.
  intros Hw. unfold getValue_void, wait, bind, load.
  destruct (heap w !! this) as [s|] eqn:Hs; [|done].
  destruct (m_done s); simpl; [|done]. rewrite Hs.
  destruct (Hw this s Hs) as [He _].
  by destruct (m_exception s).
Qed.

Lemma clean_Promise_setValue (p : Promise) (value : T) (w : World) :
  clean_world w -> fine (Promise_setValue ops p value w).
Proof.
  destruct p as [[statePtr|]]; unfold Promise_setValue; simpl; [|done].
  apply clean_setValue.
Qed.

Lemma clean_Promise_setException (p : Promise) (exc : exception_ptr)
  (w : World) :
  clean_world w -> clean_exception_ptr exc ->
  fine (Promise_setException ops p exc w).
Proof.
  destruct p as [[statePtr|]]; unfold Promise_setException; simpl; [|done].
  apply clean_setException.
Qed.

Lemma clean_Promise_destroy (p : Promise) (w : World) :
  clean_world w -> fine (Promise_destroy ops p w).
Proof.
  destruct p as [[statePtr|]]; unfold Promise_destroy; simpl; [|done].
  apply clean_resetContinuation.
Qed.

Lemma clean_Promise_getFuture (p : Promise) (w : World) :
  clean_world w -> fine (Promise_getFuture p w).
Proof.
  intros Hw.
  destruct p as [[statePtr|]]; unfold Promise_getFuture; simpl; [|done].
  unfold bind.
  pose proof (clean_setAndThrowIfRetrieved statePtr w Hw) as [Hr Hw'].
  destruct (setAndThrowIfRetrieved statePtr w) as [r w'].
  by destruct r as [[]| |].
Qed.

Lemma clean_Future_get (this : Future) (w : World) :
  clean_world w ->
  throws_broken_promise (fst (fst (Future_get this w))) = false.
Proof.
  intros Hw. destruct this as [[cell|]]; unfold Future_get; simpl; [|done].
  pose proof (clean_getValue cell w Hw) as [Hr _].
  by destruct (getValue cell w).
Qed.

Lemma clean_Closure_call (c : Closure) (w : World) :
  clean_world w -> clean_closure c ->
  throws_broken_promise (fst (fst (Closure_call ops c w))) = false
  /\ clean_world (snd (Closure_call ops c w)).
Proof.
  intros Hw Hc. destruct c as [tag size exc|state p f]; simpl in *.
  - unfold bind. simpl. by destruct exc.
  - unfold ThenClosure_call, try_catch, bind, Callable_call.
    pose proof (clean_Future_get {| Future_statePtr := state |} w Hw) as Hgot.
    destruct (Future_get _ w) as [[got fut'] w0]. simpl in Hgot.
    set (w1 := {| heap := heap w; trace := trace w ++ [callable_tag f] |}).
    assert (H1 : clean_world w1) by done.
    specialize (Hc got Hgot).
    destruct (callable_body f got) as [value|e|why]; simpl; [| |done].
    + pose proof (clean_Promise_setValue p value w1 H1) as [Hr2 Hw2].
      destruct (Promise_setValue _ _ _ _) as [r2 w2]; simpl in *.
      destruct r2 as [[]|e|why]; simpl; try done.
      pose proof (clean_Promise_setException p (Some e) w2 Hw2 Hr2)
        as [Hr3 Hw3].
      by destruct (Promise_setException _ _ _ _).
    + pose proof (clean_Promise_setException p (Some e) w1 H1 Hc)
        as [Hr3 Hw3].
      by destruct (Promise_setException _ _ _ _).
Qed.

Lemma clean_Closure_destroy (c : Closure) (w : World) :
  clean_world w -> fine (Closure_destroy ops c w).
Proof.
  destruct c as [tag size exc|state p f]; simpl; [done|].
  apply clean_Promise_destroy.
Qed.

End Clean_ops.

Lemma clean_closure_ops (fuel : nat) :
  (forall (c : Closure) (w : World),
     clean_world w -> clean_closure c ->
     throws_broken_promise
       (fst (fst (@call _ _ _ _ (closure_ops fuel) c tt w))) = false
     /\ clean_world (snd (@call _ _ _ _ (closure_ops fuel) c tt w)))
  /\ (forall (c : Closure) (w : World),
        clean_world w ->
        fine (@destructor _ _ _ _ (closure_ops fuel) c w)).
Proof.
  induction fuel as [|fuel [IHc IHd]]; split; intros c w Hw; simpl;
    try done.
  - intros Hc. by apply (clean_Closure_call (closure_ops fuel)).
  - by apply (clean_Closure_destroy (closure_ops fuel)).
Qed.

Lemma clean_Future_then (fuel : nat) (this : Future) (f : Callable T)
  (w : World) :
  clean_world w -> clean_callable f ->
  throws_broken_promise (fst (fst (Future_then fuel this f w))) = false
  /\ clean_world (snd (Future_then fuel this f w)).
Proof.
  intros Hw Hf. destruct (clean_closure_ops fuel) as [Hc Hd].
  unfold Future_then.
  destruct (Future_statePtr this) as [statePtr|]; [|done].
  pose proof (clean_make_shared w Hw) as L1.
  assert (E1 : Promise_new w
               = (Return {| Promise_statePtr := Some (length (heap w)) |},
                  snd (make_shared w))) by done.
  rewrite E1. set (w1 := snd (make_shared w)) in *.
  pose proof (clean_Promise_getFuture
                {| Promise_statePtr := Some (length (heap w)) |} w1 L1)
    as [Hr2 Hw2].
  destruct (Promise_getFuture _ w1) as [r2 w2]; simpl in Hr2, Hw2.
  destruct r2 as [future|e|why]; simpl; try done.
  - match goal with
    | |- context [bind ?m ?k w2] =>
        assert (L3 : fine (bind m k w2));
        [|destruct (bind m k w2) as [r3 w3]; simpl in *;
          by destruct r3 as [[]|e|why]]
    end.
    apply bind_fine.
    + by apply (clean_setContinuation (closure_ops fuel)).
    + intros _ w3 _ Hw3. apply bind_fine.
      * by apply (clean_UniqueFunction_destroy (closure_ops fuel)).
      * intros _ w4 _ Hw4.
        by apply (clean_Promise_destroy (closure_ops fuel)).
  - pose proof (clean_Promise_destroy (closure_ops fuel) Hc Hd
                  {| Promise_statePtr := Some (length (heap w)) |} w2 Hw2)
      as [Hr3 Hw3].
    by destruct (Promise_destroy _ _ _) as [r3 w3].
Qed.

Lemma clean_call_op (fuel : nat) (o : Op T) (w : World) :
  clean_world w -> clean_op o ->
  (forall e, fst (call_op fuel o w) = Some e -> is_broken_promise e = false)
  /\ clean_world (exec fuel o w).
Proof.
  intros Hw Ho. destruct (clean_closure_ops fuel) as [Hc Hd].
  assert (Hthrown : forall (A : Type) (r : Result A) (w' : World),
            fine (r, w') ->
            (forall e, thrown r = Some e -> is_broken_promise e = false)
            /\ clean_world w').
  { intros A r w' [Hr Hw']. split; [|done].
    intros e. destruct r; simpl; try done. by intros [= <-]. }
  unfold exec, call_op. destruct o; simpl in Ho.
  - apply Hthrown. split; [done | by apply clean_make_shared].
  - pose proof (clean_setValue (closure_ops fuel) Hc Hd this result w Hw) as F.
    destruct (setValue _ _ _ _). by apply Hthrown.
  - pose proof (clean_setValue_void (closure_ops fuel) Hc Hd this w Hw) as F.
    destruct (setValue_void _ _ _). by apply Hthrown.
  - pose proof (clean_setException (closure_ops fuel) Hc Hd this exc w Hw Ho)
      as F.
    destruct (setException _ _ _ _). by apply Hthrown.
  - pose proof (clean_setContinuation (closure_ops fuel) Hc Hd this
                  (UniqueFunction_of (closure_ops fuel) continuation) w Hw)
      as F.
    destruct (setContinuation _ _ _ _). apply Hthrown, F.
    destruct continuation as [c|]; [|done].
    unfold clean_callable_object, UniqueFunction_of, UniqueFunction_closure.
    simpl. by destruct (IsSmall c).
  - pose proof (clean_resetContinuation (closure_ops fuel) Hc Hd this w Hw)
      as F.
    destruct (resetContinuation _ _ _). by apply Hthrown.
  - pose proof (clean_setAndThrowIfRetrieved this w Hw) as F.
    destruct (setAndThrowIfRetrieved _ _). by apply Hthrown.
  - pose proof (clean_getValue this w Hw) as F.
    destruct (getValue _ _). by apply Hthrown.
  - pose proof (clean_getValue_void this w Hw) as F.
    destruct (getValue_void _ _). by apply Hthrown.
  - pose proof (clean_wait this w Hw) as F.
    destruct (wait _ _). by apply Hthrown.
  - pose proof (clean_Future_then fuel this f w Hw Ho) as F.
    destruct (Future_then _ _ _ _) as [[r fut] w']. by apply Hthrown.
Qed.

Lemma clean_exec_all (program : list (nat * Op T)) :
  forall w : World,
    clean_world w -> Forall (fun step => clean_op (snd step)) program ->
    clean_world (exec_all program w).
Proof.
  induction program as [|[fuel o] rest IH]; intros w Hw Hall; simpl; [done|].
  inversion Hall as [|? ? Ho Hrest]; subst. simpl in Ho.
  apply IH; [|done]. by apply clean_call_op.
Qed.

End Clean.

(** ** Running calls on cells that were just made

    The cells a scenario makes sit behind the heap [h] it started from; the
    three lemmas below let a call on such a cell compute. *)

Arguments load : simpl never.
Arguments store : simpl never.
Arguments make_shared : simpl never.
Arguments closure_call : simpl never.
Arguments closure_destroy : simpl never.

Section Fresh_cells.
Variable T : Type.

Lemma load_app (h l : list (SharedState T)) (t : list nat) (k : nat) :
  load (length h + k) {| heap := h ++ l; trace := t |}
  = (match l !! k with
     | Some s => Return s
     | None => Hang undefined_behaviour
     end, {| heap := h ++ l; trace := t |}).
Proof.
  unfold load; simpl. rewrite lookup_app_r by lia.
  replace (length h + k - length h) with k by lia. by destruct (l !! k).
Qed.

Lemma store_app (h l : list (SharedState T)) (t : list nat) (k : nat)
  (s : SharedState T) :
  store (length h + k) s {| heap := h ++ l; trace := t |}
  = (Return tt, {| heap := h ++ <[k:=s]> l; trace := t |}).
Proof. unfold store; simpl. by rewrite insert_app_r. Qed.

Lemma make_shared_app (h l : list (SharedState T)) (t : list nat) :
  make_shared {| heap := h ++ l; trace := t |}
  = (Return (length h + length l),
     {| heap := h ++ (l ++ [SharedState_default]); trace := t |}).
Proof. unfold make_shared; simpl. by rewrite length_app, app_assoc. Qed.

(** One unit of fuel, spent. *)
Lemma closure_call_S (fuel : nat) (c : Closure T) (w : World T) :
  closure_call (S fuel) c w = Closure_call (closure_ops fuel) c w.
Proof. reflexivity. Qed.

Lemma closure_destroy_S (fuel : nat) (c : Closure T) (w : World T) :
  closure_destroy (S fuel) c w = Closure_destroy (closure_ops fuel) c w.
Proof. reflexivity. Qed.

Lemma bind_Return {A B : Type} (m : M T A) (k : A -> M T B) (w w' : World T)
  (a : A) :
  m w = (Return a, w') -> bind m k w = k a w'.
Proof. intros E. unfold bind. by rewrite E. Qed.

End Fresh_cells.

Ltac unfold_calls :=
  unfold closure_ops, Promise_new, Promise_getFuture, Promise_setValue,
    Promise_setValue_void, Promise_setException, Promise_destroy,
    Promise_move, Future_get, Future_get_void, Future_wait, Future_then,
    Future_share, Future_valid, Future_default,
    SharedFuture_get, SharedFuture_get_void, SharedFuture_wait,
    setValue, setValue_void, setException, setContinuation,
    resetContinuation, setAndThrowIfRetrieved, getValue, getValue_void, wait,
    checkState, setStateDoneAndNotify, call_and_destroy,
    UniqueFunction_swap, UniqueFunction_call, UniqueFunction_destroy,
    UniqueFunction_move, UniqueFunction_bool, UniqueFunction_closure,
    UniqueFunction_default, UniqueFunction_of,
    Closure_call, Closure_destroy, ThenClosure_call, Callable_call,
    with_handle, try_catch, bind, ret, throw, hang, record in *.

Ltac run_calls :=
  repeat (first [ rewrite load_app | rewrite store_app
                | rewrite make_shared_app
                | rewrite closure_call_S | rewrite closure_destroy_S
                | progress unfold_calls | progress cbn ]).

(** The first call of a scenario returns; go on with the rest. *)
Ltac next_call :=
  eapply eq_trans; [apply bind_Return; run_calls; reflexivity|]; cbv beta.

(** Start from any world, seen as its heap followed by no fresh cell yet. *)
Ltac from_world w :=
  let h := fresh "h" in
  let t := fresh "t" in
  destruct w as [h t]; rewrite <- (app_nil_r h).

Section Round_trip.
Variable T : Type.

Local Abbreviation World := (World T).

(** C4.  Whatever the world, and whatever the value [x] (the specification's
    42 is one): on a new [Promise], [setValue(x)], then [getFuture()], then
    [get()] on the [Future] returns [x]; and so does [getFuture()], then
    [setValue(x)], then [get()]. *)
Theorem round_trip (w : World) (fuel : nat) (x : T) :
  (exists promise w1 w2 future w3,
     Promise_new w = (Return promise, w1)
     /\ Promise_setValue (closure_ops fuel) promise x w1 = (Return tt, w2)
     /\ Promise_getFuture promise w2 = (Return future, w3)
     /\ Future_get future w3 = (Return x, Future_default, w3))
  /\ (exists promise w1 future w2 w3,
        Promise_new w = (Return promise, w1)
        /\ Promise_getFuture promise w1 = (Return future, w2)
        /\ Promise_setValue (closure_ops fuel) promise x w2 = (Return tt, w3)
        /\ Future_get future w3 = (Return x, Future_default, w3)).
Proof.
  from_world w. split.
  - do 5 eexists. split; [|split; [|split]].
    + run_calls. reflexivity.
    + run_calls. reflexivity.
    + run_calls. reflexivity.
    + run_calls. reflexivity.
  - do 5 eexists. split; [|split; [|split]].
    + run_calls. reflexivity.
    + run_calls. reflexivity.
    + run_calls. reflexivity.
    + run_calls. reflexivity.
Qed.

End Round_trip.

Section Handles_facts.
Variable T : Type.

Local Abbreviation Closure := (Closure T).
Local Abbreviation SharedState := (SharedState T).
Local Abbreviation World := (World T).

(** [getFuture] on a cell that was retrieved before. *)
Lemma retrieved_getFuture (w : World) (this : nat) (s : SharedState) :
  heap w !! this = Some s -> m_retrieved s = true ->
  Promise_getFuture {| Promise_statePtr := Some this |} w
  = (Throw (FutureError future_already_retrieved), w).
Proof.
  intros Hs Hr. unfold Promise_getFuture, setAndThrowIfRetrieved, bind, load.
  simpl. rewrite Hs. unfold store. rewrite Hr.
  replace (set_m_retrieved s true) with s
    by (destruct s; simpl in *; by subst).
  rewrite list_insert_id by done. by destruct w.
Qed.

(** [getFuture] that returns leaves the cell retrieved. *)
Lemma getFuture_cell (w w1 : World) (promise : Promise) (future : Future) :
  Promise_getFuture promise w = (Return future, w1) ->
  exists this s1,
    Promise_statePtr promise = Some this
    /\ Future_statePtr future = Some this
    /\ heap w1 !! this = Some s1 /\ m_retrieved s1 = true.
Proof.
  destruct promise as [[this|]]; unfold Promise_getFuture; simpl; [|done].
  unfold setAndThrowIfRetrieved, bind, load.
  destruct (heap w !! this) as [s|] eqn:Hs; [|done].
  unfold store. destruct (m_retrieved s); [done|]. intros [= <- <-].
  exists this, (set_m_retrieved s true). repeat split; try done.
  simpl. apply list_lookup_insert_eq. by eapply lookup_lt_Some.
Qed.

(** A new promise, and the first [getFuture] on it. *)
Lemma new_promise_getFuture (w : World) :
  exists promise w1 w2,
    Promise_new w = (Return promise, w1)
    /\ Promise_getFuture promise w1
       = (Return {| Future_statePtr := Promise_statePtr promise |}, w2)
    /\ Promise_statePtr promise = Some (length (heap w))
    /\ Promise_getFuture promise w2
       = (Throw (FutureError future_already_retrieved), w2).
Proof.
  from_world w. do 3 eexists. split; [|split; [|split]].
  - run_calls. reflexivity.
  - run_calls. reflexivity.
  - simpl. by rewrite !app_nil_r, Nat.add_0_r.
  - run_calls. reflexivity.
Qed.

(** C6.  For every result type (the members of [Promise<void>] involved are
    those of [Promise<T>] word for word): on a new [Promise] the first
    [getFuture()] returns a [Future] over the promise's cell; and whenever
    [getFuture()] has returned on a promise, then after any further calls of
    the program [getFuture()] on that promise throws
    [future_already_retrieved] and changes nothing. *)
Theorem getFuture_once (w : World) :
  (exists promise w1 w2,
     Promise_new w = (Return promise, w1)
     /\ Promise_getFuture promise w1
        = (Return {| Future_statePtr := Promise_statePtr promise |}, w2)
     /\ Promise_statePtr promise = Some (length (heap w))
     /\ Promise_getFuture promise w2
        = (Throw (FutureError future_already_retrieved), w2))
  /\ (forall (promise : Promise) (future : Future) (w1 : World)
        (program : list (nat * Op T)),
        Promise_getFuture promise w = (Return future, w1) ->
        Future_statePtr future = Promise_statePtr promise
        /\ Promise_getFuture promise (exec_all program w1)
           = (Throw (FutureError future_already_retrieved),
              exec_all program w1)).
Proof.
  split; [apply new_promise_getFuture|].
  - intros promise future w1 program Hrun.
    destruct (getFuture_cell w w1 promise future Hrun)
      as (this & s1 & Hp & Hf & Hs1 & Hr1).
    split; [congruence|].
    destruct (later_exec_all T program w1) as [Hcells _].
    destruct (Hcells this s1 Hs1) as (s2 & Hs2 & [_ Hr2]).
    destruct promise as [p]; simpl in Hp; subst p.
    by apply (retrieved_getFuture _ this s2 Hs2), Hr2.
Qed.

(** C7.  [get], [share] and [then] leave the [Future] they are called on
    without a cell ([valid()] is false afterwards); [wait] leaves the handle
    as it was, so a valid one stays valid; and on a [Future] without a cell,
    default-constructed or consumed by one of the three, [get], [wait] and
    [then] throw [no_state] and change nothing. *)
Theorem handle_validity (this : Future) (w : World) (fuel : nat)
  (f : Callable T) :
  Future_valid (snd (fst (Future_get this w))) = false
  /\ Future_valid (snd (Future_share this)) = false
  /\ Future_valid (snd (fst (Future_then fuel this f w))) = false
  /\ snd (fst (Future_wait this w)) = this
  /\ snd (fst (Future_get this w)) = Future_default
  /\ snd (Future_share this) = Future_default
  /\ snd (fst (Future_then fuel this f w)) = Future_default
  /\ Future_valid Future_default = false
  /\ Future_get Future_default w
     = (Throw (FutureError no_state), Future_default, w)
  /\ Future_wait Future_default w
     = (Throw (FutureError no_state), Future_default, w)
  /\ Future_then fuel Future_default f w
     = (Throw (FutureError no_state), Future_default, w).
Proof.
  assert (Hget : snd (fst (Future_get this w)) = Future_default).
  { destruct this as [[cell|]]; unfold Future_get; simpl; [|done].
    by destruct (getValue cell w). }
  assert (Hthen : snd (fst (Future_then fuel this f w)) = Future_default).
  { destruct this as [[cell|]]; [|done].
    destruct (new_promise_getFuture w) as (promise & w1 & w2 & E1 & E2 & _).
    unfold Future_then; cbn [Future_statePtr]. rewrite E1, E2; simpl.
    by destruct (bind _ _ w2) as [r w3]. }
  rewrite Hget, Hthen. repeat split.
  destruct this as [[cell|]]; unfold Future_wait; simpl; [|done].
  by destruct (wait cell w).
Qed.

(** C10.  [get] on a [Future] whose cell holds an exception throws it and
    still leaves the [Future] without a cell, so a second [get] throws
    [no_state]; a [get] leaves the handle as it was exactly when the handle
    had no cell, that is on the [no_state] path. *)
Theorem get_consumes_on_error (w : World) (cell : nat) (s : SharedState)
  (e : Exception) :
  heap w !! cell = Some s -> m_done s = true -> m_exception s = Some e ->
  let this := {| Future_statePtr := Some cell |} in
  Future_get this w = (Throw e, Future_default, w)
  /\ Future_valid (snd (fst (Future_get this w))) = false
  /\ Future_get (snd (fst (Future_get this w))) w
     = (Throw (FutureError no_state), Future_default, w)
  /\ (forall (other : Future) (w' : World),
        snd (fst (Future_get other w')) = other
        <-> Future_valid other = false).
Proof.
  intros Hs Hd He this.
  assert (Hget : Future_get this w = (Throw e, Future_default, w)).
  { unfold Future_get; simpl.
    by rewrite (completed_getValue T w cell s Hs Hd), He. }
  rewrite Hget; simpl. repeat split; try done.
  - destruct other as [[c|]]; unfold Future_get; simpl; [|done].
    destruct (getValue c w'). simpl. discriminate.
  - destruct other as [[c|]]; unfold Future_get; simpl; [done|].
    by intros _.
Qed.

(** C5.  Once [setException] with a captured exception [e] has returned on
    a cell, then after any further calls of the program [get] on a [Future]
    or a [SharedFuture] over that cell, of the primary template or of the
    [void] specialization, throws [e] itself, and returns no value. *)
Theorem exception_propagates (w w1 : World) (fuel : nat) (this : nat)
  (e : Exception) (program : list (nat * Op T)) :
  setException (closure_ops fuel) this (Some e) w = (Return tt, w1) ->
  let w2 := exec_all program w1 in
  Future_get {| Future_statePtr := Some this |} w2
  = (Throw e, Future_default, w2)
  /\ SharedFuture_get {| SharedFuture_statePtr := Some this |} w2
     = (Throw e, w2)
  /\ Future_get_void {| Future_statePtr := Some this |} w2
     = (Throw e, Future_default, w2)
  /\ SharedFuture_get_void {| SharedFuture_statePtr := Some this |} w2
     = (Throw e, w2).
Proof.
  intros Hrun w2.
  destruct (setException_cell T fuel w w1 this (Some e) Hrun)
    as (s1 & Hs1 & Hd1 & He1).
  destruct (later_done T _ _ this s1 (later_exec_all T program w1) Hs1 Hd1)
    as (s2 & Hs2 & Hd2 & Hr2 & He2).
  fold w2 in Hs2. rewrite He1 in He2.
  unfold Future_get, Future_get_void, SharedFuture_get, SharedFuture_get_void;
    simpl.
  rewrite (completed_getValue T w2 this s2 Hs2 Hd2).
  rewrite (completed_getValue_void T w2 this s2 Hs2 Hd2).
  by rewrite He2.
Qed.

End Handles_facts.

Section Chaining.
Variable T : Type.

Local Abbreviation World := (World T).

(** The chain of two continuations, run: each function object is called
    once, [g] before [h], and the last [Future] gives what [h] makes of what
    [g] makes of the value. *)
Lemma then_then_runs (w : World) (fuel : nat) (g h : Callable T) (v : T) :
  comes_back (callable_body g (Return v)) ->
  comes_back (callable_body h (callable_body g (Return v))) ->
  exists w',
    then_then (S (S fuel)) g h v w
    = (callable_body h (callable_body g (Return v)), w')
    /\ trace w' = trace w ++ [callable_tag g; callable_tag h].
Proof.
  intros Hg Hh. from_world w. unfold then_then.
  destruct (callable_body g (Return v)) as [a|e|why] eqn:Eg; [| |done];
    destruct (callable_body h _) as [b|e'|why] eqn:Eh; try done;
    (eexists; split;
     [ do 4 next_call;
       (eapply eq_trans;
        [ apply bind_Return;
          repeat (first [rewrite Eg | rewrite Eh | progress run_calls]);
          reflexivity |]); cbv beta;
       run_calls; reflexivity
     | simpl; by rewrite <- app_assoc ]).
Qed.

(** C2, as the code has it.  After [getFuture().then(g).then(h)] on a new
    promise and [setValue(v)], [g] and [h] have each been called once, [g]
    first, and [get()] on the last [Future] does what [h] does with a
    [Future] holding the outcome of [g] on a [Future] holding [v].  So with
    function objects that call [get()] and apply [G] and [H] to the value, it
    gives [H (G v)].  When [g] throws, [h] is called all the same, on a
    [Future] whose [get()] throws what [g] threw; the last [get()] throws it
    again when [h] lets it pass, as a function object that only calls
    [get()] does, and gives what [h] gives otherwise. *)
Theorem then_chain (w : World) (fuel : nat) (g h : Callable T) (v : T) :
  (comes_back (callable_body g (Return v)) ->
   comes_back (callable_body h (callable_body g (Return v))) ->
   exists w',
     then_then (S (S fuel)) g h v w
     = (callable_body h (callable_body g (Return v)), w')
     /\ trace w' = trace w ++ [callable_tag g; callable_tag h])
  /\ (forall (tag_g tag_h : nat) (G H : T -> Result T) (a : T),
        G v = Return a -> comes_back (H a) ->
        exists w',
          then_then (S (S fuel)) (of_function tag_g G) (of_function tag_h H)
            v w
          = (H a, w')
          /\ trace w' = trace w ++ [tag_g; tag_h])
  /\ (forall e : Exception,
        callable_body g (Return v) = Throw e ->
        comes_back (callable_body h (Throw e)) ->
        exists w',
          then_then (S (S fuel)) g h v w = (callable_body h (Throw e), w')
          /\ trace w' = trace w ++ [callable_tag g; callable_tag h])
  /\ (forall (e : Exception) (tag_h : nat) (H : T -> Result T),
        callable_body g (Return v) = Throw e ->
        exists w',
          then_then (S (S fuel)) g (of_function tag_h H) v w = (Throw e, w')
          /\ trace w' = trace w ++ [callable_tag g; tag_h]).
Proof.
  split; [apply then_then_runs|]. split; [|split].
  - intros tag_g tag_h G H a HG HH.
    destruct (then_then_runs w fuel (of_function tag_g G)
                (of_function tag_h H) v) as (w' & E & Ht); simpl.
    + by rewrite HG.
    + by rewrite HG.
    + exists w'. simpl in E. by rewrite HG in E.
  - intros e Hg Hh.
    destruct (then_then_runs w fuel g h v) as (w' & E & Ht).
    + by rewrite Hg.
    + by rewrite Hg.
    + exists w'. by rewrite Hg in E.
  - intros e tag_h H Hg.
    destruct (then_then_runs w fuel g (of_function tag_h H) v)
      as (w' & E & Ht).
    + by rewrite Hg.
    + by rewrite Hg.
    + exists w'. rewrite Hg in E. by simpl in *.
Qed.

End Chaining.

(** ** Destroying a promise *)

Section Promise_destroyed.
Variable T : Type.

Local Abbreviation Closure := (Closure T).
Local Abbreviation SharedState := (SharedState T).
Local Abbreviation World := (World T).

(** [~Promise()] on a promise that holds a cell: nothing is invoked, the cell
    stores no continuation afterwards, and is otherwise as it was. *)
Lemma Promise_destroy_cell (fuel : nat) (w : World) (this : nat)
  (s : SharedState) :
  heap w !! this = Some s ->
  trace (snd (Promise_destroy (closure_ops fuel)
                {| Promise_statePtr := Some this |} w)) = trace w
  /\ exists s',
       heap (snd (Promise_destroy (closure_ops fuel)
                    {| Promise_statePtr := Some this |} w)) !! this = Some s'
       /\ UniqueFunction_bool (m_then s') = false
       /\ m_done s' = m_done s /\ m_result s' = m_result s
       /\ m_exception s' = m_exception s.
Proof.
  intros Hs. unfold Promise_destroy; simpl.
  unfold resetContinuation, bind, load. rewrite Hs.
  assert (Hempty : UniqueFunction_bool
                     (fst (UniqueFunction_swap (H:=closure_ops fuel)
                             (m_then s) UniqueFunction_default)) = false).
  { unfold UniqueFunction_swap.
    destruct (m_movePtr _ _ _) as [tmp st1].
    destruct (m_movePtr _ _ _) as [st2 st3].
    by destruct (m_movePtr _ _ _). }
  destruct (UniqueFunction_swap _ _) as [then_of_s continuation].
  simpl in Hempty. unfold store.
  pose proof (discards_destroy_only T (closure_ops fuel)
                (discards_ops_destructor T fuel) continuation
                {| heap := <[this := set_m_then s then_of_s]> (heap w);
                   trace := trace w |}) as (Ht & _ & Hcells).
  split; [done|].
  destruct (Hcells this (set_m_then s then_of_s))
    as (s' & Hs' & Hd & _ & Hr & He & Hthen).
  { simpl. apply list_lookup_insert_eq. by eapply lookup_lt_Some. }
  exists s'. split; [done|]. split; [|by repeat split].
  destruct Hthen as [-> | Hb]; done.
Qed.

(** C8.  Destroying a [Promise] that holds a cell invokes nothing and leaves
    the cell without a stored continuation, its flags and outcome untouched.
    No call of a program throws an exception of the [broken_promise] code,
    unless the caller supplied one (in [setException], from a closure or
    from a function object).  And after [getFuture().then(g)] on a new
    promise, destroying the promise leaves [g] uninvoked and the [Future] of
    [then] over a cell that is not completed: [get()] on it waits for ever,
    and throws nothing. *)
Theorem promise_destroyed_unfulfilled (w : World) (fuel : nat)
  (g : Callable T) :
  (forall (this : nat) (s : SharedState),
     heap w !! this = Some s ->
     trace (snd (Promise_destroy (closure_ops fuel)
                   {| Promise_statePtr := Some this |} w)) = trace w
     /\ exists s',
          heap (snd (Promise_destroy (closure_ops fuel)
                       {| Promise_statePtr := Some this |} w)) !! this
          = Some s'
          /\ UniqueFunction_bool (m_then s') = false
          /\ m_done s' = m_done s /\ m_result s' = m_result s
          /\ m_exception s' = m_exception s)
  /\ (forall (program : list (nat * Op T)) (o : Op T) (e : Exception),
        Forall (fun step => clean_op (snd step)) program -> clean_op o ->
        fst (call_op fuel o (exec_all program World_empty)) = Some e ->
        e <> FutureError broken_promise)
  /\ (exists promise w1 future w2 future_g w3 w4,
        Promise_new w = (Return promise, w1)
        /\ Promise_getFuture promise w1 = (Return future, w2)
        /\ Future_then fuel future g w2
           = (Return future_g, Future_default, w3)
        /\ Promise_destroy (closure_ops (S fuel)) promise w3
           = (Return tt, w4)
        /\ trace w4 = trace w
        /\ Future_get future_g w4
           = (Hang blocks_forever, Future_default, w4)).
Proof.
  split; [|split].
  - intros this s Hs. by apply Promise_destroy_cell.
  - intros program o e Hprogram Ho He ->.
    assert (Hw : clean_world (exec_all program (@World_empty T)))
      by (apply clean_exec_all; [apply clean_world_empty | done]).
    destruct (clean_call_op T fuel o _ Hw Ho) as [Hno _].
    by specialize (Hno _ He).
  - from_world w. do 7 eexists. split; [|split; [|split; [|split; [|split]]]].
    + run_calls. reflexivity.
    + run_calls. reflexivity.
    + run_calls. reflexivity.
    + run_calls. reflexivity.
    + reflexivity.
    + run_calls. reflexivity.
Qed.

End Promise_destroyed.

(* ================================================================== *)
(** * Further properties of the code *)

(** ** UniqueFunction: the members besides the call operator *)

Section UniqueFunction_members.
Context {C Arg R S : Type} `{ClosureOps C Arg R S}.

(** A well-formed instance has the empty table, or a closure's table and
    the closure. *)
Lemma wf_cases (this : UniqueFunction C) :
  UniqueFunction_wf this ->
  this = {| m_vtablePtr := EmptyVtable; m_storage := m_storage this |}
  \/ exists small c,
       this = {| m_vtablePtr := UniqueFunctionVtable small;
                 m_storage := holds c |}.
Proof.
  destruct this as [[|small] [|c]]; unfold UniqueFunction_wf; simpl; intros Hwf.
  - by left.
  - by left.
  - exfalso. by apply Hwf.
  - right. by exists small, c.
Qed.

(** X1.  [operator=(UniqueFunction&&)] on two distinct, well-formed
    instances: the closure [this] held is destroyed, and nothing else
    touches the program state; [this] then holds what [other] held, a closure
    or nothing; and [other] is left empty. *)
Theorem move_assign_takes_over (this other : UniqueFunction C) (s : S) :
  UniqueFunction_wf this -> UniqueFunction_wf other ->
  (fst (fst (fst (UniqueFunction_move_assign this other s))),
   snd (UniqueFunction_move_assign this other s)) = destroys this s
  /\ target (snd (fst (fst (UniqueFunction_move_assign this other s))))
     = target other
  /\ UniqueFunction_bool (snd (fst (UniqueFunction_move_assign this other s)))
     = false
  /\ target (snd (fst (UniqueFunction_move_assign this other s))) = None.
Proof.
  intros [Ethis | (small & c & Ethis)]%wf_cases
         [Eother | (small' & c' & Eother)]%wf_cases;
    rewrite Ethis, Eother;
    unfold UniqueFunction_move_assign, destroys, target; simpl;
    try destruct (destructor c s); simpl;
    try destruct (m_storage this); try destruct (m_storage other); done.
Qed.

(** X2.  [swap] on two distinct, well-formed instances exchanges what they
    hold: each ends up with the other's closure, or with nothing when the
    other was empty, so [operator bool] is exchanged too; and swapping
    again gives every closure back. *)
Theorem swap_exchanges (this other : UniqueFunction C) :
  UniqueFunction_wf this -> UniqueFunction_wf other ->
  target (fst (UniqueFunction_swap this other)) = target other
  /\ target (snd (UniqueFunction_swap this other)) = target this
  /\ UniqueFunction_bool (fst (UniqueFunction_swap this other))
     = UniqueFunction_bool other
  /\ UniqueFunction_bool (snd (UniqueFunction_swap this other))
     = UniqueFunction_bool this
  /\ target (fst (UniqueFunction_swap
                    (fst (UniqueFunction_swap this other))
                    (snd (UniqueFunction_swap this other)))) = target this
  /\ target (snd (UniqueFunction_swap
                    (fst (UniqueFunction_swap this other))
                    (snd (UniqueFunction_swap this other)))) = target other.
Proof.
  intros [Ethis | (small & c & Ethis)]%wf_cases
         [Eother | (small' & c' & Eother)]%wf_cases;
    rewrite Ethis, Eother; unfold UniqueFunction_swap, target; simpl;
    try destruct (m_storage this); try destruct (m_storage other); done.
Qed.

(** X3.  [operator=(std::nullptr_t)] destroys the closure the instance
    holds, if any, and leaves the instance empty: [operator bool] is false,
    a call throws [std::bad_function_call] and changes nothing, and the
    instance's own destructor has nothing left to destroy. *)
Theorem assign_nullptr_destroys (this : UniqueFunction C) (s s1 : S)
  (arg : Arg) :
  UniqueFunction_wf this ->
  (fst (fst (UniqueFunction_assign_nullptr this s)),
   snd (UniqueFunction_assign_nullptr this s)) = destroys this s
  /\ UniqueFunction_bool (snd (fst (UniqueFunction_assign_nullptr this s)))
     = false
  /\ UniqueFunction_call (snd (fst (UniqueFunction_assign_nullptr this s)))
       arg s1
     = (Throw bad_function_call,
        snd (fst (UniqueFunction_assign_nullptr this s)), s1)
  /\ UniqueFunction_destroy
       (snd (fst (UniqueFunction_assign_nullptr this s))) s1
     = (Return tt, s1).
Proof.
  intros [Ethis | (small & c & Ethis)]%wf_cases; rewrite Ethis;
    unfold UniqueFunction_assign_nullptr, destroys, target; simpl;
    try destruct (destructor c s); simpl;
    try destruct (m_storage this); done.
Qed.

(** X4.  [~UniqueFunction()] runs the destructor of the closure the
    instance holds, and does nothing on an empty instance.  So a closure is
    destroyed once however it travelled: after a move construction the new
    instance destroys it and the one moved from destroys nothing; after a
    [swap] each instance destroys what the other held. *)
Theorem destroyed_once (this other : UniqueFunction C) (s : S) :
  UniqueFunction_wf this -> UniqueFunction_wf other ->
  UniqueFunction_destroy this s = destroys this s
  /\ UniqueFunction_destroy (fst (UniqueFunction_move this)) s
     = destroys this s
  /\ UniqueFunction_destroy (snd (UniqueFunction_move this)) s
     = (Return tt, s)
  /\ UniqueFunction_destroy (fst (UniqueFunction_swap this other)) s
     = destroys other s
  /\ UniqueFunction_destroy (snd (UniqueFunction_swap this other)) s
     = destroys this s.
Proof.
  intros [Ethis | (small & c & Ethis)]%wf_cases
         [Eother | (small' & c' & Eother)]%wf_cases;
    rewrite Ethis, Eother;
    unfold UniqueFunction_destroy, UniqueFunction_move, UniqueFunction_swap,
      destroys, target; simpl;
    try destruct (destructor c s); try destruct (destructor c' s); simpl;
    try destruct (m_storage this); try destruct (m_storage other); done.
Qed.

(** X5.  [operator bool] tells whether a call reaches a closure: when it is
    true the instance holds a closure, and a call is a call of that closure;
    when it is false a call throws [std::bad_function_call] and changes
    nothing.  The four comparisons with [nullptr] say the same: [==] on
    either side is the negation of [operator bool], [!=] is [operator bool]
    itself. *)
Theorem bool_tells_callable (this : UniqueFunction C) (arg : Arg) (s : S) :
  UniqueFunction_wf this ->
  (UniqueFunction_bool this = true ->
   exists c this',
     target this = Some c
     /\ UniqueFunction_call this arg s
        = (fst (fst (call c arg s)), this', snd (call c arg s))
     /\ target this' = Some (snd (fst (call c arg s))))
  /\ (UniqueFunction_bool this = false ->
      UniqueFunction_call this arg s = (Throw bad_function_call, this, s))
  /\ UniqueFunction_eq_nullptr this = negb (UniqueFunction_bool this)
  /\ UniqueFunction_ne_nullptr this = UniqueFunction_bool this
  /\ nullptr_eq this = negb (UniqueFunction_bool this)
  /\ nullptr_ne this = UniqueFunction_bool this.
Proof.
  intros Hwf. split; [|split; [|done]].
  - intros Hb. destruct (wf_cases this Hwf) as [E | (small & c & E)].
    + rewrite E in Hb. done.
    + assert (Ht : target this = Some c) by (by rewrite E).
      destruct (call_target this c arg s Ht) as (this' & Ecall & Ht' & _).
      by exists c, this'.
  - apply call_empty.
Qed.

End UniqueFunction_members.

(** ** Error codes *)

(** X14.  The four error codes have four different messages: the message
    of a [FutureError], which is [toString] of its code, tells the code. *)
Theorem toString_injective (a b : FutureErrorCode) :
  what (FutureError a) = what (FutureError b) -> a = b.
Proof. destruct a, b; simpl; intros E; try done; discriminate E. Qed.

(** ** A completed cell *)

Section Terminal.
Variable T : Type.

Local Abbreviation SharedState := (SharedState T).
Local Abbreviation World := (World T).

(** X6.  A completed cell is final, however it was completed: after any
    further calls, [wait] returns at once (on the cell, and through a
    [Future], which stays valid), [getValue] gives what it gave before and
    changes nothing, and [setValue] and [setException] throw
    [promise_already_satisfied] and change nothing. *)
Theorem completed_is_terminal (w : World) (this : nat) (s : SharedState)
  (program : list (nat * Op T)) :
  heap w !! this = Some s -> m_done s = true ->
  let w' := exec_all program w in
  wait this w' = (Return tt, w')
  /\ Future_wait {| Future_statePtr := Some this |} w'
     = (Return tt, {| Future_statePtr := Some this |}, w')
  /\ getValue this w' = (fst (getValue this w), w')
  /\ getValue_void this w' = (fst (getValue_void this w), w')
  /\ (forall fuel y,
        setValue (closure_ops fuel) this y w'
        = (Throw (FutureError promise_already_satisfied), w'))
  /\ (forall fuel,
        setValue_void (closure_ops fuel) this w'
        = (Throw (FutureError promise_already_satisfied), w'))
  /\ (forall fuel exc,
        setException (closure_ops fuel) this exc w'
        = (Throw (FutureError promise_already_satisfied), w')).
Proof.
  intros Hs Hd w'.
  destruct (later_done T _ _ this s (later_exec_all T program w) Hs Hd)
    as (s' & Hs' & Hd' & Hr' & He').
  fold w' in Hs'.
  rewrite (completed_getValue T w' this s' Hs' Hd'),
    (completed_getValue T w this s Hs Hd),
    (completed_getValue_void T w' this s' Hs' Hd'),
    (completed_getValue_void T w this s Hs Hd), Hr', He'.
  assert (Hwait : wait this w' = (Return tt, w')).
  { unfold wait, bind, load. by rewrite Hs', Hd'. }
  unfold Future_wait; simpl. rewrite Hwait. repeat split.
  - intros fuel y. by apply (completed_setValue T _ w' this s').
  - intros fuel. by apply (completed_setValue_void T _ w' this s').
  - intros fuel exc. by apply (completed_setException T _ w' this s').
Qed.

(** [setException] on a cell of a consistent world leaves no value. *)
Lemma setException_outcome (fuel : nat) (w w1 : World) (this : nat)
  (exc : exception_ptr) :
  consistent w ->
  setException (closure_ops fuel) this exc w = (Return tt, w1) ->
  exists s1, heap w1 !! this = Some s1 /\ m_done s1 = true
             /\ m_result s1 = None /\ m_exception s1 = exc.
Proof.
  intros Hw. unfold setException, checkState, bind at 1 2, load.
  destruct (heap w !! this) as [s|] eqn:Hs; [|done].
  destruct (m_done s) eqn:Hd; simpl; [done|].
  unfold bind, load. rewrite Hs. unfold store. intros Hrun.
  apply (setStateDoneAndNotify_cell T fuel _ w1 this (set_m_exception s exc))
    in Hrun as (s1 & Hs1 & Hd1 & Hr1 & He1).
  - exists s1. repeat split; try done. rewrite Hr1; simpl.
    by destruct (Hw this s Hs Hd).
  - simpl. apply list_lookup_insert_eq. by eapply lookup_lt_Some.
Qed.

(** X9.  [setException] with a null [std::exception_ptr] completes the cell
    all the same, with neither a value nor an exception in it.  From then
    on, [get] of the primary template throws [std::bad_optional_access],
    which [m_result.value()] raises; [get] of the [void] specialization
    returns; and [setValue] throws [promise_already_satisfied]. *)
Theorem null_exception_ptr (program1 program2 : list (nat * Op T))
  (fuel : nat) (this : nat) (w1 : World) :
  setException (closure_ops fuel) this None (exec_all program1 World_empty)
  = (Return tt, w1) ->
  let w2 := exec_all program2 w1 in
  getValue this w2 = (Throw bad_optional_access, w2)
  /\ Future_get {| Future_statePtr := Some this |} w2
     = (Throw bad_optional_access, Future_default, w2)
  /\ SharedFuture_get {| SharedFuture_statePtr := Some this |} w2
     = (Throw bad_optional_access, w2)
  /\ getValue_void this w2 = (Return tt, w2)
  /\ Future_get_void {| Future_statePtr := Some this |} w2
     = (Return tt, Future_default, w2)
  /\ (forall fuel' y,
        setValue (closure_ops fuel') this y w2
        = (Throw (FutureError promise_already_satisfied), w2)).
Proof.
  intros Hrun w2.
  assert (Hw : consistent (exec_all program1 (@World_empty T)))
    by (apply consistent_exec_all, consistent_empty).
  destruct (setException_outcome fuel _ w1 this None Hw Hrun)
    as (s1 & Hs1 & Hd1 & Hr1 & He1).
  destruct (later_done T _ _ this s1 (later_exec_all T program2 w1) Hs1 Hd1)
    as (s2 & Hs2 & Hd2 & Hr2 & He2).
  fold w2 in Hs2. rewrite Hr1 in Hr2. rewrite He1 in He2.
  unfold Future_get, Future_get_void, SharedFuture_get; simpl.
  rewrite (completed_getValue T w2 this s2 Hs2 Hd2),
    (completed_getValue_void T w2 this s2 Hs2 Hd2), Hr2, He2.
  repeat split.
  intros fuel' y. by apply (completed_setValue T _ w2 this s2).
Qed.

(** X10.  A completing call stores the outcome and marks the cell completed
    before it invokes the continuation, and lets what the continuation
    throws escape.  So when the stored continuation throws [e], [setValue]
    throws [e] and yet the cell is completed with the value: [getValue]
    returns it, and a second [setValue] throws
    [promise_already_satisfied].  The same holds of [setException]. *)
Theorem completed_although_continuation_throws (w : World) (this : nat)
  (s : SharedState) (fuel tag size : nat) (e : Exception) (x : T)
  (exc : exception_ptr) :
  heap w !! this = Some s -> m_done s = false -> m_exception s = None ->
  target (m_then s) = Some (UserClosure tag size (Some e)) ->
  (exists w',
     setValue (closure_ops (S fuel)) this x w = (Throw e, w')
     /\ trace w' = trace w ++ [tag]
     /\ getValue this w' = (Return x, w')
     /\ setValue (closure_ops (S fuel)) this x w'
        = (Throw (FutureError promise_already_satisfied), w'))
  /\ (exists w' s',
        setException (closure_ops (S fuel)) this exc w = (Throw e, w')
        /\ trace w' = trace w ++ [tag]
        /\ heap w' !! this = Some s'
        /\ m_done s' = true /\ m_exception s' = exc).
Proof.
  intros Hs Hd He (small & Ethen)%target_holds.
  assert (Hlt : this < length (heap w)) by (by eapply lookup_lt_Some).
  destruct s as [d r rs th ex]; simpl in *; subst.
  split.
  - eexists. split; [|split; [|split]].
    + unfold setValue, checkState, bind, load. rewrite Hs; simpl.
      rewrite Hs; simpl. unfold store; simpl.
      unfold setStateDoneAndNotify, bind, load; simpl.
      rewrite list_lookup_insert_eq by done. simpl.
      unfold store; simpl. rewrite list_insert_insert_eq.
      unfold call_and_destroy; simpl. reflexivity.
    + reflexivity.
    + unfold getValue, wait, bind, load; simpl.
      rewrite list_lookup_insert_eq by done. simpl.
      by rewrite list_lookup_insert_eq by done.
    + unfold setValue, checkState, bind, load; simpl.
      by rewrite list_lookup_insert_eq by done.
  - do 2 eexists. split; [|split; [|split]].
    + unfold setException, checkState, bind, load. rewrite Hs; simpl.
      rewrite Hs; simpl. unfold store; simpl.
      unfold setStateDoneAndNotify, bind, load; simpl.
      rewrite list_lookup_insert_eq by done. simpl.
      unfold store; simpl. rewrite list_insert_insert_eq.
      unfold call_and_destroy; simpl. reflexivity.
    + reflexivity.
    + simpl. by rewrite list_lookup_insert_eq by done.
    + done.
Qed.

End Terminal.

(** ** More scenarios on new promises *)

(** The calls of a scenario, one after the other. *)
Ltac run_steps := repeat (split; [run_calls; reflexivity|]).

Section Scenarios.
Variable T : Type.

Local Abbreviation SharedState := (SharedState T).
Local Abbreviation World := (World T).

Lemma lookup_fresh (h l : list SharedState) (k : nat) :
  (h ++ l) !! (length h + k) = l !! k.
Proof. rewrite lookup_app_r by lia. f_equal. lia. Qed.

(** X13.  The round trip of [Promise<void>], as [testPromiseAndFutureVoid]
    has it, for calls that do not overlap.  On a new promise, [setValue()],
    [getFuture()] and [get()] in that order make [get()] return, and a
    second [setValue()] throws [promise_already_satisfied].  With
    [getFuture()] first, a [get()] called while the promise is not set, with
    no other call running, does not return; a [get()] called after
    [setValue()] has returned does.  Every [get()] leaves the [Future]
    without a cell.  What becomes of a [get()] that waits while
    [setValue()] runs is not said here. *)
Theorem round_trip_void (w : World) (fuel : nat) :
  (exists promise w1 w2 future w3,
     Promise_new w = (Return promise, w1)
     /\ Promise_setValue_void (closure_ops fuel) promise w1 = (Return tt, w2)
     /\ Promise_getFuture promise w2 = (Return future, w3)
     /\ Future_get_void future w3 = (Return tt, Future_default, w3)
     /\ Promise_setValue_void (closure_ops fuel) promise w3
        = (Throw (FutureError promise_already_satisfied), w3))
  /\ (exists promise w1 future w2 w3,
        Promise_new w = (Return promise, w1)
        /\ Promise_getFuture promise w1 = (Return future, w2)
        /\ Future_get_void future w2
           = (Hang blocks_forever, Future_default, w2)
        /\ Promise_setValue_void (closure_ops fuel) promise w2
           = (Return tt, w3)
        /\ Future_get_void future w3 = (Return tt, Future_default, w3)).
Proof.
  from_world w. split.
  - do 5 eexists. run_steps. run_calls. reflexivity.
  - do 5 eexists. run_steps. run_calls. reflexivity.
Qed.

(** X11.  [then] gives the same whether it is called before the promise is
    set or after.  Before: [then(g)] invokes nothing, [setValue(v)] invokes
    [g] once, and [get()] on the [Future] of [then] does what [g] does with
    a [Future] holding [v].  After: [then(g)] itself invokes [g] once, on
    the calling thread, and [get()] gives the same. *)
Theorem then_either_side (w : World) (fuel : nat) (g : Callable T) (v : T) :
  comes_back (callable_body g (Return v)) ->
  (exists promise w1 future w2 future_g w3 w4,
     Promise_new w = (Return promise, w1)
     /\ Promise_getFuture promise w1 = (Return future, w2)
     /\ Future_then (S fuel) future g w2
        = (Return future_g, Future_default, w3)
     /\ trace w3 = trace w
     /\ Promise_setValue (closure_ops (S fuel)) promise v w3 = (Return tt, w4)
     /\ trace w4 = trace w ++ [callable_tag g]
     /\ Future_get future_g w4
        = (callable_body g (Return v), Future_default, w4))
  /\ (exists promise w1 w2 future w3 future_g w4,
        Promise_new w = (Return promise, w1)
        /\ Promise_setValue (closure_ops (S fuel)) promise v w1
           = (Return tt, w2)
        /\ Promise_getFuture promise w2 = (Return future, w3)
        /\ Future_then (S fuel) future g w3
           = (Return future_g, Future_default, w4)
        /\ trace w4 = trace w ++ [callable_tag g]
        /\ Future_get future_g w4
           = (callable_body g (Return v), Future_default, w4)).
Proof.
  intros Hg. from_world w.
  destruct (callable_body g (Return v)) as [a|e|why] eqn:Eg; [| |done].
  - split.
    + do 7 eexists. run_steps.
      split; [repeat (first [rewrite Eg | progress run_calls]); reflexivity|].
      run_steps. run_calls. reflexivity.
    + do 7 eexists. run_steps.
      split; [repeat (first [rewrite Eg | progress run_calls]); reflexivity|].
      run_steps. run_calls. reflexivity.
  - split.
    + do 7 eexists. run_steps.
      split; [repeat (first [rewrite Eg | progress run_calls]); reflexivity|].
      run_steps. run_calls. reflexivity.
    + do 7 eexists. run_steps.
      split; [repeat (first [rewrite Eg | progress run_calls]); reflexivity|].
      run_steps. run_calls. reflexivity.
Qed.

(** X7.  [share] moves the cell of a [Future] into a [SharedFuture], as the
    converting constructor does: the [Future] is left without a cell, the
    [SharedFuture] is valid.  Once the promise is set, [get] and [wait] on
    the [SharedFuture] return, give the value, and change nothing, so they
    do after any further calls, other [get]s among them.  A [SharedFuture]
    without a cell, default-constructed or shared from a [Future] without
    one, throws [no_state] from [get] and [wait]. *)
Theorem shared_future_reads (w : World) (fuel : nat) (x : T)
  (program : list (nat * Op T)) :
  (exists promise w1 future w2 w3,
     Promise_new w = (Return promise, w1)
     /\ Promise_getFuture promise w1 = (Return future, w2)
     /\ Future_valid (snd (Future_share future)) = false
     /\ SharedFuture_valid (fst (Future_share future)) = true
     /\ SharedFuture_of_Future future = Future_share future
     /\ Promise_setValue (closure_ops fuel) promise x w2 = (Return tt, w3)
     /\ SharedFuture_wait (fst (Future_share future)) (exec_all program w3)
        = (Return tt, exec_all program w3)
     /\ SharedFuture_get (fst (Future_share future)) (exec_all program w3)
        = (Return x, exec_all program w3))
  /\ SharedFuture_valid (fst (Future_share Future_default)) = false
  /\ SharedFuture_valid SharedFuture_default = false
  /\ SharedFuture_get SharedFuture_default w
     = (Throw (FutureError no_state), w)
  /\ SharedFuture_get_void SharedFuture_default w
     = (Throw (FutureError no_state), w)
  /\ SharedFuture_wait SharedFuture_default w
     = (Throw (FutureError no_state), w).
Proof.
  split; [|done].
  from_world w. do 5 eexists. run_steps.
  match goal with
  | |- context [exec_all program ?w3] =>
      destruct (later_done T w3 _ (length h + 0) _
                  (later_exec_all T program w3)
                  (lookup_fresh h _ 0) eq_refl)
        as (s' & Hs' & Hd' & Hr' & He')
  end.
  simpl in Hr', He'. unfold SharedFuture_wait, SharedFuture_get; simpl.
  rewrite (completed_getValue T _ _ s' Hs' Hd'), Hr', He'.
  split; [|done]. unfold wait, bind, load. by rewrite Hs', Hd'.
Qed.

(** X8.  A cell goes with its promise when the promise is moved: the
    promise moved to sets the cell, and [get()] on the [Future] taken before
    the move returns the value.  The promise moved from has no cell:
    [setValue], [setException] and [getFuture] on it throw [no_state] and
    change nothing, and its destructor does nothing, so it clears no
    continuation. *)
Theorem promise_moves_with_its_cell (w w' : World) (fuel : nat) (x y : T)
  (exc : exception_ptr) :
  (exists promise w1 future w2 w3,
     Promise_new w = (Return promise, w1)
     /\ Promise_getFuture promise w1 = (Return future, w2)
     /\ Promise_setValue (closure_ops fuel) (fst (Promise_move promise)) x w2
        = (Return tt, w3)
     /\ Promise_setValue (closure_ops fuel) (snd (Promise_move promise)) y w3
        = (Throw (FutureError no_state), w3)
     /\ Future_get future w3 = (Return x, Future_default, w3))
  /\ (forall promise : Promise,
        Promise_setValue (closure_ops fuel) (snd (Promise_move promise)) y w'
        = (Throw (FutureError no_state), w')
        /\ Promise_setValue_void (closure_ops fuel)
             (snd (Promise_move promise)) w'
           = (Throw (FutureError no_state), w')
        /\ Promise_setException (closure_ops fuel)
             (snd (Promise_move promise)) exc w'
           = (Throw (FutureError no_state), w')
        /\ Promise_getFuture (snd (Promise_move promise)) w'
           = (Throw (FutureError no_state), w')
        /\ Promise_destroy (closure_ops fuel) (snd (Promise_move promise)) w'
           = (Return tt, w')).
Proof.
  split; [|done].
  from_world w. do 5 eexists. run_steps. run_calls. reflexivity.
Qed.

(** X12.  Destroying the promise at the head of a chain clears the chain:
    after [getFuture().then(g).then(h)] on a new promise, [~Promise()]
    takes the continuation out of the first cell and destroys it, which
    destroys the promise it holds, which clears the second cell in the same
    way.  Afterwards no cell of the three stores a continuation and none is
    completed, nothing was invoked, and [get()] on the last [Future] waits
    for ever. *)
Theorem promise_destroy_cascades (w : World) (fuel : nat)
  (g h : Callable T) :
  exists promise w1 future w2 future_g w3 future_h w4 w5,
    Promise_new w = (Return promise, w1)
    /\ Promise_getFuture promise w1 = (Return future, w2)
    /\ Future_then fuel future g w2 = (Return future_g, Future_default, w3)
    /\ Future_then fuel future_g h w3
       = (Return future_h, Future_default, w4)
    /\ Promise_destroy (closure_ops (S (S fuel))) promise w4
       = (Return tt, w5)
    /\ Future_get future_h w5 = (Hang blocks_forever, Future_default, w5)
    /\ trace w5 = trace w
    /\ length (heap w5) = length (heap w) + 3
    /\ forall k s,
         heap w5 !! (length (heap w) + k) = Some s ->
         m_done s = false /\ UniqueFunction_bool (m_then s) = false.
Proof.
  from_world w. do 9 eexists. run_steps.
  split; [simpl; rewrite !length_app; simpl; lia|].
  intros k s. simpl. rewrite app_nil_r, lookup_fresh.
  destruct k as [|[|[|k]]]; simpl; intros [= <-]; done.
Qed.

End Scenarios.

(** ** What holds of every cell a program can reach *)

Section Settled_facts.
Variable T : Type.

Local Abbreviation Closure := (Closure T).
Local Abbreviation SharedState := (SharedState T).
Local Abbreviation World := (World T).

Lemma settled_empty : settled (@World_empty T).
Proof. intros this s Hs. done. Qed.

Lemma settled_store (w : World) (this : nat) (s' : SharedState) :
  (forall i s, i <> this -> heap w !! i = Some s -> cell_settled s) ->
  cell_settled s' ->
  settled (snd (store this s' w)).
Proof.
  intros Hw Hs' i si; simpl. rewrite list_lookup_insert.
  case_decide as Hi; [by intros [= <-]|].
  destruct (decide (i = this)) as [->|Hne].
  - intros Hsi. exfalso. apply Hi. split; [done | by eapply lookup_lt_Some].
  - by apply Hw.
Qed.

Lemma settled_make_shared (w : World) :
  settled w -> settled (snd (@make_shared T w)).
Proof.
  intros Hw i s; simpl. intros [[_ Hs]|[_ <-]]%lookup_snoc_Some.
  - by eapply Hw.
  - split; [by intros _|]. split; [by left|].
    split; [by intros [=]|]. by intros Hne.
Qed.

Lemma settled_bind {A B : Type} (m : M T A) (k : A -> M T B) :
  (forall w, settled w -> settled (snd (m w))) ->
  (forall a w, settled w -> settled (snd (k a w))) ->
  forall w, settled w -> settled (snd (bind m k w)).
Proof.
  intros Hm Hk w Hw. unfold bind. specialize (Hm w Hw).
  destruct (m w) as [[a|e|why] w1]; simpl in *; try done.
  by apply Hk.
Qed.

(** What the swaps of the members leave in a cell. *)
Lemma swap_default_l {Arg R S : Type} (ops : ClosureOps Closure Arg R S)
  (f : UniqueFunction Closure) :
  UniqueFunction_wf f ->
  UniqueFunction_bool (snd (UniqueFunction_swap UniqueFunction_default f))
  = false
  /\ UniqueFunction_wf (snd (UniqueFunction_swap UniqueFunction_default f))
  /\ UniqueFunction_wf (fst (UniqueFunction_swap UniqueFunction_default f)).
Proof.
  destruct f as [[|small] [|c]]; unfold UniqueFunction_wf; simpl;
    intros Hwf; try done; exfalso; by apply Hwf.
Qed.

Lemma swap_default_r {Arg R S : Type} (ops : ClosureOps Closure Arg R S)
  (f : UniqueFunction Closure) :
  UniqueFunction_wf f ->
  UniqueFunction_bool (fst (UniqueFunction_swap f UniqueFunction_default))
  = false
  /\ UniqueFunction_wf (fst (UniqueFunction_swap f UniqueFunction_default))
  /\ UniqueFunction_wf (snd (UniqueFunction_swap f UniqueFunction_default)).
Proof.
  destruct f as [[|small] [|c]]; unfold UniqueFunction_wf; simpl;
    intros Hwf; try done; exfalso; by apply Hwf.
Qed.

Lemma swap_wf {Arg R S : Type} (ops : ClosureOps Closure Arg R S)
  (f g : UniqueFunction Closure) :
  UniqueFunction_wf f -> UniqueFunction_wf g ->
  UniqueFunction_wf (fst (UniqueFunction_swap f g)).
Proof.
  destruct f as [[|sf] [|cf]], g as [[|sg] [|cg]];
    unfold UniqueFunction_wf; simpl; intros Hf Hg; try done; exfalso; auto.
Qed.

Section Settled_ops.
Variable ops : ClosureOps Closure unit unit World.
Hypothesis call_settled :
  forall c w, settled w -> settled (snd (call c tt w)).
Hypothesis destructor_settled :
  forall c w, settled w -> settled (snd (destructor c w)).

Lemma settled_UniqueFunction_call (f : UniqueFunction Closure) (w : World) :
  settled w -> settled (snd (UniqueFunction_call f tt w)).
Proof.
  intros Hw. destruct f as [[|small] [|c]]; unfold UniqueFunction_call; simpl;
    try done.
  specialize (call_settled c w Hw). by destruct (call c tt w) as [[r c'] w'].
Qed.

Lemma settled_UniqueFunction_destroy (f : UniqueFunction Closure) (w : World) :
  settled w -> settled (snd (UniqueFunction_destroy f w)).
Proof.
  intros Hw.
  destruct f as [[|small] [|c]]; unfold UniqueFunction_destroy; simpl;
    try done.
  specialize (destructor_settled c w Hw).
  by destruct (destructor c w) as [r w'].
Qed.

Lemma settled_call_and_destroy (b : bool) (f : UniqueFunction Closure)
  (w : World) :
  settled w -> settled (snd (call_and_destroy ops b f w)).
Proof.
  intros Hw. unfold call_and_destroy.
  assert (L1 : settled (snd (if b then UniqueFunction_call f tt w
                              else (Return tt, f, w)))).
  { destruct b; [by apply settled_UniqueFunction_call | done]. }
  destruct (if b then _ else _) as [[r f'] w1]; simpl in L1.
  pose proof (settled_UniqueFunction_destroy f' w1 L1) as L2.
  destruct (UniqueFunction_destroy f' w1) as [r2 w2]; simpl in L2.
  destruct r as [[]|e|why]; simpl; try done;
    by destruct r2 as [[]|e2|why2].
Qed.

(** Completing a cell settles it, when it holds one outcome at most. *)
Lemma settled_setStateDoneAndNotify (this : nat) (w : World) :
  (forall i s, i <> this -> heap w !! i = Some s -> cell_settled s) ->
  (forall s, heap w !! this = Some s ->
     (m_result s = None \/ m_exception s = None)
     /\ UniqueFunction_wf (m_then s)) ->
  settled (snd (setStateDoneAndNotify ops this w)).
Proof.
  intros Hw Hthis. unfold setStateDoneAndNotify, bind, load.
  destruct (heap w !! this) as [s|] eqn:Hs.
  - destruct (Hthis s eq_refl) as [Hone Hwf].
    destruct (swap_default_l ops (m_then s) Hwf) as (Hb & Hwf' & _).
    destruct (UniqueFunction_swap _ _) as [then_ then_of_s].
    unfold store. apply settled_call_and_destroy.
    apply (settled_store w this _ Hw). simpl in *.
    split; [by intros [=]|]. by repeat split.
  - simpl. intros i si Hi. apply (Hw i si); [|done]. congruence.
Qed.

Lemma settled_setValue (this : nat) (result : T) (w : World) :
  settled w -> settled (snd (setValue ops this result w)).
Proof.
  intros Hw. unfold setValue, checkState, bind, load.
  destruct (heap w !! this) as [s|] eqn:Hs; [|done].
  destruct (m_done s) eqn:Hd; simpl; [done|].
  rewrite Hs. unfold store. apply settled_setStateDoneAndNotify.
  - intros i si Hne; simpl. rewrite list_lookup_insert_ne by done. apply Hw.
  - intros s'; simpl. rewrite list_lookup_insert_eq
      by (by eapply lookup_lt_Some).
    intros [= <-]; simpl.
    destruct (Hw this s Hs) as (Hc & _ & _ & Hwf).
    split; [right; by apply Hc | done].
Qed.

Lemma settled_setValue_void (this : nat) (w : World) :
  settled w -> settled (snd (setValue_void ops this w)).
Proof.
  intros Hw. unfold setValue_void, checkState, bind, load.
  destruct (heap w !! this) as [s|] eqn:Hs; [|done].
  destruct (m_done s) eqn:Hd; simpl; [done|].
  apply settled_setStateDoneAndNotify.
  - intros i si _. apply Hw.
  - intros s' Hs'. destruct (Hw this s' Hs') as (_ & Hone & _ & Hwf). done.
Qed.

Lemma settled_setException (this : nat) (exc : exception_ptr) (w : World) :
  settled w -> settled (snd (setException ops this exc w)).
Proof.
  intros Hw. unfold setException, checkState, bind, load.
  destruct (heap w !! this) as [s|] eqn:Hs; [|done].
  destruct (m_done s) eqn:Hd; simpl; [done|].
  rewrite Hs. unfold store. apply settled_setStateDoneAndNotify.
  - intros i si Hne; simpl. rewrite list_lookup_insert_ne by done. apply Hw.
  - intros s'; simpl. rewrite list_lookup_insert_eq
      by (by eapply lookup_lt_Some).
    intros [= <-]; simpl.
    destruct (Hw this s Hs) as (Hc & _ & _ & Hwf).
    split; [left; by apply Hc | done].
Qed.

Lemma settled_setContinuation (this : nat) (f : UniqueFunction Closure)
  (w : World) :
  UniqueFunction_wf f ->
  settled w -> settled (snd (setContinuation ops this f w)).
Proof.
  intros Hf Hw. unfold setContinuation, bind, load.
  destruct (heap w !! this) as [s|] eqn:Hs; [|done].
  destruct (Hw this s Hs) as (Hc & Hone & Hdone & Hwf).
  pose proof (swap_wf ops (m_then s) f Hwf Hf) as Hswap.
  destruct (m_done s) eqn:Hd; simpl.
  - unfold store. apply settled_call_and_destroy.
    apply settled_store; [intros i si _; apply Hw|].
    split; [done|]. split; [done|]. split; [|done]. simpl.
    intros _. by apply Hdone.
  - destruct (UniqueFunction_swap _ _) as [then_of_s continuation].
    unfold store. apply settled_call_and_destroy.
    apply settled_store; [intros i si _; apply Hw|].
    split; [done|]. split; [done|]. split; [|done]. simpl. by rewrite Hd.
Qed.

Lemma settled_resetContinuation (this : nat) (w : World) :
  settled w -> settled (snd (resetContinuation ops this w)).
Proof.
  intros Hw. unfold resetContinuation, bind, load.
  destruct (heap w !! this) as [s|] eqn:Hs; [|done].
  destruct (Hw this s Hs) as (Hc & Hone & Hdone & Hwf).
  destruct (swap_default_r ops (m_then s) Hwf) as (Hb & Hwf' & _).
  destruct (UniqueFunction_swap _ _) as [then_of_s continuation].
  unfold store. apply settled_call_and_destroy.
  apply settled_store; [intros i si _; apply Hw|].
  split; [done|]. split; [done|]. split; [|done]. simpl. by intros _.
Qed.

Lemma settled_setAndThrowIfRetrieved (this : nat) (w : World) :
  settled w -> settled (snd (setAndThrowIfRetrieved this w)).
Proof.
  intros Hw. unfold setAndThrowIfRetrieved, bind, load.
  destruct (heap w !! this) as [s|] eqn:Hs; [|done].
  unfold store.
  assert (L : settled (snd (store this (set_m_retrieved s true) w))).
  { apply settled_store; [intros i si _; apply Hw|]. apply (Hw this s Hs). }
  by destruct (m_retrieved s).
Qed.

Lemma settled_Promise_destroy (p : Promise) (w : World) :
  settled w -> settled (snd (Promise_destroy ops p w)).
Proof.
  destruct p as [[statePtr|]]; unfold Promise_destroy; simpl; [|done].
  apply settled_resetContinuation.
Qed.

Lemma settled_Promise_setValue (p : Promise) (value : T) (w : World) :
  settled w -> settled (snd (Promise_setValue ops p value w)).
Proof.
  destruct p as [[statePtr|]]; unfold Promise_setValue; simpl; [|done].
  apply settled_setValue.
Qed.

Lemma settled_Promise_setException (p : Promise) (exc : exception_ptr)
  (w : World) :
  settled w -> settled (snd (Promise_setException ops p exc w)).
Proof.
  destruct p as [[statePtr|]]; unfold Promise_setException; simpl; [|done].
  apply settled_setException.
Qed.

Lemma settled_Closure_call (c : Closure) (w : World) :
  settled w -> settled (snd (Closure_call ops c w)).
Proof.
  intros Hw. destruct c as [tag size exc|state p f]; simpl.
  - unfold bind. simpl. by destruct exc.
  - unfold ThenClosure_call, try_catch, bind, Callable_call.
    destruct (Future_get _ w) as [[got fut'] w0].
    set (w1 := {| heap := heap w; trace := trace w ++ [callable_tag f] |}).
    assert (H1 : settled w1) by done.
    destruct (callable_body f got) as [value|e|why]; simpl.
    + pose proof (settled_Promise_setValue p value w1 H1) as L2.
      destruct (Promise_setValue _ _ _ _) as [r2 w2]; simpl in L2.
      destruct r2 as [[]|e|why]; simpl; try done.
      pose proof (settled_Promise_setException p (Some e) w2 L2) as L3.
      by destruct (Promise_setException _ _ _ _).
    + pose proof (settled_Promise_setException p (Some e) w1 H1) as L3.
      by destruct (Promise_setException _ _ _ _).
    + done.
Qed.

Lemma settled_Closure_destroy (c : Closure) (w : World) :
  settled w -> settled (snd (Closure_destroy ops c w)).
Proof.
  destruct c as [tag size exc|state p f]; simpl; [done|].
  apply settled_Promise_destroy.
Qed.

End Settled_ops.

Lemma settled_closure_ops (fuel : nat) :
  (forall (c : Closure) (w : World),
     settled w -> settled (snd (@call _ _ _ _ (closure_ops fuel) c tt w)))
  /\ (forall (c : Closure) (w : World),
        settled w ->
        settled (snd (@destructor _ _ _ _ (closure_ops fuel) c w))).
Proof.
  induction fuel as [|fuel [IHc IHd]]; split; intros c w Hw; simpl; try done.
  - by apply (settled_Closure_call (closure_ops fuel)).
  - by apply (settled_Closure_destroy (closure_ops fuel)).
Qed.

Lemma settled_Future_then (fuel : nat) (this : Future) (f : Callable T)
  (w : World) :
  settled w -> settled (snd (Future_then fuel this f w)).
Proof.
  intros Hw. destruct (settled_closure_ops fuel) as [Hc Hd].
  unfold Future_then.
  destruct (Future_statePtr this) as [statePtr|]; [|done].
  pose proof (settled_make_shared w Hw) as L1.
  unfold Promise_new, bind at 1, ret.
  destruct (make_shared w) as [r1 w1]; simpl in L1.
  destruct r1 as [cell|e|why]; simpl; try done.
  unfold Promise_getFuture; simpl. unfold bind at 1.
  pose proof (settled_setAndThrowIfRetrieved cell w1 L1) as L2.
  destruct (setAndThrowIfRetrieved cell w1) as [r2 w2]; simpl in L2.
  destruct r2 as [[]|e|why]; simpl; try done.
  - match goal with
    | |- context [bind ?m ?k w2] =>
        assert (L3 : settled (snd (bind m k w2)));
        [|by destruct (bind m k w2) as [r3 w3]]
    end.
    apply settled_bind; [|intros _; apply settled_bind|done].
    + intros w'. by apply settled_setContinuation.
    + intros w'. by apply settled_UniqueFunction_destroy.
    + intros _ w'. by apply settled_Promise_destroy.
  - pose proof (settled_resetContinuation (closure_ops fuel) Hc Hd
                  cell w2 L2) as L3.
    unfold Promise_destroy; simpl.
    by destruct (resetContinuation _ _ _) as [r3 w3].
Qed.

Lemma settled_exec (fuel : nat) (o : Op T) (w : World) :
  settled w -> settled (exec fuel o w).
Proof.
  intros Hw. destruct (settled_closure_ops fuel) as [Hc Hd].
  rewrite exec_eq. destruct o; simpl.
  - by apply settled_make_shared.
  - by apply settled_setValue.
  - by apply settled_setValue_void.
  - by apply settled_setException.
  - apply settled_setContinuation; [done|done| |done].
    destruct continuation as [c|]; simpl; [|by intros Hne].
    unfold UniqueFunction_wf, UniqueFunction_closure; simpl.
    by destruct (IsSmall c).
  - by apply settled_resetContinuation.
  - by apply settled_setAndThrowIfRetrieved.
  - by rewrite getValue_world.
  - by rewrite getValue_void_world.
  - by rewrite wait_world.
  - by apply settled_Future_then.
Qed.

Lemma settled_exec_all (program : list (nat * Op T)) :
  forall w : World, settled w -> settled (exec_all program w).
Proof.
  induction program as [|[fuel o] rest IH]; intros w Hw; simpl; [done|].
  by apply IH, settled_exec.
Qed.

(** X15.  Calls that do not overlap keep every cell in one of the states
    the code means it to be in.  In every world reached by a program whose
    calls run one after the other, as long as a cell is not completed it
    holds neither a value nor an exception; it never holds both; once it is
    completed it stores no continuation; and its [m_then] is always an
    instance whose dispatch table finds its object.  Calls that overlap are
    not covered: the races further down leave a continuation in a completed
    cell. *)
Theorem reachable_settled (w : World) (this : nat) (s : SharedState) :
  reachable w -> heap w !! this = Some s ->
  (m_done s = false -> m_result s = None /\ m_exception s = None)
  /\ (m_result s = None \/ m_exception s = None)
  /\ (m_done s = true ->
      UniqueFunction_bool (m_then s) = false /\ target (m_then s) = None)
  /\ UniqueFunction_wf (m_then s).
Proof.
  intros [program ->] Hs.
  destruct (settled_exec_all program _ settled_empty this s Hs)
    as (Hc & Hone & Hdone & Hwf).
  repeat split; try done; try (by apply Hc).
  - by apply Hdone.
  - by apply bool_false_target, Hdone.
Qed.

End Settled_facts.

(** ** Chains of any length *)

(** The calls of a scenario up to the closures they invoke. *)
Ltac run_outer :=
  repeat (first [ rewrite load_app | rewrite store_app
                | rewrite make_shared_app
                | progress unfold_calls | progress cbn ]).

Section Chains_facts.
Variable T : Type.

Local Abbreviation Closure := (Closure T).
Local Abbreviation Callable := (Callable T).
Local Abbreviation SharedState := (SharedState T).
Local Abbreviation World := (World T).

(** A new promise and its [Future]: the chain of no [then]. *)
Lemma chain_head (h : list SharedState) (t : list nat) :
  exists w1,
    Promise_new {| heap := h; trace := t |}
    = (Return {| Promise_statePtr := Some (length h) |}, w1)
    /\ Promise_getFuture {| Promise_statePtr := Some (length h) |} w1
       = (Return {| Future_statePtr := Some (length h) |},
          {| heap := h ++ [chain_cell UniqueFunction_default]; trace := t |}).
Proof.
  eexists. split.
  - unfold Promise_new, bind, ret, make_shared; simpl. reflexivity.
  - rewrite <- (Nat.add_0_r (length h)) at 1. run_calls.
    by rewrite Nat.add_0_r.
Qed.

(** One more [then] at the end of a chain under construction. *)
Lemma then_pending (fuel : nat) (h : list SharedState) (t : list nat)
  (f : Callable) :
  Future_then fuel {| Future_statePtr := Some (length h) |} f
    {| heap := h ++ [chain_cell UniqueFunction_default]; trace := t |}
  = (Return {| Future_statePtr := Some (length h + 1) |}, Future_default,
     {| heap := h ++ [chain_cell (chain_link (length h) f);
                      chain_cell UniqueFunction_default];
        trace := t |}).
Proof.
  rewrite <- (Nat.add_0_r (length h)) at 1.
  run_calls. rewrite !Nat.add_0_r. reflexivity.
Qed.

Lemma then_all_builds (fuel : nat) (fs : list Callable) :
  forall (h : list SharedState) (t : list nat),
    then_all fuel fs {| Future_statePtr := Some (length h) |}
      {| heap := h ++ [chain_cell UniqueFunction_default]; trace := t |}
    = (Return {| Future_statePtr := Some (length h + length fs) |},
       {| heap := h ++ chain_cells (length h) fs; trace := t |}).
Proof.
  induction fs as [|f rest IH]; intros h t; simpl.
  - by rewrite Nat.add_0_r.
  - unfold bind, with_handle. rewrite then_pending. simpl.
    specialize (IH (h ++ [chain_cell (chain_link (length h) f)]) t).
    rewrite length_app, <- app_assoc in IH. simpl in IH.
    rewrite IH. rewrite <- app_assoc; simpl.
    replace (length h + 1 + length rest) with (length h + S (length rest))
      by lia.
    by replace (length h + 1) with (S (length h)) by lia.
Qed.

(** The lambda of [then], called when its cell holds an outcome: it
    completes the next cell with what the function object makes of it. *)
Lemma closure_call_link (fuel : nat) (w W : World) (this next : nat)
  (f : Callable) (got : Result T) :
  getValue this w = (got, w) ->
  complete fuel next (callable_body f got)
    {| heap := heap w; trace := trace w ++ [callable_tag f] |}
  = (Return tt, W) ->
  closure_call (S fuel)
    (ThenClosure (Some this) {| Promise_statePtr := Some next |} f) w
  = (Return tt, ThenClosure None {| Promise_statePtr := Some next |} f, W).
Proof.
  intros Hget Hnext. rewrite closure_call_S.
  unfold Closure_call, ThenClosure_call, try_catch, bind, Callable_call,
    Future_get; simpl.
  rewrite Hget. unfold complete in Hnext.
  destruct (callable_body f got) as [value|e|why]; simpl.
  - unfold Promise_setValue; simpl. by rewrite Hnext.
  - unfold Promise_setException; simpl. by rewrite Hnext.
  - done.
Qed.

(** The lambda of [then], destroyed after the call: its promise finds the
    next cell without a continuation, and changes nothing. *)
Lemma closure_destroy_link (fuel : nat) (W : World) (next : nat)
  (f : Callable) (s : SharedState) :
  heap W !! next = Some s -> m_then s = UniqueFunction_default ->
  closure_destroy (S fuel)
    (ThenClosure None {| Promise_statePtr := Some next |} f) W
  = (Return tt, W).
Proof.
  intros Hs Hthen. rewrite closure_destroy_S.
  unfold Closure_destroy, Promise_destroy; simpl.
  unfold resetContinuation, bind, load. rewrite Hs, Hthen. simpl.
  unfold store, call_and_destroy; simpl.
  destruct W as [hW tW], s as [d r rs th ex]; simpl in *. subst th.
  by rewrite list_insert_id.
Qed.

Lemma done_cells_head (got : Result T) (fs : list Callable) :
  exists tail, done_cells got fs = done_cell got :: tail.
Proof. destruct fs; by eexists. Qed.

(** Setting the head of a chain runs the chain. *)
Lemma chain_runs (fs : list Callable) :
  forall (fuel : nat) (h : list SharedState) (t : list nat) (got : Result T),
    length fs <= fuel -> all_come_back fs got ->
    complete fuel (length h) got
      {| heap := h ++ chain_cells (length h) fs; trace := t |}
    = (Return tt,
       {| heap := h ++ done_cells got fs;
          trace := t ++ map (fun f => callable_tag f) fs |}).
Proof.
  induction fs as [|f rest IH]; intros fuel h t got Hfuel Hback.
  - simpl in *. rewrite app_nil_r.
    rewrite <- (Nat.add_0_r (length h)).
    destruct got as [value|e|why]; [| |done]; unfold complete;
      run_calls; reflexivity.
  - destruct fuel as [|fuel]; [simpl in Hfuel; lia|].
    destruct Hback as [Hgot Hback]. simpl in Hfuel.
    pose proof (IH fuel (h ++ [done_cell got]) (t ++ [callable_tag f])
                  (callable_body f got) ltac:(lia) Hback) as Hnext.
    rewrite length_app, <- !app_assoc in Hnext. simpl in Hnext.
    destruct (done_cells_head (callable_body f got) rest) as [tail Etail].
    simpl. replace (S (length h)) with (length h + 1) by lia.
    rewrite <- (Nat.add_0_r (length h)) at 1.
    destruct got as [value|e|why]; [| |done]; unfold complete.
    + run_outer.
      erewrite closure_call_link.
      2:{ rewrite <- (Nat.add_0_r (length h)) at 1. run_calls. reflexivity. }
      2:{ exact Hnext. }
      cbn. erewrite closure_destroy_link.
      * reflexivity.
      * simpl. rewrite Etail.
        rewrite (lookup_app_r h) by lia.
        replace (length h + 1 - length h) with 1 by lia. reflexivity.
      * reflexivity.
    + run_outer.
      erewrite closure_call_link.
      2:{ rewrite <- (Nat.add_0_r (length h)) at 1. run_calls. reflexivity. }
      2:{ exact Hnext. }
      cbn. erewrite closure_destroy_link.
      * reflexivity.
      * simpl. rewrite Etail.
        rewrite (lookup_app_r h) by lia.
        replace (length h + 1 - length h) with 1 by lia. reflexivity.
      * reflexivity.
Qed.

Lemma done_cells_last (fs : list Callable) :
  forall (h : list SharedState) (got : Result T),
    (h ++ done_cells got fs) !! (length h + length fs)
    = Some (done_cell (outcome_of fs got)).
Proof.
  induction fs as [|f rest IH]; intros h got; simpl.
  - rewrite Nat.add_0_r. by apply list_lookup_middle.
  - specialize (IH (h ++ [done_cell got]) (callable_body f got)).
    rewrite length_app, <- app_assoc in IH. simpl in IH.
    by replace (length h + S (length rest)) with (length h + 1 + length rest)
      by lia.
Qed.

Lemma all_come_back_outcome (fs : list Callable) :
  forall got : Result T,
    all_come_back fs got -> comes_back (outcome_of fs got).
Proof.
  induction fs as [|f rest IH]; intros got; simpl; [done|].
  intros [_ Hrest]. by apply IH.
Qed.

(** X16.  A chain of any length composes: after
    [getFuture().then(f1).then(f2)...] on a new promise, setting the
    promise, to a value or to an exception, calls every function object
    once, in the order of the chain, each on a [Future] holding the outcome
    of the one before, a value or an exception; and [get()] on the last
    [Future] gives the outcome of the last one.  The calls nest, one level
    for each [then]. *)
Theorem chain_of_any_length (w : World) (fuel : nat) (fs : list Callable)
  (got : Result T) :
  length fs <= fuel -> all_come_back fs got ->
  exists w',
    chain_of_thens fuel fs got w = (outcome_of fs got, w')
    /\ trace w' = trace w ++ map (fun f => callable_tag f) fs.
Proof.
  intros Hfuel Hback. destruct w as [h t].
  destruct (chain_head h t) as (w1 & E1 & E2).
  pose proof (all_come_back_outcome fs _ Hback) as Hlast.
  eexists. split.
  - unfold chain_of_thens.
    eapply eq_trans; [apply bind_Return; exact E1|]; cbv beta.
    eapply eq_trans; [apply bind_Return; exact E2|]; cbv beta.
    eapply eq_trans; [apply bind_Return; apply then_all_builds|]; cbv beta.
    eapply eq_trans;
      [apply bind_Return;
       exact (chain_runs fs fuel h t got Hfuel Hback)|]; cbv beta.
    unfold bind, with_handle, Future_get; simpl.
    rewrite (completed_getValue T
               {| heap := h ++ done_cells got fs;
                  trace := t ++ map (fun f => callable_tag f) fs |}
               (length h + length fs) (done_cell (outcome_of fs got))
               (done_cells_last fs h got) eq_refl).
    simpl. by destruct (outcome_of fs got).
  - reflexivity.
Qed.

End Chains_facts.

(** ** The blocks of big closures *)

Section FreeStore_facts.
Context {C Arg R S : Type} `{ClosureOps C Arg R S}.

(** X17.  The blocks of big closures.  A move construction from an instance
    that owns a block makes a new block and deletes none, and afterwards
    one instance owns a block, as before: the block moved from is owned by
    nobody and was not deleted.  A move assignment deletes the block of the
    instance assigned to and does the same with the block of the source.  A
    [swap] makes a block for each of its three moves that goes through the
    table of a big closure, deletes none, and leaves as many instances
    owning a block as before.  So for a big closure that is put in an
    instance, moved once, and both instances destroyed, [new] has run twice
    and [delete] once; for a small closure neither runs.  The lambda of
    [then] is a big closure. *)
Theorem moved_block_is_never_freed (this other : UniqueFunction C) (c : C)
  (s : S) (m : FreeStore) :
  (news (UniqueFunction_move_store other m) = news m + owns_block other
   /\ deletes (UniqueFunction_move_store other m) = deletes m
   /\ owns_block (fst (UniqueFunction_move other))
      + owns_block (snd (UniqueFunction_move other))
      = owns_block other)
  /\ (news (UniqueFunction_move_assign_store this other m)
      = news m + owns_block other
      /\ deletes (UniqueFunction_move_assign_store this other m)
         = deletes m + owns_block this
      /\ owns_block (snd (fst (fst (UniqueFunction_move_assign this other s))))
         + owns_block (snd (fst (UniqueFunction_move_assign this other s)))
         = owns_block other)
  /\ (news (UniqueFunction_swap_store this other m)
      = news m + 2 * owns_block this + owns_block other
      /\ deletes (UniqueFunction_swap_store this other m) = deletes m
      /\ owns_block (fst (UniqueFunction_swap this other))
         + owns_block (snd (UniqueFunction_swap this other))
         = owns_block this + owns_block other)
  /\ (news (UniqueFunction_assign_nullptr_store this m) = news m
      /\ deletes (UniqueFunction_assign_nullptr_store this m)
         = deletes m + owns_block this
      /\ owns_block (snd (fst (UniqueFunction_assign_nullptr this s))) = 0)
  /\ (let f := UniqueFunction_closure c in
      let m1 := UniqueFunction_closure_store c m in
      let m2 := UniqueFunction_move_store f m1 in
      let m3 :=
        UniqueFunction_destroy_store (fst (UniqueFunction_move f)) m2 in
      let m4 :=
        UniqueFunction_destroy_store (snd (UniqueFunction_move f)) m3 in
      news m1 = news m + owns_block f
      /\ news m4 = news m + 2 * owns_block f
      /\ deletes m4 = deletes m + owns_block f
      /\ owns_block f = (if IsSmall c then 0 else 1))
  /\ (forall (T : Type) (fuel : nat) (state : shared_ptr) (p : Promise)
        (f : Callable T),
        owns_block (UniqueFunction_closure (H:=closure_ops fuel)
                      (ThenClosure state p f)) = 1).
Proof.
  split; [|split; [|split; [|split; [|split]]]].
  - destruct other as [[|[|]] [|co]];
      unfold UniqueFunction_move_store, UniqueFunction_move, owns_block;
      simpl; repeat split; lia.
  - destruct this as [[|[|]] [|ct]], other as [[|[|]] [|co]];
      unfold UniqueFunction_move_assign_store, UniqueFunction_move_assign,
        owns_block; simpl;
      try destruct (destructor ct s); simpl; repeat split; lia.
  - destruct this as [[|[|]] [|ct]], other as [[|[|]] [|co]];
      unfold UniqueFunction_swap_store, UniqueFunction_swap, owns_block;
      simpl; repeat split; lia.
  - destruct this as [[|[|]] [|ct]];
      unfold UniqueFunction_assign_nullptr_store,
        UniqueFunction_assign_nullptr, owns_block; simpl;
      try destruct (destructor ct s); simpl; repeat split; lia.
  - unfold UniqueFunction_closure_store, UniqueFunction_move_store,
      UniqueFunction_destroy_store, UniqueFunction_move,
      UniqueFunction_closure, owns_block; simpl.
    destruct (IsSmall c); simpl; repeat split; lia.
  - done.
Qed.

End FreeStore_facts.

(** ** Threads *)

Section Threads_facts.
Variable T : Type.

Local Abbreviation Closure := (Closure T).
Local Abbreviation Callable := (Callable T).
Local Abbreviation SharedState := (SharedState T).
Local Abbreviation World := (World T).

Section Alone.
Variable ops : ClosureOps Closure unit unit World.

Lemma alone_S (n : nat) (t : Thread T) (w : World) :
  alone ops (S n) t w
  = match t with
    | Finished r => (r, w)
    | _ =>
        if enabled [t] t then
          let '(w', t') := step ops t w in alone ops n t' w'
        else (Hang blocks_forever, w)
    end.
Proof.
  destruct t; try reflexivity; cbn [alone];
    (destruct (enabled _ _); [|reflexivity]); by destruct (step ops _ w).
Qed.

(** Storing through a pointer and reading through it again. *)
Lemma load_store (this : nat) (s s' : SharedState) (w : World) :
  heap w !! this = Some s ->
  load this (snd (store this s' w)) = (Return s', snd (store this s' w)).
Proof.
  intros Hs. unfold load, store. simpl.
  rewrite list_lookup_insert_eq by (by eapply lookup_lt_Some). done.
Qed.

Lemma store_store (this : nat) (s s' : SharedState) (w : World) :
  store this s' (snd (store this s w)) = store this s' w.
Proof. unfold store. simpl. by rewrite list_insert_insert_eq. Qed.

Lemma store_same (this : nat) (s : SharedState) (w : World) :
  heap w !! this = Some s -> store this (set_m_then s (m_then s)) w
                             = (Return tt, w).
Proof.
  intros Hs. unfold store. destruct s, w. simpl in *.
  by rewrite list_insert_id.
Qed.

(** Run alone, the steps of a member do what the member does. *)
Lemma alone_call (n : nat) (invoke : bool) (f : UniqueFunction Closure)
  (k : Thread T) (w : World) :
  alone ops (S n) (at_call invoke f k) w
  = match call_and_destroy ops invoke f w with
    | (Return _, w') => alone ops n k w'
    | (Throw e, w') => (Throw e, w')
    | (Hang why, w') => (Hang why, w')
    end.
Proof.
  rewrite alone_S. cbn [enabled step].
  destruct (call_and_destroy _ _ _ _) as [[[]|e|why] w']; simpl;
    try done; by destruct n.
Qed.

Lemma alone_setStateDoneAndNotify (n : nat) (this : nat) (k : Thread T)
  (w : World) :
  alone ops (4 + n) (setStateDoneAndNotify_thread this k) w
  = match setStateDoneAndNotify ops this w with
    | (Return _, w') => alone ops n k w'
    | (Throw e, w') => (Throw e, w')
    | (Hang why, w') => (Hang why, w')
    end.
Proof.
  unfold setStateDoneAndNotify_thread, setStateDoneAndNotify.
  change (4 + n) with (S (S (S (S n)))).
  rewrite alone_S. cbn [enabled step]. unfold bind, load.
  destruct (heap w !! this) as [s|] eqn:Hs; [|reflexivity].
  unfold store at 1. cbn [goes_on fst snd]. rewrite alone_S.
  cbn [enabled step].
  unfold bind.
  change {| heap := <[this := set_m_done s true]> (heap w);
            trace := trace w |}
    with (snd (store this (set_m_done s true) w)).
  rewrite (load_store this s _ w Hs). cbn [m_then set_m_done].
  destruct (UniqueFunction_swap _ _) as [then_ then_of_s].
  unfold ret. cbn [fst snd]. rewrite store_store.
  unfold store. cbn [goes_on fst snd]. rewrite alone_S.
  cbn [enabled step fst snd].
  apply alone_call.
Qed.

Lemma alone_setValue (n : nat) (this : nat) (x : T) (k : Thread T)
  (w : World) :
  alone ops (6 + n) (setValue_thread this x k) w
  = match setValue ops this x w with
    | (Return _, w') => alone ops n k w'
    | (Throw e, w') => (Throw e, w')
    | (Hang why, w') => (Hang why, w')
    end.
Proof.
  unfold setValue_thread, setValue.
  change (6 + n) with (S (S (4 + n))).
  rewrite alone_S. cbn [enabled step]. unfold bind.
  destruct (checkState this w) as [[[]|e|why] w1]; try done.
  cbn [goes_on fst snd]. rewrite alone_S. cbn [enabled step]. unfold bind.
  destruct (load this w1) as [[s|e|why] w2]; try done.
  unfold store. cbn [goes_on fst snd]. apply alone_setStateDoneAndNotify.
Qed.

Lemma alone_setException (n : nat) (this : nat) (exc : exception_ptr)
  (k : Thread T) (w : World) :
  alone ops (6 + n) (setException_thread this exc k) w
  = match setException ops this exc w with
    | (Return _, w') => alone ops n k w'
    | (Throw e, w') => (Throw e, w')
    | (Hang why, w') => (Hang why, w')
    end.
Proof.
  unfold setException_thread, setException.
  change (6 + n) with (S (S (4 + n))).
  rewrite alone_S. cbn [enabled step]. unfold bind.
  destruct (checkState this w) as [[[]|e|why] w1]; try done.
  cbn [goes_on fst snd]. rewrite alone_S. cbn [enabled step]. unfold bind.
  destruct (load this w1) as [[s|e|why] w2]; try done.
  unfold store. cbn [goes_on fst snd]. apply alone_setStateDoneAndNotify.
Qed.

Lemma alone_setContinuation (n : nat) (this : nat)
  (continuation : UniqueFunction Closure) (k : Thread T) (w : World) :
  alone ops (3 + n) (at_done_read this continuation k) w
  = match setContinuation ops this continuation w with
    | (Return _, w') => alone ops n k w'
    | (Throw e, w') => (Throw e, w')
    | (Hang why, w') => (Hang why, w')
    end.
Proof.
  unfold setContinuation.
  change (3 + n) with (S (S (S n))).
  rewrite alone_S. cbn [enabled step]. unfold bind, load, ret.
  destruct (heap w !! this) as [s|] eqn:Hs; [|reflexivity].
  cbn [goes_on fst snd]. rewrite alone_S. cbn [enabled step].
  destruct (m_done s) eqn:Hdone; cbn [negb andb].
  - unfold ret. cbn [goes_on].
    rewrite (store_same this s w Hs). apply alone_call.
  - unfold bind, load. rewrite Hs.
    destruct (UniqueFunction_swap _ _) as [then_of_s continuation'].
    unfold store, ret. cbn [goes_on fst snd]. apply alone_call.
Qed.

Lemma alone_getValue (n : nat) (this : nat) (w : World) :
  alone ops (4 + n) (getValue_thread T this) w
  = (match fst (getValue this w) with
     | Return v => Return (a_value v)
     | Throw e => Throw e
     | Hang why => Hang why
     end, snd (getValue this w)).
Proof.
  unfold getValue_thread, wait_thread, getValue, wait.
  change (4 + n) with (S (S (S (S n)))).
  rewrite alone_S. cbn [enabled step existsb holds_mutex negb orb fst snd].
  rewrite alone_S. cbn [enabled step]. unfold bind, load, ret, hang.
  destruct (heap w !! this) as [s|] eqn:Hs; cbn [goes_on fst snd];
    [|reflexivity].
  destruct (m_done s).
  - rewrite alone_S. cbn [enabled step fst snd].
    rewrite alone_S. cbn [enabled step]. unfold bind, load, ret, throw.
    rewrite Hs.
    destruct (m_exception s), (m_result s); simpl; try done; by destruct n.
  - rewrite alone_S. cbn [enabled step fst snd]. by rewrite alone_S.
Qed.

End Alone.

(** The members of the handles, run alone, are the members. *)
Lemma alone_members (fuel n : nat) (w : World) (promise : Promise)
  (future : Future) (shared : SharedFuture) (x : T) (exc : exception_ptr)
  (f : Callable) :
  alone (closure_ops fuel) (6 + n)
    (Promise_setValue_thread promise x) w
  = (match fst (Promise_setValue (closure_ops fuel) promise x w) with
     | Return _ => Return no_value
     | Throw e => Throw e
     | Hang why => Hang why
     end, snd (Promise_setValue (closure_ops fuel) promise x w))
  /\ alone (closure_ops fuel) (6 + n)
       (Promise_setException_thread T promise exc) w
     = (match fst (Promise_setException (closure_ops fuel) promise exc w) with
        | Return _ => Return no_value
        | Throw e => Throw e
        | Hang why => Hang why
        end, snd (Promise_setException (closure_ops fuel) promise exc w))
  /\ alone (closure_ops fuel) (6 + n) (Future_get_thread T future) w
     = (match fst (fst (Future_get future w)) with
        | Return v => Return (a_value v)
        | Throw e => Throw e
        | Hang why => Hang why
        end, snd (Future_get future w))
  /\ alone (closure_ops fuel) (6 + n) (SharedFuture_get_thread T shared) w
     = (match fst (SharedFuture_get shared w) with
        | Return v => Return (a_value v)
        | Throw e => Throw e
        | Hang why => Hang why
        end, snd (SharedFuture_get shared w))
  /\ alone (closure_ops fuel) (6 + n) (Future_then_thread future f) w
     = (match fst (fst (Future_then fuel future f w)) with
        | Return future' => Return (a_future future')
        | Throw e => Throw e
        | Hang why => Hang why
        end, snd (Future_then fuel future f w)).
Proof.
  split; [|split; [|split; [|split]]].
  - destruct promise as [[statePtr|]]; [|done].
    unfold Promise_setValue_thread, Promise_setValue;
      cbn [Promise_statePtr].
    rewrite alone_setValue.
    destruct (setValue _ _ _ _) as [[[]|e|why] w']; try done. by destruct n.
  - destruct promise as [[statePtr|]]; [|done].
    unfold Promise_setException_thread, Promise_setException;
      cbn [Promise_statePtr].
    rewrite alone_setException.
    destruct (setException _ _ _ _) as [[[]|e|why] w']; try done.
    by destruct n.
  - destruct future as [[statePtr|]]; [|done].
    unfold Future_get_thread, Future_get; cbn [Future_statePtr].
    change (6 + n) with (4 + (2 + n)). rewrite alone_getValue.
    by destruct (getValue _ _) as [[v|e|why] w'].
  - destruct shared as [[statePtr|]]; [|done].
    unfold SharedFuture_get_thread, SharedFuture_get;
      cbn [SharedFuture_statePtr].
    change (6 + n) with (4 + (2 + n)). by rewrite alone_getValue.
  - destruct future as [[statePtr|]]; [|done].
    destruct (new_promise_getFuture T w)
      as (promise' & w1 & w2 & E1 & E2 & _).
    unfold Future_then_thread, Future_then; cbn [Future_statePtr].
    change (6 + n) with (S (5 + n)). rewrite alone_S. cbn [enabled].
    unfold step, bind. rewrite E1. cbv beta iota. rewrite E2.
    unfold ret. cbn [goes_on fst snd Promise_move].
    destruct (UniqueFunction_move _) as [argument continuation].
    cbn [fst snd]. change (5 + n) with (3 + (2 + n)).
    rewrite alone_setContinuation.
    destruct (setContinuation _ _ _ _) as [[[]|e|why] w3]; try done.
    change (2 + n) with (S (S n)). rewrite alone_S. cbn [enabled step].
    unfold bind.
    destruct (UniqueFunction_destroy continuation w3) as [[[]|e|why] w4];
      reflexivity.
Qed.

End Threads_facts.

Section Schedules.
Variable T : Type.

Local Abbreviation Closure := (Closure T).
Local Abbreviation World := (World T).

Variable ops : ClosureOps Closure unit unit World.

Lemma successors_step (i : nat) (w : World) (pool : list (Thread T))
  (c : World * list (Thread T)) :
  step_at ops i w pool = Some c -> c ∈ successors ops w pool.
Proof.
  intros Hstep. unfold successors. apply list_elem_of_omap.
  exists i. split; [|done]. apply elem_of_seq. split; [lia|]. simpl.
  unfold step_at in Hstep.
  destruct (pool !! i) as [t|] eqn:Ht; [|done].
  by eapply lookup_lt_Some.
Qed.

Lemma successors_halted (w : World) (pool : list (Thread T)) :
  successors ops w pool = [] -> halted ops (w, pool).
Proof.
  intros Hnone i. simpl.
  destruct (step_at ops i w pool) as [c|] eqn:Hstep; [|done].
  apply successors_step in Hstep. rewrite Hnone in Hstep.
  by apply elem_of_nil in Hstep.
Qed.

Lemma all_halted_next (n : nat) (P : World -> list (Thread T) -> Prop)
  (next : list (World * list (Thread T))) (c : World * list (Thread T)) :
  fold_right (fun c rest => all_halted ops n (fst c) (snd c) P /\ rest)
    True next ->
  c ∈ next -> all_halted ops n (fst c) (snd c) P.
Proof.
  induction next as [|c' next IH]; simpl.
  - intros _ Hc. by apply elem_of_nil in Hc.
  - intros [Hhere Hrest] [->|Hc]%elem_of_cons; [done|]. by apply IH.
Qed.

(** What [all_halted] says of the schedules. *)
Lemma all_halted_sound (n : nat) (P : World -> list (Thread T) -> Prop) :
  forall (w : World) (pool : list (Thread T)),
    all_halted ops n w pool P ->
    forall c, reaches ops (w, pool) c -> halted ops c -> P (fst c) (snd c).
Proof.
  induction n as [|n IH]; intros w pool Hall c Hreach Hhalt.
  - inversion Hreach as [? | i ? w' ? pool' ? Hstep Hrest]; subst.
    + simpl in Hall.
      destruct (successors ops w pool) as [|c' next] eqn:Hnext; [done|].
      assert (Hin : c' ∈ successors ops w pool)
        by (rewrite Hnext; apply list_elem_of_here).
      apply list_elem_of_omap in Hin as (i & _ & Hi).
      specialize (Hhalt i). simpl in Hhalt. congruence.
    + apply successors_step in Hstep. simpl in Hall.
      destruct (successors ops w pool) as [|c' next]; [|done].
      by apply elem_of_nil in Hstep.
  - inversion Hreach as [? | i ? w' ? pool' ? Hstep Hrest]; subst.
    + simpl in Hall.
      destruct (successors ops w pool) as [|c' next] eqn:Hnext; [done|].
      assert (Hin : c' ∈ successors ops w pool)
        by (rewrite Hnext; apply list_elem_of_here).
      apply list_elem_of_omap in Hin as (i & _ & Hi).
      specialize (Hhalt i). simpl in Hhalt. congruence.
    + apply successors_step in Hstep. simpl in Hall.
      destruct (successors ops w pool) as [|c' next] eqn:Hnext.
      { by apply elem_of_nil in Hstep. }
      apply (IH w' pool'); [|done..].
      by apply (all_halted_next n P (c' :: next) (w', pool')).
Qed.

(** Some schedule comes to a halt within [n] steps. *)
Lemma all_halted_halts (n : nat) (P : World -> list (Thread T) -> Prop) :
  forall (w : World) (pool : list (Thread T)),
    all_halted ops n w pool P ->
    exists c, reaches ops (w, pool) c /\ halted ops c.
Proof.
  induction n as [|n IH]; intros w pool Hall; simpl in Hall.
  - destruct (successors ops w pool) as [|c' next] eqn:Hnext; [|done].
    exists (w, pool). split; [constructor | by apply successors_halted].
  - destruct (successors ops w pool) as [|c' next] eqn:Hnext.
    + exists (w, pool). split; [constructor | by apply successors_halted].
    + assert (Hin : c' ∈ successors ops w pool)
        by (rewrite Hnext; apply list_elem_of_here).
      apply list_elem_of_omap in Hin as (i & _ & Hi).
      destruct Hall as [Hc' _]. destruct c' as [w' pool'].
      destruct (IH w' pool' Hc') as (c & Hreach & Hhalt).
      exists c. split; [|done]. by eapply reaches_step.
Qed.

(** A schedule that can be followed is a way to get there. *)
Lemma follow_reaches (schedule : list nat) :
  forall (w : World) (pool : list (Thread T)) (c : World * list (Thread T)),
    follow ops schedule w pool = Some c -> reaches ops (w, pool) c.
Proof.
  induction schedule as [|i rest IH]; intros w pool c; simpl.
  - intros [= <-]. constructor.
  - destruct (step_at ops i w pool) as [[w' pool']|] eqn:Hstep; [|done].
    simpl. intros Hrest. eapply reaches_step; [exact Hstep | by apply IH].
Qed.

End Schedules.

(** ** Races *)

(** The leaves of [all_halted], once computed: equations, and choices
    between them. *)
Ltac one_of :=
  first [ reflexivity
        | split; one_of
        | left; one_of
        | right; one_of ].

Ltac at_every_halt :=
  vm_compute;
  repeat match goal with
         | |- True => exact I
         | |- _ /\ _ => split
         | |- _ \/ _ => one_of
         | |- _ = _ => reflexivity
         end.

(** The state a schedule ends in, for a statement of the form
    [exists c, reaches _ _ c /\ halted _ c /\ _]. *)
Ltac by_schedule schedule :=
  eexists; split;
  [ apply (follow_reaches _ _ schedule); vm_compute; reflexivity
  | split; [ apply successors_halted; vm_compute; reflexivity
           | vm_compute; one_of ] ].

Section Races.
Variable T : Type.

Local Abbreviation World := (World T).



(** X20.  Two producers racing.  [checkState] reads [m_done] before the
    block that sets it, and outside of the lock.  So of two [setValue]
    calls on one cell that run at once, in every schedule one returns and
    the other returns as well or throws [promise_already_satisfied], and
    the cell ends up completed; and there is a schedule in which both
    return. *)
Theorem setValue_races_setValue
  (ops : ClosureOps (Closure T) unit unit World) (x y : T) :
  let satisfied : Result (Outcome T) :=
    Throw (FutureError promise_already_satisfied) in
  let start :=
    (promised T,
     [Promise_setValue_thread {| Promise_statePtr := Some 0 |} x;
      Promise_setValue_thread {| Promise_statePtr := Some 0 |} y]) in
  (forall c,
     reaches ops start c -> halted ops c ->
     (snd c = [Finished (Return no_value); Finished satisfied]
      \/ snd c = [Finished satisfied; Finished (Return no_value)]
      \/ snd c = [Finished (Return no_value); Finished (Return no_value)])
     /\ wait 0 (fst c) = (Return tt, fst c))
  /\ (exists c,
        reaches ops start c /\ halted ops c
        /\ snd c = [Finished (Return no_value); Finished (Return no_value)]).
Proof.
  intros satisfied start. split.
  - assert (Hall : all_halted ops 12 (fst start) (snd start)
                     (fun w pool =>
                        (pool = [Finished (Return no_value);
                                 Finished satisfied]
                         \/ pool = [Finished satisfied;
                                    Finished (Return no_value)]
                         \/ pool = [Finished (Return no_value);
                                    Finished (Return no_value)])
                        /\ wait 0 w = (Return tt, w))).
    { at_every_halt. }
    intros c Hreach Hhalt.
    exact (all_halted_sound T ops 12 _ _ _ Hall c Hreach Hhalt).
  - by_schedule [0; 1; 0; 0; 0; 0; 0; 1; 1; 1; 1; 1].
Qed.

End Races.

(** C3.  The race of the claim, in the code.  Thread 0 calls
    [promise.setValue(21)], thread 1 calls [then(f)] on the promise's
    [Future], and the steps go in this order: [then] makes its continuation
    and, in [setContinuation], reads [m_done] as false; [setValue] runs from
    its first step to its last, and its [then.swap(m_then)] finds [m_then]
    empty; [setContinuation] goes on, swaps the continuation into [m_then]
    and, [done] being false, does not call it.  Both calls have returned and
    the cell holds 21, but the continuation is still stored in it: [f] was
    invoked zero times, no call is left that would invoke it, and [get()]
    on the [Future] of [then] waits for ever. *)
Theorem continuation_lost_in_race :
  let f := of_function 7 (fun v : nat => Return (v * 2)) in
  let ops := closure_ops 1 in
  let pool :=
    [Promise_setValue_thread {| Promise_statePtr := Some 0 |} 21;
     Future_then_thread {| Future_statePtr := Some 0 |} f] in
  let future := {| Future_statePtr := Some 1 |} in
  exists c,
    follow ops [1; 1; 0; 0; 0; 0; 0; 0; 1; 1; 1] (promised nat) pool = Some c
    /\ halted ops c
    /\ snd c = [Finished (Return no_value);
                Finished (Return (a_future future))]
    /\ getValue 0 (fst c) = (Return 21, fst c)
    /\ left_behind 0 (fst c) = true
    /\ invocations 7 (fst c) = 0
    /\ Future_get future (fst c)
       = (Hang blocks_forever, Future_default, fst c).
Proof.
  eexists. split; [vm_compute; reflexivity|].
  split; [apply successors_halted; vm_compute; reflexivity|].
  vm_compute. repeat split.
Qed.

(* ------------------------------------------------------------------ *)
(** * Counterexamples to the claims as the specification words them *)

(** C2 as worded: when [g] throws, the last [get()] throws the same and [h]
    is never invoked.  Here [g] throws and [h] ignores its [Future] and
    returns 7: [h] is invoked, and the last [get()] returns 7.  With an [h]
    that calls [get()], the exception does come out, and [h] was invoked all
    the same. *)
Lemma then_calls_h_after_g_throws :
  let e := user_exception "std::logic_error" "Task failed!" in
  let g := {| callable_tag := 1; callable_body := fun _ => Throw e |} in
  let h := {| callable_tag := 2; callable_body := fun _ => Return 7 |} in
  let h' := of_function 2 (fun value => Return (value * 2)) in
  let end_h := then_then 2 g h 42 World_empty in
  let end_h' := then_then 2 g h' 42 World_empty in
  fst end_h = Return 7
  /\ invocations 2 (snd end_h) = 1
  /\ fst end_h' = Throw e
  /\ invocations 2 (snd end_h') = 1
  /\ ~ (fst end_h = Throw e /\ invocations 2 (snd end_h) = 0)
  /\ ~ (fst end_h' = Throw e /\ invocations 2 (snd end_h') = 0).
Proof.
  vm_compute. repeat split; try (intros [? ?]; discriminate).
Qed.

(* ------------------------------------------------------------------ *)
(** * The theorems at work on small programs *)

(** [setValue_once]: one cell, [setValue(42)], then a program that tries
    [setValue(7)]; and the same for the [void] members. *)
Lemma setValue_once_witness :
  let w := exec_all [(1, op_make_shared)] (World_empty (T:=nat)) in
  let later_calls := [(1, op_setValue 0 7)] in
  let w1 := snd (setValue (closure_ops 1) 0 42 w) in
  let w1_void := snd (setValue_void (closure_ops 1) 0 w) in
  (setValue (closure_ops 1) 0 42 w = (Return tt, w1)
   /\ getValue 0 (exec_all later_calls w1)
      = (Return 42, exec_all later_calls w1))
  /\ (setValue_void (closure_ops 1) 0 w = (Return tt, w1_void)
      /\ getValue_void 0 (exec_all later_calls w1_void)
         = (Return tt, exec_all later_calls w1_void)).
Proof.
  intros w later_calls w1 w1_void. split; (split; [reflexivity|]).
  - apply (proj1 (setValue_once nat [(1, op_make_shared)] later_calls 1 0 w1)
             42).
    reflexivity.
  - apply (proj2 (setValue_once nat [(1, op_make_shared)] later_calls 1 0
                    w1_void)).
    reflexivity.
Defined.

(** [then_chain]: the function objects of the tests, doubling twice; and a
    [g] that throws. *)
Lemma then_chain_witness :
  let double := fun value : nat => Return (value * 2) in
  let e := user_exception "std::logic_error" "Task failed!" in
  let g := of_function 1 double in
  let h := of_function 2 double in
  let thrower := {| callable_tag := 3; callable_body := fun _ => Throw e |} in
  (exists w', then_then 2 g h 42 World_empty = (Return 168, w')
              /\ trace w' = [1; 2])
  /\ (exists w', then_then 2 (of_function 1 double) (of_function 2 double)
                   42 World_empty = (Return 168, w')
                 /\ trace w' = [1; 2])
  /\ (exists w', then_then 2 thrower h 42 World_empty = (Throw e, w')
                 /\ trace w' = [3; 2])
  /\ (exists w', then_then 2 thrower (of_function 2 double) 42 World_empty
                 = (Throw e, w')
                 /\ trace w' = [3; 2]).
Proof.
  intros double e g h thrower. split; [|split; [|split]].
  - exact (proj1 (then_chain nat World_empty 0 g h 42) I I).
  - exact (proj1 (proj2 (then_chain nat World_empty 0 g h 42))
             1 2 double double 84 eq_refl I).
  - exact (proj1 (proj2 (proj2 (then_chain nat World_empty 0 thrower h 42)))
             e eq_refl I).
  - exact (proj2 (proj2 (proj2 (then_chain nat World_empty 0 thrower h 42)))
             e 2 double eq_refl).
Defined.

(** [continuation_runs_once]: a continuation attached to a new cell; the
    cell completed with it stored; a continuation attached to a cell that is
    completed; and a stored continuation replaced by another. *)
Lemma continuation_runs_once_witness :
  let c := UserClosure 5 8 None in
  let other := UserClosure 6 8 None in
  let w := exec_all [(1, op_make_shared)] (World_empty (T:=nat)) in
  let attached := exec 1 (op_setContinuation 0 (Some c)) w in
  let completed := exec 1 (op_setValue 0 42) w in
  (trace attached = trace w /\ pending_with_tag 5 attached = 1)
  /\ invocations 5 (exec 1 (op_setException 0 None) attached) = 1
  /\ invocations 5 (exec 1 (op_setContinuation 0 (Some c)) completed) = 1
  /\ invocations 5
       (exec_all [(1, op_setValue 0 42)]
          (exec 1 (op_setContinuation 0 (Some other)) attached)) = 0.
Proof.
  intros c other w attached completed. split; [|split; [|split]].
  - destruct (proj1 (continuation_runs_once nat w 0 SharedState_default c 1
                       eq_refl eq_refl) eq_refl eq_refl)
      as (Htrace & _ & Hpending).
    split; [exact Htrace | exact (Hpending eq_refl)].
  - exact (proj1 (proj1 (proj2 (continuation_runs_once nat attached 0
                                  (set_m_then SharedState_default
                                     (UniqueFunction_closure
                                        (H:=closure_ops 1) c))
                                  c 0 eq_refl eq_refl))
                    eq_refl eq_refl eq_refl
                    (op_setException 0 None) [] eq_refl eq_refl)).
  - exact (proj1 (proj1 (proj2 (proj2 (continuation_runs_once nat completed 0
                                         (set_m_result
                                            (set_m_done SharedState_default
                                               true)
                                            (Some 42))
                                         c 0 eq_refl eq_refl)))
                    eq_refl eq_refl [] eq_refl)).
  - exact (proj2 (proj2 (proj2 (proj2 (continuation_runs_once nat attached 0
                                         (set_m_then SharedState_default
                                            (UniqueFunction_closure
                                               (H:=closure_ops 1) c))
                                         c 1 eq_refl eq_refl)))
                    eq_refl eq_refl eq_refl
                    (op_setContinuation 0 (Some other))
                    [(1, op_setValue 0 42)] eq_refl eq_refl)).
Defined.

(** [exception_propagates]: [setException] on a new cell. *)
Lemma exception_propagates_witness :
  let e := user_exception "std::logic_error" "Task failed!" in
  let w := exec_all [(1, op_make_shared)] (World_empty (T:=nat)) in
  let w1 := snd (setException (closure_ops 1) 0 (Some e) w) in
  setException (closure_ops 1) 0 (Some e) w = (Return tt, w1)
  /\ Future_get {| Future_statePtr := Some 0 |} w1
     = (Throw e, Future_default, w1).
Proof.
  intros e w w1. split; [reflexivity|].
  exact (proj1 (exception_propagates nat w w1 1 0 e [] eq_refl)).
Defined.

(** [getFuture_once]: [getFuture] twice on a cell, with a call between. *)
Lemma getFuture_once_witness :
  let w := exec_all [(1, op_make_shared)] (World_empty (T:=nat)) in
  let promise := {| Promise_statePtr := Some 0 |} in
  let w1 := snd (Promise_getFuture promise w) in
  Promise_getFuture promise w = (Return {| Future_statePtr := Some 0 |}, w1)
  /\ Promise_getFuture promise (exec_all [(1, op_setValue 0 42)] w1)
     = (Throw (FutureError future_already_retrieved),
        exec_all [(1, op_setValue 0 42)] w1).
Proof.
  intros w promise w1. split; [reflexivity|].
  exact (proj2 (proj2 (getFuture_once nat w) promise
                  {| Future_statePtr := Some 0 |} w1
                  [(1, op_setValue 0 42)] eq_refl)).
Defined.

(** [promise_destroyed_unfulfilled]: a promise destroyed with a continuation
    stored; and the one error of a program that sets a cell twice. *)
Lemma promise_destroyed_unfulfilled_witness :
  let g := of_function 1 (fun value : nat => Return (value * 2)) in
  let c := UserClosure 5 8 None in
  let w := exec_all [(1, op_make_shared);
                     (1, op_setContinuation 0 (Some c))]
             (World_empty (T:=nat)) in
  let program := [(1, op_make_shared); (1, op_setValue 0 42)] in
  trace (snd (Promise_destroy (closure_ops 1)
                {| Promise_statePtr := Some 0 |} w)) = []
  /\ fst (call_op 1 (op_setValue 0 7) (exec_all program World_empty))
     = Some (FutureError promise_already_satisfied)
  /\ FutureError promise_already_satisfied <> FutureError broken_promise.
Proof.
  intros g c w program. split; [|split; [reflexivity|]].
  - exact (proj1 (proj1 (promise_destroyed_unfulfilled nat w 1 g) 0
                    (set_m_then SharedState_default
                       (UniqueFunction_closure (H:=closure_ops 1) c))
                    eq_refl)).
  - apply (proj1 (proj2 (promise_destroyed_unfulfilled nat w 1 g))
             program (op_setValue 0 7)).
    + repeat constructor.
    + exact I.
    + reflexivity.
Defined.

(** [get_consumes_on_error]: a cell completed with an exception. *)
Lemma get_consumes_on_error_witness :
  let e := user_exception "std::logic_error" "Task failed!" in
  let w := exec_all [(1, op_make_shared); (1, op_setException 0 (Some e))]
             (World_empty (T:=nat)) in
  let this := {| Future_statePtr := Some 0 |} in
  Future_get this w = (Throw e, Future_default, w)
  /\ Future_get (snd (fst (Future_get this w))) w
     = (Throw (FutureError no_state), Future_default, w).
Proof.
  intros e w this.
  destruct (get_consumes_on_error nat w 0
              (set_m_done (set_m_exception SharedState_default (Some e)) true)
              e eq_refl eq_refl eq_refl) as (Hget & _ & Hagain & _).
  split; [exact Hget | exact Hagain].
Defined.

(** [move_assign_takes_over]: [f2 = std::move(f1)] of [testMove], and an
    assignment over an instance that holds a closure of its own, which costs
    the pointer one use. *)
Lemma move_assign_takes_over_witness :
  let f1 := UniqueFunction_closure (H:=shared_int_ops) 42 in
  let f2 := UniqueFunction_nullptr (C:=nat) in
  let f3 := UniqueFunction_closure (H:=shared_int_ops) 7 in
  (snd (UniqueFunction_move_assign (H:=shared_int_ops) f2 f1 2) = 2
   /\ target (snd (fst (fst (UniqueFunction_move_assign
                               (H:=shared_int_ops) f2 f1 2)))) = Some 42)
  /\ (snd (UniqueFunction_move_assign (H:=shared_int_ops) f3 f1 2) = 1
      /\ UniqueFunction_bool
           (snd (fst (UniqueFunction_move_assign
                        (H:=shared_int_ops) f3 f1 2))) = false).
Proof.
  intros f1 f2 f3.
  assert (W1 : UniqueFunction_wf f1) by (intros _; discriminate).
  assert (W2 : UniqueFunction_wf f2) by (intros Hne; by destruct Hne).
  assert (W3 : UniqueFunction_wf f3) by (intros _; discriminate).
  split.
  - destruct (move_assign_takes_over (H:=shared_int_ops) f2 f1 2 W2 W1)
      as (Hs & Ht & _).
    split; [exact (f_equal snd Hs) | exact Ht].
  - destruct (move_assign_takes_over (H:=shared_int_ops) f3 f1 2 W3 W1)
      as (Hs & _ & Hb & _).
    split; [exact (f_equal snd Hs) | exact Hb].
Defined.

(** [swap_exchanges]: [swap(f1, f2)] of [testSwap]. *)
Lemma swap_exchanges_witness :
  let f1 := UniqueFunction_closure (H:=shared_int_ops) 42 in
  let f2 := UniqueFunction_nullptr (C:=nat) in
  UniqueFunction_bool (fst (UniqueFunction_swap (H:=shared_int_ops) f1 f2))
  = false
  /\ target (snd (UniqueFunction_swap (H:=shared_int_ops) f1 f2)) = Some 42.
Proof.
  intros f1 f2.
  assert (W1 : UniqueFunction_wf f1) by (intros _; discriminate).
  assert (W2 : UniqueFunction_wf f2) by (intros Hne; by destruct Hne).
  destruct (swap_exchanges (H:=shared_int_ops) f1 f2 W1 W2)
    as (_ & Ht & Hb & _).
  split; [exact Hb | exact Ht].
Defined.

(** [assign_nullptr_destroys]: [f = nullptr] on an instance that holds the
    closure of the tests. *)
Lemma assign_nullptr_destroys_witness :
  let f := UniqueFunction_closure (H:=shared_int_ops) 42 in
  snd (UniqueFunction_assign_nullptr (H:=shared_int_ops) f 2) = 1
  /\ UniqueFunction_destroy (H:=shared_int_ops)
       (snd (fst (UniqueFunction_assign_nullptr (H:=shared_int_ops) f 2))) 1
     = (Return tt, 1).
Proof.
  intros f.
  assert (W : UniqueFunction_wf f) by (intros _; discriminate).
  destruct (assign_nullptr_destroys (H:=shared_int_ops) f 2 1 tt W)
    as (Hs & _ & _ & Hd).
  split; [exact (f_equal snd Hs) | exact Hd].
Defined.

(** [destroyed_once]: [testDestructorCall], and the same after a move. *)
Lemma destroyed_once_witness :
  let f := UniqueFunction_closure (H:=shared_int_ops) 42 in
  UniqueFunction_destroy (H:=shared_int_ops) f 2 = (Return tt, 1)
  /\ UniqueFunction_destroy (H:=shared_int_ops)
       (snd (UniqueFunction_move (H:=shared_int_ops) f)) 2
     = (Return tt, 2).
Proof.
  intros f.
  assert (W : UniqueFunction_wf f) by (intros _; discriminate).
  destruct (destroyed_once (H:=shared_int_ops) f f 2 W W)
    as (Hd & _ & Hm & _).
  split; [exact Hd | exact Hm].
Defined.

(** [bool_tells_callable]: an instance with a closure, and an empty one. *)
Lemma bool_tells_callable_witness :
  let f := UniqueFunction_closure (H:=shared_int_ops) 42 in
  let empty := UniqueFunction_default (C:=nat) in
  (exists c f', target f = Some c
                /\ UniqueFunction_call (H:=shared_int_ops) f tt 2
                   = (Return c, f', 2))
  /\ UniqueFunction_call (H:=shared_int_ops) empty tt 2
     = (Throw bad_function_call, empty, 2).
Proof.
  intros f empty.
  assert (W : UniqueFunction_wf f) by (intros _; discriminate).
  assert (W0 : UniqueFunction_wf empty) by (intros Hne; by destruct Hne).
  split.
  - destruct (proj1 (bool_tells_callable (H:=shared_int_ops) f tt 2 W)
                eq_refl) as (c & f' & Ht & Hcall & _).
    exists c, f'. split; [exact Ht | exact Hcall].
  - exact (proj1 (proj2 (bool_tells_callable (H:=shared_int_ops) empty tt 2
                           W0)) eq_refl).
Defined.

(** [toString_injective]: two codes with one message. *)
Lemma toString_injective_witness : no_state = no_state.
Proof. exact (toString_injective no_state no_state eq_refl). Defined.

(** [completed_is_terminal]: a cell completed with an exception, read after
    an attempt to set it. *)
Lemma completed_is_terminal_witness :
  let e := user_exception "std::logic_error" "Task failed!" in
  let w := exec_all [(1, op_make_shared); (1, op_setException 0 (Some e))]
             (World_empty (T:=nat)) in
  let w' := exec_all [(1, op_setValue 0 42)] w in
  getValue 0 w' = (Throw e, w')
  /\ setValue (closure_ops 1) 0 7 w'
     = (Throw (FutureError promise_already_satisfied), w').
Proof.
  intros e w w'.
  destruct (completed_is_terminal nat w 0
              (set_m_done (set_m_exception SharedState_default (Some e)) true)
              [(1, op_setValue 0 42)] eq_refl eq_refl)
    as (_ & _ & Hget & _ & Hset & _).
  split; [exact Hget | exact (Hset 1 7)].
Defined.

(** [null_exception_ptr]: [setException(nullptr)] on a new cell. *)
Lemma null_exception_ptr_witness :
  let w := exec_all [(1, op_make_shared)] (World_empty (T:=nat)) in
  let w1 := snd (setException (closure_ops 1) 0 None w) in
  setException (closure_ops 1) 0 None w = (Return tt, w1)
  /\ getValue 0 w1 = (Throw bad_optional_access, w1)
  /\ getValue_void 0 w1 = (Return tt, w1).
Proof.
  intros w w1. split; [reflexivity|].
  destruct (null_exception_ptr nat [(1, op_make_shared)] [] 1 0 w1 eq_refl)
    as (Hget & _ & _ & Hvoid & _).
  split; [exact Hget | exact Hvoid].
Defined.

(** [completed_although_continuation_throws]: a cell with a continuation
    that throws, set to 42. *)
Lemma completed_although_continuation_throws_witness :
  let e := user_exception "std::runtime_error" "continuation failed" in
  let c := UserClosure 5 8 (Some e) in
  let w := exec_all [(1, op_make_shared);
                     (1, op_setContinuation 0 (Some c))]
             (World_empty (T:=nat)) in
  exists w',
    setValue (closure_ops 1) 0 42 w = (Throw e, w')
    /\ trace w' = [5]
    /\ getValue 0 w' = (Return 42, w').
Proof.
  intros e c w.
  destruct (proj1 (completed_although_continuation_throws nat w 0
                     (set_m_then SharedState_default
                        (UniqueFunction_closure (H:=closure_ops 1) c))
                     0 5 8 e 42 None eq_refl eq_refl eq_refl eq_refl))
    as (w' & Hset & Ht & Hget & _).
  exists w'. split; [exact Hset | split; [exact Ht | exact Hget]].
Defined.

(** [then_either_side]: the function object of [testFutureThen], attached
    after the promise was set to 42. *)
Lemma then_either_side_witness :
  let f := of_function 1 (fun value : nat => Return (value * 2)) in
  exists promise w1 w2 future w3 future_g w4,
    Promise_new World_empty = (Return promise, w1)
    /\ Promise_setValue (closure_ops 1) promise 42 w1 = (Return tt, w2)
    /\ Promise_getFuture promise w2 = (Return future, w3)
    /\ Future_then 1 future f w3 = (Return future_g, Future_default, w4)
    /\ trace w4 = [1]
    /\ Future_get future_g w4 = (Return 84, Future_default, w4).
Proof.
  intros f. exact (proj2 (then_either_side nat World_empty 0 f 42 I)).
Defined.

(** [reachable_settled]: the cell of a program that attaches a continuation
    and then sets the value. *)
Lemma reachable_settled_witness :
  let c := UserClosure 5 8 None in
  let program := [(1, op_make_shared); (1, op_setContinuation 0 (Some c));
                  (1, op_setValue 0 42)] in
  let w := exec_all program (World_empty (T:=nat)) in
  exists s, heap w !! 0 = Some s
            /\ UniqueFunction_bool (m_then s) = false
            /\ UniqueFunction_wf (m_then s).
Proof.
  intros c program w. eexists. split; [reflexivity|].
  destruct (reachable_settled nat w 0 _ (ex_intro _ program eq_refl) eq_refl)
    as (_ & _ & Hdone & Hwf).
  split; [exact (proj1 (Hdone eq_refl)) | exact Hwf].
Defined.

(** [chain_of_any_length]: three [then]s with the function object of the
    tests, which doubles; the promise set to 42, and to an exception. *)
Lemma chain_of_any_length_witness :
  let f := of_function 1 (fun value : nat => Return (value * 2)) in
  let e := user_exception "std::logic_error" "Task failed!" in
  (exists w',
     chain_of_thens 3 [f; f; f] (Return 42) World_empty = (Return 336, w')
     /\ trace w' = [1; 1; 1])
  /\ (exists w',
        chain_of_thens 3 [f; f; f] (Throw e) World_empty = (Throw e, w')
        /\ trace w' = [1; 1; 1]).
Proof.
  intros f e. split.
  - exact (chain_of_any_length nat World_empty 3 [f; f; f] (Return 42)
             (le_n 3) (conj I (conj I (conj I I)))).
  - exact (chain_of_any_length nat World_empty 3 [f; f; f] (Throw e)
             (le_n 3) (conj I (conj I (conj I I)))).
Defined.


